(** * Vault Recall: the TF-IDF index and the resurfacing queries

    A shallow embedding of the indexing core of the plugin:
    - [tfidf.ts]: [tokenize], [simpleStem], [computeTF], [computeIDF],
      [computeTFIDF], [cosineSimilarity];
    - [embeddings/engine.ts]: the [EmbeddingEngine] state and its operations
      [indexVault], [indexNote], [removeNote], [findSimilar], [loadIndex];
    - [resurfacer/scoring.ts] and [resurfacer/resurfacer.ts]: the scores and
      [getDailyDigest] with its fallback [getForgottenNotes].

    Conventions of the embedding.
    - A JavaScript [Map<string, V>] is an association list in insertion
      order, the order in which the program iterates it; [set] overwrites in
      place or appends, [delete] drops the key.  A [Map] never holds a key
      twice: [JsMap.wf] states it where a proof needs it.
    - A JavaScript [number] is a real number: arithmetic is exact.  The one
      place where rounding decides a property, the self-similarity of a
      vector, is measured against IEEE binary64 in [Module Binary64].
    - Text is a [string] of 8-bit characters (ISO 8859-1).  A character
      outside ASCII is, for the tokenizer, a separator: it is not in [\w],
      lower-casing keeps it outside ASCII, and it ends up as white space.
    - [topK] and [count] count results: natural numbers.
    - The host application (vault, metadata cache, file adapter, clock) is a
      record of values, read but never written by the index. *)

From Stdlib Require Import Reals Lra Lia List String Ascii Bool Arith ZArith.
From Stdlib Require Import Permutation Sorted DecimalString.
From Stdlib Require Floats.
Import ListNotations.

Local Open Scope string_scope.
Local Open Scope list_scope.
Local Open Scope nat_scope.

(* ================================================================== *)
(** ** JavaScript maps, in insertion order *)

Module JsMap.

Section Ops.
Context {V : Type}.

Definition t := list (string * V).

Fixpoint get (m : t) (k : string) : option V :=
  match m with
  | [] => None
  | (k', v) :: m' => if String.eqb k' k then Some v else get m' k
  end.

Definition has (m : t) (k : string) : bool :=
  match get m k with Some _ => true | None => false end.

(** [m.set(k, v)]: an existing key keeps its place, a new one goes last. *)
Fixpoint set (m : t) (k : string) (v : V) : t :=
  match m with
  | [] => [(k, v)]
  | (k', v') :: m' =>
      if String.eqb k' k then (k', v) :: m' else (k', v') :: set m' k v
  end.

Definition delete (m : t) (k : string) : t :=
  filter (fun e => negb (String.eqb (fst e) k)) m.

Definition keys (m : t) : list string := map fst m.
Definition values (m : t) : list V := map snd m.

(** The invariant of every [Map]: no key twice. *)
Definition wf (m : t) : Prop := NoDup (keys m).
End Ops.

Arguments t : clear implicits.

End JsMap.

Abbreviation JsMap := JsMap.t.

(* ================================================================== *)
(** ** Tokenizer ([tfidf.ts]) *)

Definition STOP_WORDS : list string :=
  [ "a"; "an"; "the"; "and"; "or"; "but"; "in"; "on"; "at"; "to"; "for";
    "of"; "with"; "by"; "from"; "is"; "it"; "its"; "this"; "that"; "are";
    "was"; "were"; "be"; "been"; "being"; "have"; "has"; "had"; "do"; "does";
    "did"; "will"; "would"; "could"; "should"; "may"; "might"; "can"; "shall";
    "not"; "no"; "nor"; "so"; "if"; "then"; "than"; "too"; "very"; "just";
    "about"; "above"; "after"; "again"; "all"; "also"; "am"; "any"; "as";
    "because"; "before"; "between"; "both"; "each"; "few"; "get"; "got";
    "he"; "her"; "here"; "him"; "his"; "how"; "i"; "into"; "like"; "make";
    "me"; "more"; "most"; "my"; "new"; "now"; "only"; "other"; "our"; "out";
    "over"; "own"; "same"; "she"; "some"; "such"; "up"; "us"; "we"; "what";
    "when"; "where"; "which"; "while"; "who"; "whom"; "why"; "you"; "your";
    "there"; "they"; "them"; "their"; "these"; "those"; "through"; "under";
    "until"; "well"; "much"; "many"; "still"; "even"; "back"; "down" ].

Definition isStopWord (w : string) : bool := existsb (String.eqb w) STOP_WORDS.

Definition code (c : ascii) : nat := nat_of_ascii c.

Definition isUpper (c : ascii) : bool := (65 <=? code c) && (code c <=? 90).
Definition isLower (c : ascii) : bool := (97 <=? code c) && (code c <=? 122).
Definition isDigit (c : ascii) : bool := (48 <=? code c) && (code c <=? 57).

(** [\w]: letters, digits and the underscore. *)
Definition isWord (c : ascii) : bool :=
  isUpper c || isLower c || isDigit c || (code c =? 95).

(** [\s] below 128: tab, line feed, vertical tab, form feed, carriage
    return, space. *)
Definition isSpace (c : ascii) : bool :=
  ((9 <=? code c) && (code c <=? 13)) || (code c =? 32).

Definition lowerChar (c : ascii) : ascii :=
  if isUpper c then ascii_of_nat (code c + 32) else c.

Fixpoint mapString (f : ascii -> ascii) (s : string) : string :=
  match s with
  | EmptyString => EmptyString
  | String c s' => String (f c) (mapString f s')
  end.

Definition toLowerCase (s : string) : string := mapString lowerChar s.

(** [.replace(/[^\w\s]/g, ' ')] *)
Definition blankPunct (c : ascii) : ascii :=
  if isWord c || isSpace c then c else " "%char.

Definition removePunctuation (s : string) : string := mapString blankPunct s.

(** [.replace(/\d+/g, ' ')]: every maximal run of digits becomes one space;
    [inRun] tells that the previous character was a digit. *)
Fixpoint removeNumbersFrom (inRun : bool) (s : string) : string :=
  match s with
  | EmptyString => EmptyString
  | String c s' =>
      if isDigit c
      then if inRun then removeNumbersFrom true s'
           else String " " (removeNumbersFrom true s')
      else String c (removeNumbersFrom false s')
  end.

Definition removeNumbers (s : string) : string := removeNumbersFrom false s.

(** [.split(/\s+/)]: the pieces between maximal runs of white space; a
    string that starts (ends) with white space has an empty first (last)
    piece, and the empty string has the single piece [""].  The head of the
    result is the piece under construction; [inRun] tells that the previous
    character was white space. *)
Definition consHead (c : ascii) (pieces : list string) : list string :=
  match pieces with
  | [] => [String c EmptyString]
  | p :: rest => String c p :: rest
  end.

Fixpoint splitFrom (inRun : bool) (s : string) : list string :=
  match s with
  | EmptyString => [EmptyString]
  | String c s' =>
      if isSpace c
      then if inRun then splitFrom true s' else EmptyString :: splitFrom true s'
      else consHead c (splitFrom false s')
  end.

Definition splitWhitespace (s : string) : list string := splitFrom false s.

Definition endsWith (word suffix : string) : bool :=
  (String.length suffix <=? String.length word) &&
  String.eqb
    (substring (String.length word - String.length suffix)
               (String.length suffix) word)
    suffix.

(** [word.slice(0, n)] for [0 <= n <= word.length]. *)
Definition slice0 (word : string) (n : nat) : string := substring 0 n word.

Definition suffixes : list string :=
  [ "tion"; "sion"; "ment"; "ness"; "ible"; "able"; "ful"; "less"; "ous";
    "ive"; "ing"; "ies"; "ied"; "ers"; "est"; "ity"; "aly"; "ely"; "ize";
    "ise"; "ify"; "ate"; "ent"; "ant"; "ary"; "ery"; "ory"; "ly"; "ed";
    "er"; "es"; "al"; "en" ].

(** The [for] loop of [simpleStem]: the first suffix that matches and leaves
    at least three characters is stripped. *)
Fixpoint stripSuffix (word : string) (sfx : list string) : option string :=
  match sfx with
  | [] => None
  | suffix :: rest =>
      if endsWith word suffix
         && (3 <=? String.length word - String.length suffix)
      then Some (slice0 word (String.length word - String.length suffix))
      else stripSuffix word rest
  end.

Definition simpleStem (word : string) : string :=
  if String.length word <=? 4 then word
  else match stripSuffix word suffixes with
       | Some stem => stem
       | None =>
           if endsWith word "s" && negb (endsWith word "ss")
              && (3 <? String.length word)
           then slice0 word (String.length word - 1)
           else word
       end.

Definition keepToken (token : string) : bool :=
  (2 <? String.length token) && negb (isStopWord token).

Definition tokenize (text : string) : list string :=
  map simpleStem
    (filter keepToken
       (splitWhitespace (removeNumbers (removePunctuation (toLowerCase text))))).

(** [tokens.join(' ')] *)
Definition joinTokens (tokens : list string) : string := String.concat " " tokens.

(* ================================================================== *)
(** ** Numbers *)

Local Open Scope R_scope.

(** The comparisons of the program, as tests. *)
Definition Rgtb (x y : R) : bool := if Rlt_dec y x then true else false.
Definition Rltb (x y : R) : bool := if Rlt_dec x y then true else false.
Definition Rleb (x y : R) : bool := if Rle_dec x y then true else false.
Definition Rgeb (x y : R) : bool := if Rle_dec y x then true else false.
Definition Reqb (x y : R) : bool := if Req_dec_T x y then true else false.

(** [v ?? 0] *)
Definition orZero (o : option R) : R :=
  match o with Some v => v | None => 0 end.

(** [Math.round]: the nearest integer, halves upwards. *)
Definition Math_round (x : R) : Z := (up (x + / 2) - 1)%Z.

(** An integral number in a template literal. *)
Definition numberToString (z : Z) : string := NilZero.string_of_int (Z.to_int z).

(** [array.sort((a, b) => key(b) - key(a))]: the sort of the language is
    stable, so among equal keys the earlier element stays first. *)
Fixpoint insertDesc {A : Type} (key : A -> R) (x : A) (l : list A) : list A :=
  match l with
  | [] => [x]
  | y :: l' => if Rltb (key x) (key y) then y :: insertDesc key x l'
               else x :: y :: l'
  end.

Definition sortDesc {A : Type} (key : A -> R) (l : list A) : list A :=
  fold_right (insertDesc key) [] l.

(* ================================================================== *)
(** ** Vector math ([tfidf.ts]) *)

(** The first loop of [computeTF] and of [computeIDF]: one more occurrence
    of [term]. *)
Definition increment (m : JsMap R) (term : string) : JsMap R :=
  JsMap.set m term (orZero (JsMap.get m term) + 1).

Definition computeTF (tokens : list string) : JsMap R :=
  let total := List.length tokens in
  if (total =? 0)%nat then []
  else
    let counts := fold_left increment tokens [] in
    fold_left (fun tf '(term, count) => JsMap.set tf term (count / INR total))
              counts counts.

Definition computeIDF (documents : list (JsMap R)) : JsMap R :=
  let N := List.length documents in
  if (N =? 0)%nat then []
  else
    let df :=
      fold_left (fun df doc => fold_left increment (JsMap.keys doc) df)
                documents [] in
    fold_left (fun idf '(term, freq) =>
                 JsMap.set idf term (ln (INR N / (1 + freq))))
              df [].

Definition computeTFIDF (tf idf : JsMap R) : JsMap R :=
  fold_left (fun tfidf '(term, tfValue) =>
               let idfValue := orZero (JsMap.get idf term) in
               let score := tfValue * idfValue in
               if Rgtb score 0 then JsMap.set tfidf term score else tfidf)
            tf [].

(** The first loop of [cosineSimilarity] carries [(dotProduct, normA)]. *)
Definition cosineStep (vecB : JsMap R) (acc : R * R) (e : string * R) : R * R :=
  let '(dotProduct, normA) := acc in
  let '(term, valA) := e in
  (match JsMap.get vecB term with
   | Some valB => dotProduct + valA * valB
   | None => dotProduct
   end,
   normA + valA * valA).

Definition cosineSimilarity (vecA vecB : JsMap R) : R :=
  let '(dotProduct, normA) := fold_left (cosineStep vecB) vecA (0, 0) in
  let normB := fold_left (fun n valB => n + valB * valB) (JsMap.values vecB) 0 in
  let denominator := sqrt normA * sqrt normB in
  if Reqb denominator 0 then 0 else dotProduct / denominator.

(* ================================================================== *)
(** ** The same similarity in IEEE binary64

    [cosineSimilarity] once more, over the numbers the program runs on:
    every operation rounds to the nearest double. *)

Module Binary64.

Import Floats.

Definition cosineStep (vecB : JsMap float) (acc : float * float)
    (e : string * float) : float * float :=
  let '(dotProduct, normA) := acc in
  let '(term, valA) := e in
  (match JsMap.get vecB term with
   | Some valB => dotProduct + valA * valB
   | None => dotProduct
   end,
   normA + valA * valA)%float.

Definition cosineSimilarity (vecA vecB : JsMap float) : float :=
  let '(dotProduct, normA) := fold_left (cosineStep vecB) vecA (0, 0)%float in
  let normB :=
    fold_left (fun n valB => n + valB * valB)%float (JsMap.values vecB) 0%float in
  let denominator := (PrimFloat.sqrt normA * PrimFloat.sqrt normB)%float in
  if PrimFloat.eqb denominator 0 then 0%float
  else (dotProduct / denominator)%float.

End Binary64.

(* ================================================================== *)
(** ** The host application *)

(** [TFile]: [mtime] is [file.stat.mtime], in milliseconds. *)
Record TFile := {
  path : string;
  basename : string;
  extension : string;
  mtime : R
}.

(** What [getAbstractFileByPath] can deliver: a file or a folder. *)
Inductive TAbstractFile :=
| AFile (file : TFile)
| AFolder (folderPath : string).

Definition abstractPath (e : TAbstractFile) : string :=
  match e with AFile f => path f | AFolder p => p end.

(** A parsed JSON document.  The properties of an object are in the order
    in which [Object.entries] enumerates them. *)
#[local] Unset Elimination Schemes.
Inductive json :=
| JNull
| JBool (b : bool)
| JNumber (r : R)
| JString (s : string)
| JArray (items : list json)
| JObject (props : list (string * json)).
#[local] Set Elimination Schemes.

(** What the adapter and [JSON.parse] make of [index.json]: the file does
    not exist; reading or parsing it throws; or it parses. *)
Inductive IndexFile :=
| Missing
| Unreadable
| Parsed (data : json).

Record App := {
  vaultEntries : list TAbstractFile;
  cachedRead : TFile -> string;
  (** [metadataCache.resolvedLinks]: source path, then target path *)
  resolvedLinks : JsMap (JsMap nat);
  indexFile : IndexFile
}.

Definition vault_getMarkdownFiles (app : App) : list TFile :=
  flat_map (fun e => match e with
                     | AFile f => if String.eqb (extension f) "md" then [f] else []
                     | AFolder _ => []
                     end)
           (vaultEntries app).

Definition vault_getAbstractFileByPath (app : App) (p : string)
  : option TAbstractFile :=
  find (fun e => String.eqb (abstractPath e) p) (vaultEntries app).

(* ================================================================== *)
(** ** Reading a parsed snapshot

    A value of the running program is a JSON value or [undefined] ([None]);
    an operation that throws a [TypeError] returns [None] at the outside. *)

Definition value := option json.

(** [data.name] for a name that no prototype defines ([tfMaps], [idf]):
    [null] throws, an object answers with its own property, everything else
    with [undefined]. *)
Definition getProperty (data : json) (name : string) : option value :=
  match data with
  | JNull => None
  | JObject props => Some (JsMap.get props name)
  | _ => Some None
  end.

Definition indexName (i : nat) : string :=
  NilZero.string_of_uint (Nat.to_uint i).

Definition indexed (items : list json) : list (string * json) :=
  combine (map indexName (seq 0 (List.length items))) items.

(** [Object.entries(v)]: throws on [undefined] and [null]; a number or a
    boolean has no entries; a string and an array have one per index. *)
Definition Object_entries (v : value) : option (list (string * json)) :=
  match v with
  | None | Some JNull => None
  | Some (JBool _) | Some (JNumber _) => Some []
  | Some (JString s) =>
      Some (indexed (map (fun c => JString (String c EmptyString))
                         (list_ascii_of_string s)))
  | Some (JArray items) => Some (indexed items)
  | Some (JObject props) => Some props
  end.

(** [new Map(entries)] *)
Definition newMap {V : Type} (entries : list (string * V)) : JsMap V :=
  fold_left (fun m '(k, v) => JsMap.set m k v) entries [].

(* ================================================================== *)
(** ** The index engine ([embeddings/engine.ts]) *)

Record EmbeddingEngine := {
  tfMaps : JsMap (JsMap R);
  idf : JsMap R;
  tfidfVectors : JsMap (JsMap R);
  indexReady : bool;
  excludedFolders : list string
}.

Record SimilarNote := {
  file : TFile;
  similarity : R
}.

(** [new EmbeddingEngine(app, excludedFolders)] *)
Definition newEngine (folders : list string) : EmbeddingEngine :=
  {| tfMaps := []; idf := []; tfidfVectors := []; indexReady := false;
     excludedFolders := folders |}.

Definition setExcludedFolders (st : EmbeddingEngine) (folders : list string)
  : EmbeddingEngine :=
  {| tfMaps := tfMaps st; idf := idf st; tfidfVectors := tfidfVectors st;
     indexReady := indexReady st; excludedFolders := folders |}.

Definition isReady (st : EmbeddingEngine) : bool := indexReady st.

Definition getMarkdownFiles (app : App) (st : EmbeddingEngine) : list TFile :=
  filter (fun f => negb (existsb (fun folder => prefix (folder ++ "/") (path f))
                                 (excludedFolders st)))
         (vault_getMarkdownFiles app).

Definition removeNote (st : EmbeddingEngine) (p : string) : EmbeddingEngine :=
  {| tfMaps := JsMap.delete (tfMaps st) p;
     idf := idf st;
     tfidfVectors := JsMap.delete (tfidfVectors st) p;
     indexReady := indexReady st;
     excludedFolders := excludedFolders st |}.

(** Step 3 of [indexVault], and the last loop of [loadIndex]: a vector for
    every TF map, in the order of [tfMaps]. *)
Definition rebuildVectors (tfs : JsMap (JsMap R)) (idfTable : JsMap R)
  : JsMap (JsMap R) :=
  fold_left (fun vectors '(p, tf) => JsMap.set vectors p (computeTFIDF tf idfTable))
            tfs [].

Definition getIndexedPaths (st : EmbeddingEngine) : list string :=
  JsMap.keys (tfMaps st).

Section Engine.

(** [getIndexableContent(file, content)] strips front matter and markdown
    syntax with regular expressions and prefixes the title three times.
    The index only tokenizes its result; it is a parameter here. *)
Variable getIndexableContent : TFile -> string -> string.

(** The number that a restored leaf stands for in arithmetic.  A snapshot
    that [saveIndex] wrote holds numbers there. *)
Variable leafNumber : json -> R.

(** The TF map that [indexVault] and [indexNote] compute for a file. *)
Definition fileTF (app : App) (f : TFile) : JsMap R :=
  computeTF (tokenize (getIndexableContent f (cachedRead app f))).

Definition indexVault (app : App) (st : EmbeddingEngine) : EmbeddingEngine :=
  let files := getMarkdownFiles app st in
  if (List.length files =? 0)%nat then st
  else
    let tfs :=
      fold_left (fun m f => JsMap.set m (path f) (fileTF app f)) files [] in
    let idfTable := computeIDF (JsMap.values tfs) in
    {| tfMaps := tfs;
       idf := idfTable;
       tfidfVectors := rebuildVectors tfs idfTable;
       indexReady := true;
       excludedFolders := excludedFolders st |}.

Definition indexNote (app : App) (st : EmbeddingEngine) (f : TFile)
  : EmbeddingEngine :=
  if negb (indexReady st) then st
  else
    let tf := fileTF app f in
    let tfs := JsMap.set (tfMaps st) (path f) tf in
    let idfTable := computeIDF (JsMap.values tfs) in
    {| tfMaps := tfs;
       idf := idfTable;
       tfidfVectors := JsMap.set (tfidfVectors st) (path f) (computeTFIDF tf idfTable);
       indexReady := indexReady st;
       excludedFolders := excludedFolders st |}.

(** The first loop of [loadIndex], after [tfMaps.clear()]: the entries of
    [data.tfMaps] go in one by one; [Object.entries(tf)] throws on a
    [null] and leaves what was restored so far.  The boolean tells
    whether the loop ran to its end. *)
Fixpoint restoreTfMaps (entries : list (string * json))
    (acc : JsMap (JsMap R)) : JsMap (JsMap R) * bool :=
  match entries with
  | [] => (acc, true)
  | (filePath, tf) :: rest =>
      match Object_entries (Some tf) with
      | None => (acc, false)
      | Some terms =>
          restoreTfMaps rest
            (JsMap.set acc filePath
               (newMap (map (fun '(term, v) => (term, leafNumber v)) terms)))
      end
  end.

Definition withTfMaps (st : EmbeddingEngine) (tfs : JsMap (JsMap R))
  : EmbeddingEngine :=
  {| tfMaps := tfs; idf := idf st; tfidfVectors := tfidfVectors st;
     indexReady := indexReady st; excludedFolders := excludedFolders st |}.

(** [loadIndex]: the new state and the returned boolean. *)
Definition loadIndex (app : App) (st : EmbeddingEngine)
  : EmbeddingEngine * bool :=
  match indexFile app with
  | Missing => (st, false)
  | Unreadable => (st, false)
  | Parsed data =>
      (* this.tfMaps.clear() comes before data.tfMaps is read *)
      match getProperty data "tfMaps" with
      | None => (withTfMaps st [], false)
      | Some tfMapsValue =>
          match Object_entries tfMapsValue with
          | None => (withTfMaps st [], false)
          | Some entries =>
              let '(tfs, finished) := restoreTfMaps entries [] in
              if negb finished then (withTfMaps st tfs, false)
              else
                match getProperty data "idf" with
                | None => (withTfMaps st tfs, false)
                | Some idfValue =>
                    match Object_entries idfValue with
                    | None => (withTfMaps st tfs, false)
                    | Some idfEntries =>
                        let idfTable :=
                          newMap (map (fun '(term, v) => (term, leafNumber v))
                                      idfEntries) in
                        ({| tfMaps := tfs;
                            idf := idfTable;
                            tfidfVectors := rebuildVectors tfs idfTable;
                            indexReady := true;
                            excludedFolders := excludedFolders st |},
                         true)
                    end
                end
          end
      end
  end.

(** *** The life of an engine

    The operations that change the state, each with the host application as
    it is when the operation runs. *)
Inductive Operation :=
| IndexVault (app : App)
| IndexNote (app : App) (f : TFile)
| RemoveNote (p : string)
| LoadIndex (app : App)
| SetExcludedFolders (folders : list string).

Definition step (st : EmbeddingEngine) (op : Operation) : EmbeddingEngine :=
  match op with
  | IndexVault app => indexVault app st
  | IndexNote app f => indexNote app st f
  | RemoveNote p => removeNote st p
  | LoadIndex app => fst (loadIndex app st)
  | SetExcludedFolders folders => setExcludedFolders st folders
  end.

Definition run (ops : list Operation) (st : EmbeddingEngine) : EmbeddingEngine :=
  fold_left step ops st.

(** A full build that finds at least one file. *)
Definition buildsIndex (st : EmbeddingEngine) (op : Operation) : Prop :=
  exists app, op = IndexVault app /\ getMarkdownFiles app st <> [].

(** A [loadIndex] that returns [true]. *)
Definition restoresIndex (st : EmbeddingEngine) (op : Operation) : Prop :=
  exists app, op = LoadIndex app /\ snd (loadIndex app st) = true.

(** A [loadIndex] that returns [false] on a file that parsed. *)
Definition failsOnParsedFile (st : EmbeddingEngine) (op : Operation) : Prop :=
  exists app data,
    op = LoadIndex app /\ indexFile app = Parsed data
    /\ snd (loadIndex app st) = false.

(** A run in which no [loadIndex] fails on a file that parsed. *)
Fixpoint cleanRun (ops : list Operation) (st : EmbeddingEngine) : Prop :=
  match ops with
  | [] => True
  | op :: rest => ~ failsOnParsedFile st op /\ cleanRun rest (step st op)
  end.

End Engine.

(** The loop of [findSimilar] over [tfidfVectors]. *)
Definition similarityScores (sourcePath : string) (sourceVector : JsMap R)
    (vectors : JsMap (JsMap R)) : list (string * R) :=
  fold_left (fun scores '(p, vector) =>
               if String.eqb p sourcePath then scores
               else
                 let sim := cosineSimilarity sourceVector vector in
                 if Rgtb sim 0.01 then scores ++ [(p, sim)] else scores)
            vectors [].

(** The last step of [findSimilar]: a path that is no longer a file of the
    vault drops out. *)
Definition toSimilarNote (app : App) (s : string * R) : list SimilarNote :=
  match vault_getAbstractFileByPath app (fst s) with
  | Some (AFile f) => [ {| file := f; similarity := snd s |} ]
  | _ => []
  end.

(** [topK] counts results: a natural number. *)
Definition findSimilar (app : App) (st : EmbeddingEngine) (f : TFile)
    (topK : nat) : list SimilarNote :=
  if negb (indexReady st) then []
  else
    match JsMap.get (tfidfVectors st) (path f) with
    | None => []
    | Some sourceVector =>
        let scores := similarityScores (path f) sourceVector (tfidfVectors st) in
        flat_map (toSimilarNote app) (firstn topK (sortDesc snd scores))
    end.

(* ================================================================== *)
(** ** Scoring ([resurfacer/scoring.ts]) *)

Definition relevanceScore (sim : R) : R := Rmin (Rmax sim 0) 1.

Definition msPerDay : R := 1000 * 60 * 60 * 24.

(** [now] is [Date.now()]. *)
Definition timeDecayScore (now lastModifiedMs : R) : R :=
  let daysSinceModified := (now - lastModifiedMs) / msPerDay in
  1 - exp (- daysSinceModified / 20).

Definition orphanBoost (backlinkCount : nat) : R :=
  if (backlinkCount =? 0)%nat then 1
  else if (backlinkCount =? 1)%nat then 0.5
  else if (backlinkCount <=? 3)%nat then 0.2
  else 0.

Definition getBacklinkCount (app : App) (f : TFile) : nat :=
  fold_left (fun count '(_, targets) =>
               if JsMap.has targets (path f) then S count else count)
            (resolvedLinks app) 0%nat.

Record Weights := {
  w_relevance : R;
  w_decay : R;
  w_orphan : R
}.

Definition defaultWeights : Weights :=
  {| w_relevance := 0.5; w_decay := 0.35; w_orphan := 0.15 |}.

Definition compositeScoreWith (weights : Weights) (relevance decay orphan : R) : R :=
  relevance * w_relevance weights + decay * w_decay weights
  + orphan * w_orphan weights.

Definition compositeScore : R -> R -> R -> R := compositeScoreWith defaultWeights.

(* ================================================================== *)
(** ** The resurfacer ([resurfacer/resurfacer.ts]) *)

Record ResurfacedNote := {
  note : TFile;
  score : R;
  reason : string;
  daysSinceModified : Z;
  snippet : string
}.

Definition reasonRelated : string := "Related to your recent work".
Definition reasonLongAgo : string := "Written long ago, might be worth revisiting".
Definition reasonUnlinked : string := "Unlinked note — consider connecting it".
Definition reasonForgotten : string := "Forgotten note worth revisiting".
Definition reasonNotModified (days : Z) : string :=
  "Not modified in " ++ numberToString days ++ " days".

(** The reason of a digest entry on the path with anchors. *)
Definition digestReason (rel decay orphan : R) : string :=
  if Rgtb rel 0.3 then reasonRelated
  else if Rgtb decay 0.8 then reasonLongAgo
  else if Rgtb orphan 0.5 then reasonUnlinked
  else reasonForgotten.

(** The reason of an entry of [getForgottenNotes]. *)
Definition forgottenReason (daysSince orphan : R) : string :=
  if Rgtb orphan 0.5 then reasonUnlinked
  else reasonNotModified (Math_round daysSince).

Definition getDaysSinceModified (now : R) (f : TFile) : R :=
  (now - mtime f) / msPerDay.

Definition getRecentlyModifiedFiles (app : App) (now : R) (withinDays : R)
  : list TFile :=
  let cutoff := now - withinDays * 24 * 60 * 60 * 1000 in
  firstn 10
    (sortDesc mtime
       (filter (fun f => Rgtb (mtime f) cutoff) (vault_getMarkdownFiles app))).

(** A candidate of the digest: the file and the best similarity seen. *)
Record Candidate := {
  c_file : TFile;
  maxSimilarity : R
}.

(** The inner loop of [getDailyDigest] over the notes similar to one anchor. *)
Definition addCandidates (now minDaysOld : R) (similar : list SimilarNote)
    (candidateMap : JsMap Candidate) : JsMap Candidate :=
  fold_left
    (fun cm s =>
       if Rltb (getDaysSinceModified now (file s)) minDaysOld then cm
       else
         match JsMap.get cm (path (file s)) with
         | Some existing =>
             if Rgtb (similarity s) (maxSimilarity existing)
             then JsMap.set cm (path (file s))
                    {| c_file := file s; maxSimilarity := similarity s |}
             else cm
         | None =>
             JsMap.set cm (path (file s))
               {| c_file := file s; maxSimilarity := similarity s |}
         end)
    similar candidateMap.

Section Resurfacer.

(** [getSnippet(file)]: the first line of the note, shortened; shown to
    the user and used by no score. *)
Variable getSnippet : App -> TFile -> string.

Definition scoreCandidate (app : App) (now : R) (c : Candidate)
  : ResurfacedNote :=
  let daysSince := getDaysSinceModified now (c_file c) in
  let backlinks := getBacklinkCount app (c_file c) in
  let rel := relevanceScore (maxSimilarity c) in
  let decay := timeDecayScore now (mtime (c_file c)) in
  let orphan := orphanBoost backlinks in
  {| note := c_file c;
     score := compositeScore rel decay orphan;
     reason := digestReason rel decay orphan;
     daysSinceModified := Math_round daysSince;
     snippet := getSnippet app (c_file c) |}.

Definition scoreForgotten (app : App) (now : R) (f : TFile) : ResurfacedNote :=
  let daysSince := getDaysSinceModified now f in
  let backlinks := getBacklinkCount app f in
  let decay := timeDecayScore now (mtime f) in
  let orphan := orphanBoost backlinks in
  {| note := f;
     score := compositeScore 0.3 decay orphan;
     reason := forgottenReason daysSince orphan;
     daysSinceModified := Math_round daysSince;
     snippet := getSnippet app f |}.

Definition getForgottenNotes (app : App) (now minDaysOld : R) (count : nat)
  : list ResurfacedNote :=
  let scored :=
    map (scoreForgotten app now)
        (filter (fun f => negb (Rltb (getDaysSinceModified now f) minDaysOld))
                (vault_getMarkdownFiles app)) in
  firstn count (sortDesc score scored).

Definition getDailyDigest (app : App) (st : EmbeddingEngine)
    (now minDaysOld : R) (count : nat) : list ResurfacedNote :=
  if negb (isReady st) then []
  else
    let recentFiles := getRecentlyModifiedFiles app now 3 in
    if (List.length recentFiles =? 0)%nat
    then getForgottenNotes app now minDaysOld count
    else
      let candidateMap :=
        fold_left (fun cm recentFile =>
                     addCandidates now minDaysOld
                       (findSimilar app st recentFile 20) cm)
                  recentFiles [] in
      let scored := map (scoreCandidate app now) (JsMap.values candidateMap) in
      firstn count (sortDesc score scored).

Definition getContextualSuggestions (app : App) (st : EmbeddingEngine)
    (now minDaysOld : R) (currentFile : TFile) (count : nat)
  : list SimilarNote :=
  if negb (isReady st) then []
  else
    firstn count
      (filter (fun s => Rgeb (getDaysSinceModified now (file s)) minDaysOld)
              (findSimilar app st currentFile (count * 3))).

End Resurfacer.

(* ================================================================== *)
(** ** The health of the vault (the class [VaultHealthAnalyzer]) *)

Module Health.

Record BrokenLink := {
  sourceFile : TFile;
  targetPath : string
}.

Record HealthReport := {
  score : Z;
  orphanNotes : list TFile;
  brokenLinks : list BrokenLink;
  emptyNotes : list TFile;
  duplicateTitles : list (list string);
  totalNotes : nat;
  totalLinks : nat
}.

Definition calculateScore
    (totalNotes orphanCount brokenCount emptyCount duplicateGroupCount : nat) : Z :=
  if (totalNotes =? 0)%nat then 100%Z
  else
    let orphanPenalty := Rmin (INR orphanCount / INR totalNotes * 40) 30 in
    let brokenPenalty := Rmin (INR brokenCount / INR totalNotes * 50) 25 in
    let emptyPenalty := Rmin (INR emptyCount / INR totalNotes * 30) 20 in
    let duplicatePenalty := Rmin (INR duplicateGroupCount / INR totalNotes * 20) 10 in
    let score := 100 - orphanPenalty - brokenPenalty - emptyPenalty - duplicatePenalty in
    Z.max 0 (Math_round score).

Definition getMarkdownFiles (app : App) (excludedFolders : list string) : list TFile :=
  filter (fun f => negb (existsb (fun folder => prefix (folder ++ "/") (path f))
                                 excludedFolders))
         (vault_getMarkdownFiles app).

Definition findOrphanNotes (app : App) (files : list TFile) : list TFile :=
  fold_left (fun orphans f =>
               let count :=
                 fold_left (fun count '(_, targets) =>
                              if JsMap.has targets (path f) then S count else count)
                           (resolvedLinks app) 0%nat in
               if (count =? 0)%nat then orphans ++ [f] else orphans)
            files [].

Section Analyzer.

(** [file.stat.size], in bytes. *)
Variable fileSize : TFile -> nat.

(** [metadataCache.getFileCache(file)?.links], every link by its [link]
    text; [None] when the file has no cache or the cache has no links. *)
Variable fileLinks : TFile -> option (list string).

(** [metadataCache.getFirstLinkpathDest(linkpath, sourcePath)] *)
Variable getFirstLinkpathDest : string -> string -> option TFile.

(** [String.prototype.toLowerCase] *)
Variable String_toLowerCase : string -> string.

Definition findBrokenLinks (files : list TFile) : list BrokenLink :=
  fold_left (fun broken f =>
               match fileLinks f with
               | None => broken
               | Some links =>
                   fold_left (fun broken target =>
                                match getFirstLinkpathDest target (path f) with
                                | None => broken ++ [ {| sourceFile := f;
                                                         targetPath := target |} ]
                                | Some _ => broken
                                end)
                             links broken
               end)
            files [].

Definition findEmptyNotes (files : list TFile) : list TFile :=
  fold_left (fun empty f => if (fileSize f <? 50)%nat then empty ++ [f] else empty)
            files [].

(** [existing.push(file.path)] changes the array that the map holds; the
    entry keeps its place in the map. *)
Definition findDuplicateTitles (files : list TFile) : list (list string) :=
  let nameMap :=
    fold_left (fun nameMap f =>
                 let name := String_toLowerCase (basename f) in
                 match JsMap.get nameMap name with
                 | Some existing => JsMap.set nameMap name (existing ++ [path f])
                 | None => JsMap.set nameMap name [path f]
                 end)
              files [] in
  fold_left (fun duplicates paths =>
               if (1 <? List.length paths)%nat then duplicates ++ [paths]
               else duplicates)
            (JsMap.values nameMap) [].

Definition countLinks (files : list TFile) : nat :=
  fold_left (fun total f =>
               match fileLinks f with
               | Some links => (total + List.length links)%nat
               | None => total
               end)
            files 0%nat.

Definition analyze (app : App) (excludedFolders : list string) : HealthReport :=
  let files := getMarkdownFiles app excludedFolders in
  let orphans := findOrphanNotes app files in
  let broken := findBrokenLinks files in
  let empty := findEmptyNotes files in
  let duplicates := findDuplicateTitles files in
  let links := countLinks files in
  {| score := calculateScore (List.length files) (List.length orphans)
                (List.length broken) (List.length empty) (List.length duplicates);
     orphanNotes := orphans;
     brokenLinks := broken;
     emptyNotes := empty;
     duplicateTitles := duplicates;
     totalNotes := List.length files;
     totalLinks := links |}.

End Analyzer.

End Health.

(* ================================================================== *)
(** ** The plugin ([main.ts]) *)

Section Plugin.

Variable getIndexableContent : TFile -> string -> string.
Variable leafNumber : json -> R.

(** The engine after [initializeIndex], on a plugin that has an engine.
    [saveIndex] writes to the disk of the host and leaves the engine as it
    is. *)
Definition initializeIndex (app : App) (st : EmbeddingEngine) : EmbeddingEngine :=
  let '(st1, loaded) := loadIndex leafNumber app st in
  if loaded then st1 else indexVault getIndexableContent app st1.

(** The engine after [saveSettingsAndReindex] with the excluded folders of
    the new settings. *)
Definition saveSettingsAndReindex (app : App) (st : EmbeddingEngine)
    (folders : list string) : EmbeddingEngine :=
  let st1 := setExcludedFolders st folders in
  if isReady st1 then indexVault getIndexableContent app st1 else st1.

End Plugin.

(* ================================================================== *)
(** ** The license (the class [LicenseManager]) *)

Module License.

Inductive Tier := free | pro.

Record LicenseStatus := {
  valid : bool;
  tier : Tier;
  lastChecked : R
}.

Definition CACHE_DURATION_MS : R := 24 * 60 * 60 * 1000.

(** The status of a manager that has validated nothing. *)
Definition initialStatus : LicenseStatus :=
  {| valid := false; tier := free; lastChecked := 0 |}.

Definition isPro (status : LicenseStatus) : bool :=
  valid status && match tier status with pro => true | free => false end.

(** Whether a value counts as true in a condition. *)
Definition truthy (v : value) : bool :=
  match v with
  | None | Some JNull => false
  | Some (JBool b) => b
  | Some (JNumber r) => negb (Reqb r 0)
  | Some (JString s) => negb (String.eqb s "")
  | Some (JArray _) | Some (JObject _) => true
  end.

(** [v?.name] *)
Definition optionalProperty (v : value) (name : string) : value :=
  match v with
  | None | Some JNull => None
  | Some data => match getProperty data name with Some w => w | None => None end
  end.

(** The characters that [trim] removes, among the first 256. *)
Definition isTrimSpace (c : ascii) : bool := isSpace c || (code c =? 160)%nat.

(** [!key || key.trim().length === 0] *)
Definition noKey (key : option string) : bool :=
  match key with
  | None => true
  | Some k => forallb isTrimSpace (list_ascii_of_string k)
  end.

(** What [requestUrl] does: the promise is rejected, or it is fulfilled
    with a status and a body; [json] is [None] when reading the body as
    JSON throws. *)
Inductive ApiOutcome :=
| Rejected
| Answered (status : nat) (json : option json).

Definition freeAt (time : R) : LicenseStatus :=
  {| valid := false; tier := free; lastChecked := time |}.

Definition proAt (time : R) : LicenseStatus :=
  {| valid := true; tier := pro; lastChecked := time |}.

(** [validateWithAPI]: [None] when the call throws; [later] is
    [Date.now()] after the answer. *)
Definition validateWithAPI (later : R) (outcome : ApiOutcome) : option LicenseStatus :=
  match outcome with
  | Rejected => None
  | Answered status body =>
      if (status =? 200)%nat
      then match body with
           | None => None
           | Some data =>
               match getProperty data "success" with
               | None => None
               | Some success =>
                   let purchase := optionalProperty (Some data) "purchase" in
                   if truthy success
                      && negb (truthy (optionalProperty purchase "refunded"))
                      && negb (truthy (optionalProperty purchase "chargebacked"))
                   then Some (proAt later)
                   else Some (freeAt later)
               end
           end
      else Some (freeAt later)
  end.

(** [validate]: the status that the manager keeps and returns; [now] is
    [Date.now()] before the request, [later] after it. *)
Definition validate (now later : R) (key : option string)
    (cachedStatus : option LicenseStatus) (outcome : ApiOutcome) : LicenseStatus :=
  if noKey key then freeAt now
  else
    let fresh :=
      match cachedStatus with
      | Some c => valid c && Rltb (now - lastChecked c) CACHE_DURATION_MS
      | None => false
      end in
    match cachedStatus, fresh with
    | Some c, true => c
    | _, _ =>
        match validateWithAPI later outcome with
        | Some result => result
        | None =>
            match cachedStatus with
            | Some c => if valid c then c else freeAt later
            | None => freeAt later
            end
        end
    end.

Definition maxDigestCount : nat := 3.
Definition maxExcludedFolders : nat := 2.

End License.

(** [getEffectiveDigestCount] of the plugin, from the status that the
    license manager keeps and the [digestCount] of the settings. *)
Definition getEffectiveDigestCount (status : License.LicenseStatus)
    (digestCount : nat) : nat :=
  if License.isPro status then digestCount
  else Nat.min digestCount License.maxDigestCount.

Section ShowDigest.

Variable getSnippet : App -> TFile -> string.

(** [showDailyDigest] of a plugin that has a resurfacer: the digest that
    the modal shows, or [None] when a notice says that the index is not
    ready. *)
Definition showDailyDigest (app : App) (st : EmbeddingEngine)
    (status : License.LicenseStatus) (now minDaysOld : R) (digestCount : nat)
  : option (list ResurfacedNote) :=
  if negb (isReady st) then None
  else Some (getDailyDigest getSnippet app st now minDaysOld
               (getEffectiveDigestCount status digestCount)).

End ShowDigest.

(* ================================================================== *)
(** ** Writing the snapshot ([saveIndex]) *)

(** The value of a string of decimal digits. *)
Fixpoint digitsValue (acc : N) (s : string) : option N :=
  match s with
  | EmptyString => Some acc
  | String c s' =>
      if isDigit c then digitsValue (acc * 10 + N.of_nat (code c - 48)) s' else None
  end.

(** An array index: the decimal numeral, without a leading zero, of an
    integer from 0 to 2^32 - 2.  An object enumerates such keys first, in
    ascending order, and then the other keys in the order of creation. *)
Definition isArrayIndex (s : string) : bool :=
  match s with
  | EmptyString => false
  | String c s' =>
      (negb (Ascii.eqb c "0") || String.eqb s' "")
      && match digitsValue 0 s with
         | Some n => (n <? 4294967295)%N
         | None => false
         end
  end.

Definition indexValue (s : string) : N :=
  match digitsValue 0 s with Some n => n | None => 0%N end.

Fixpoint insertIndex {V : Type} (e : string * V) (l : list (string * V))
  : list (string * V) :=
  match l with
  | [] => [e]
  | e' :: l' =>
      if (indexValue (fst e) <? indexValue (fst e'))%N then e :: l
      else e' :: insertIndex e l'
  end.

(** [Object.fromEntries(entries)], as [Object.entries] and
    [JSON.stringify] enumerate it. *)
Definition Object_fromEntries {V : Type} (entries : list (string * V))
  : list (string * V) :=
  let created := newMap entries in
  fold_right insertIndex [] (filter (fun e => isArrayIndex (fst e)) created)
  ++ filter (fun e => negb (isArrayIndex (fst e))) created.

Definition numbersObject (m : JsMap R) : json :=
  JObject (Object_fromEntries (map (fun '(term, x) => (term, JNumber x)) m)).

(** What [JSON.parse] reads back from the text that [saveIndex] writes;
    [now] is [Date.now()].  A number is written in full. *)
Definition saveIndex (st : EmbeddingEngine) (now : R) : json :=
  JObject
    [ ("tfMaps",
       JObject (Object_fromEntries
                  (map (fun '(k, v) => (k, numbersObject v)) (tfMaps st))));
      ("idf", numbersObject (idf st));
      ("lastIndexed", JNumber now) ].

(* ================================================================== *)
(** ** The events of the vault ([main.ts]) *)

(** The part of the plugin that the handlers of the vault events change:
    the engine, the set [pendingIndexFiles] in the order of insertion, and
    whether [indexDebounceTimer] holds a timer. *)
Record PluginState := {
  engine : EmbeddingEngine;
  pendingIndexFiles : list string;
  indexDebounceTimer : bool
}.

(** [set.add(p)] *)
Definition setAdd (s : list string) (p : string) : list string :=
  if existsb (String.eqb p) s then s else s ++ [p].

(** [debouncedIndexNote]: the path is pending and the timer starts anew. *)
Definition debouncedIndexNote (pl : PluginState) (f : TFile) : PluginState :=
  {| engine := engine pl;
     pendingIndexFiles := setAdd (pendingIndexFiles pl) (path f);
     indexDebounceTimer := true |}.

Definition withEngine (pl : PluginState) (st : EmbeddingEngine) : PluginState :=
  {| engine := st;
     pendingIndexFiles := pendingIndexFiles pl;
     indexDebounceTimer := indexDebounceTimer pl |}.

Definition onModify (pl : PluginState) (e : TAbstractFile) : PluginState :=
  match e with
  | AFile f => if String.eqb (extension f) "md" then debouncedIndexNote pl f else pl
  | AFolder _ => pl
  end.

Definition onDelete (pl : PluginState) (e : TAbstractFile) : PluginState :=
  match e with
  | AFile f => withEngine pl (removeNote (engine pl) (path f))
  | AFolder _ => pl
  end.

Definition onRename (pl : PluginState) (e : TAbstractFile) (oldPath : string)
  : PluginState :=
  match e with
  | AFile f =>
      if String.eqb (extension f) "md"
      then debouncedIndexNote (withEngine pl (removeNote (engine pl) oldPath)) f
      else pl
  | AFolder _ => pl
  end.

Section Debounce.

Variable getIndexableContent : TFile -> string -> string.

(** The callback of the timer of [debouncedIndexNote], run to its end
    before the next event of the vault: every pending path that is a file
    of the vault is indexed, in the order of the set, and the set is
    cleared. *)
Definition flushPending (app : App) (pl : PluginState) : PluginState :=
  {| engine :=
       fold_left (fun st p =>
                    match vault_getAbstractFileByPath app p with
                    | Some (AFile f) => indexNote getIndexableContent app st f
                    | _ => st
                    end)
                 (pendingIndexFiles pl) (engine pl);
     pendingIndexFiles := [];
     indexDebounceTimer := false |}.

(** What happens to the plugin: an event of the vault, or the timer of
    the index fires, with the host as it is then. *)
Inductive PluginEvent :=
| Modify (e : TAbstractFile)
| Delete (e : TAbstractFile)
| Rename (e : TAbstractFile) (oldPath : string)
| TimerFires (app : App).

Definition pluginStep (pl : PluginState) (ev : PluginEvent) : PluginState :=
  match ev with
  | Modify e => onModify pl e
  | Delete e => onDelete pl e
  | Rename e oldPath => onRename pl e oldPath
  | TimerFires app => if indexDebounceTimer pl then flushPending app pl else pl
  end.

Definition runPlugin (events : list PluginEvent) (pl : PluginState) : PluginState :=
  fold_left pluginStep events pl.

End Debounce.

(** The plugin after [onload], with its engine. *)
Definition loadedPlugin (st : EmbeddingEngine) : PluginState :=
  {| engine := st; pendingIndexFiles := []; indexDebounceTimer := false |}.

(* ================================================================== *)
(** * The vocabulary of the statements, and sample data

    Nothing below is code of the plugin: these are the predicates, sums and
    counts in which the properties are stated, the loops of the code named
    so that a lemma can speak of them, and the small vaults on which the
    examples run. *)

(** ** Tokens *)

(** What a token is made of: a lower-case letter or the underscore. *)
Definition tokenChar (c : ascii) : bool :=
  isWord c && negb (isDigit c) && negb (isUpper c).

Fixpoint allChars (p : ascii -> bool) (s : string) : bool :=
  match s with
  | EmptyString => true
  | String c s' => p c && allChars p s'
  end.

Definition spaceOrToken (c : ascii) : bool := isSpace c || tokenChar c.

(** A piece put in front of the piece under construction. *)
Definition appendHead (t : string) (pieces : list string) : list string :=
  match pieces with
  | [] => [t]
  | p :: rest => (t ++ p)%string :: rest
  end.

Definition isToken (t : string) : Prop :=
  allChars tokenChar t = true /\ (3 <= String.length t)%nat.

(** ** Sums and counts over vectors *)

(** [sum(m.values())] *)
Definition sumValues (m : JsMap R) : R := fold_right Rplus 0 (JsMap.values m).

(** The table [df] of [computeIDF]. *)
Definition documentFrequencies (documents : list (JsMap R)) : JsMap R :=
  fold_left (fun df doc => fold_left increment (JsMap.keys doc) df) documents [].

(** The number of documents that hold [term]. *)
Definition docCount (term : string) (documents : list (JsMap R)) : nat :=
  List.length (filter (fun doc => JsMap.has doc term) documents).

Definition memb (term : string) (terms : list string) : bool :=
  existsb (String.eqb term) terms.

(** The loop of [computeTFIDF], from any accumulator. *)
Definition tfidfLoop (idfTable : JsMap R) (tf acc : JsMap R) : JsMap R :=
  fold_left (fun tfidf '(term, tfValue) =>
               let idfValue := orZero (JsMap.get idfTable term) in
               let score := tfValue * idfValue in
               if Rgtb score 0 then JsMap.set tfidf term score else tfidf)
            tf acc.

(** The dot product over the terms of [vecA] that [vecB] shares. *)
Definition dot (vecA vecB : JsMap R) : R :=
  fold_right (fun '(term, valA) acc => valA * orZero (JsMap.get vecB term) + acc)
             0 vecA.

(** The squared norm. *)
Definition norm2 (vec : JsMap R) : R :=
  fold_right (fun e acc => snd e * snd e + acc) 0 vec.

(** The values of [vecB] at the terms of [vecA], in the order of [vecA]. *)
Definition aligned (vecA vecB : JsMap R) : list R :=
  map (fun e => orZero (JsMap.get vecB (fst e))) vecA.

Definition sumSquares (l : list R) : R := fold_right (fun b acc => b * b + acc) 0 l.

(** ** Rankings *)

(** Non-increasing in [key]. *)
Definition descending {A : Type} (key : A -> R) (a b : A) : Prop := key b <= key a.

(** What one entry of [tfidfVectors] adds to [scores]. *)
Definition scoreOf (sourcePath : string) (sourceVector : JsMap R)
    (e : string * JsMap R) : list (string * R) :=
  if String.eqb (fst e) sourcePath then []
  else if Rgtb (cosineSimilarity sourceVector (snd e)) 0.01
       then [(fst e, cosineSimilarity sourceVector (snd e))]
       else [].

(** ** Sample hosts *)

(** [file.basename.replace(/[-_]/g, ' ')] *)
Definition titleOf (f : TFile) : string :=
  mapString (fun c => if Ascii.eqb c "-" || Ascii.eqb c "_" then " "%char else c)
            (basename f).

(** [getIndexableContent] on a content that has no front matter, no link
    and no markdown mark: the stripping leaves such a body as it is, and
    the title goes in front three times. *)
Definition plainIndexableContent (f : TFile) (content : string) : string :=
  titleOf f ++ " " ++ titleOf f ++ " " ++ titleOf f ++ " " ++ content.

(** A restored leaf that is a number stands for that number. *)
Definition numberLeaf (v : json) : R :=
  match v with JNumber r => r | _ => 0 end.

Definition markdownFile (p name : string) : TFile :=
  {| path := p; basename := name; extension := "md"; mtime := 0 |}.

Definition fileA : TFile := markdownFile "a.md" "a".
Definition fileB : TFile := markdownFile "b.md" "b".
Definition fileC : TFile := markdownFile "c.md" "c".

Definition contentOf (f : TFile) : string :=
  if String.eqb (path f) "a.md" then "apple"
  else if String.eqb (path f) "b.md" then "banana"
  else if String.eqb (path f) "c.md" then "cherry"
  else "".

(** A vault with the given notes and no saved index. *)
Definition vaultOf (files : list TFile) : App :=
  {| vaultEntries := map AFile files;
     cachedRead := contentOf;
     resolvedLinks := [];
     indexFile := Missing |}.

(** A host whose [index.json] parses to [data]. *)
Definition hostWithIndex (data : json) : App :=
  {| vaultEntries := [];
     cachedRead := contentOf;
     resolvedLinks := [];
     indexFile := Parsed data |}.

(** ** States of the index *)

(** Every indexed path has a vector, and every vector an indexed path, in
    the same order. *)
Definition sameKeys (st : EmbeddingEngine) : Prop :=
  JsMap.keys (tfMaps st) = JsMap.keys (tfidfVectors st).

(** The table is the IDF of the TF maps as they are now. *)
Definition freshIdf (st : EmbeddingEngine) : Prop :=
  idf st = computeIDF (JsMap.values (tfMaps st)).

Definition sampleRun : list Operation :=
  [ IndexVault (vaultOf [fileA; fileB]);
    IndexNote (vaultOf [fileA; fileB]) fileA;
    RemoveNote "b.md";
    LoadIndex (vaultOf [fileA]) ].

(** ** Reasons of the digest *)

(** The reason by threshold priority, in the words of the specification. *)
Definition byThresholdPriority (rel decay orphan : R) (why : string) : Prop :=
  (0.3 < rel -> why = reasonRelated)
  /\ (rel <= 0.3 -> 0.8 < decay -> why = reasonLongAgo)
  /\ (rel <= 0.3 -> decay <= 0.8 -> 0.5 < orphan -> why = reasonUnlinked)
  /\ (rel <= 0.3 -> decay <= 0.8 -> orphan <= 0.5 -> why = reasonForgotten).

(** The reason of the fallback: unlinked, or the age in days. *)
Definition byOrphanThenAge (daysSince orphan : R) (why : string) : Prop :=
  (0.5 < orphan -> why = reasonUnlinked)
  /\ (orphan <= 0.5 -> why = reasonNotModified (Math_round daysSince)).

Definition oldNote : TFile :=
  {| path := "old.md"; basename := "old"; extension := "md"; mtime := 0 |}.

(** A vault with one note, modified at time 0, that one other note links to. *)
Definition linkedVault : App :=
  {| vaultEntries := [AFile oldNote];
     cachedRead := contentOf;
     resolvedLinks := [("hub.md", [("old.md", 1%nat)])];
     indexFile := Missing |}.

Definition tenDays : R := 10 * msPerDay.

Definition todayNote : TFile :=
  {| path := "today.md"; basename := "today"; extension := "md"; mtime := tenDays |}.

Definition otherNote : TFile :=
  {| path := "other.md"; basename := "other"; extension := "md"; mtime := 0 |}.

(** The saved index of three notes: two share a term, the third does not. *)
Definition savedIndex : json :=
  JObject
    [ ("tfMaps",
       JObject [ ("today.md", JObject [("apple", JNumber 1)]);
                 ("old.md", JObject [("apple", JNumber 2)]);
                 ("other.md", JObject [("berry", JNumber 1)]) ]);
      ("idf", JObject [("apple", JNumber 1); ("berry", JNumber 1)]) ].

Definition workVault : App :=
  {| vaultEntries := [AFile todayNote; AFile oldNote; AFile otherNote];
     cachedRead := contentOf;
     resolvedLinks := [];
     indexFile := Parsed savedIndex |}.

Definition restored : EmbeddingEngine :=
  fst (loadIndex numberLeaf workVault (newEngine [])).

(** What [getDailyDigest] says about one entry on the path with anchors. *)
Definition anchoredEntry (app : App) (now : R) (r : ResurfacedNote) : Prop :=
  exists sim,
    let rel := relevanceScore sim in
    let decay := timeDecayScore now (mtime (note r)) in
    let orphan := orphanBoost (getBacklinkCount app (note r)) in
    score r = compositeScore rel decay orphan
    /\ byThresholdPriority rel decay orphan (reason r).

(** What [getForgottenNotes] says about one entry. *)
Definition forgottenEntry (app : App) (now : R) (r : ResurfacedNote) : Prop :=
  let decay := timeDecayScore now (mtime (note r)) in
  let orphan := orphanBoost (getBacklinkCount app (note r)) in
  score r = compositeScore 0.3 decay orphan
  /\ byOrphanThenAge (getDaysSinceModified now (note r)) orphan (reason r).

(** Every stored vector has distinct terms and strictly positive entries. *)
Definition positiveVectors (vectors : JsMap (JsMap R)) : Prop :=
  Forall (fun e => JsMap.wf (snd e) /\ Forall (fun t => 0 < snd t) (snd e)) vectors.

(** The three maps of the engine are maps, and the vectors are positive. *)
Definition wellFormed (st : EmbeddingEngine) : Prop :=
  JsMap.wf (tfMaps st) /\ JsMap.wf (tfidfVectors st)
  /\ positiveVectors (tfidfVectors st).

(** The vector with every entry multiplied by [c]. *)
Definition scaled (c : R) (vec : JsMap R) : JsMap R :=
  map (fun e => (fst e, c * snd e)) vec.

(** The two vectors hold [term]. *)
Definition sharedTerm (vecA vecB : JsMap R) (term : string) : Prop :=
  JsMap.has vecA term = true /\ JsMap.has vecB term = true.

(** A ranked entry as a pair of path and similarity. *)
Definition pathAndSimilarity (n : SimilarNote) : string * R :=
  (path (file n), similarity n).

(** How often [term] occurs among [tokens]. *)
Definition occurrences (term : string) (tokens : list string) : nat :=
  count_occ string_dec tokens term.

(** [getIndexableContent]: the title three times in front of the body;
    [stripBody] stands for the chain of replacements that removes the
    front matter and the markdown syntax from the content. *)
Definition getIndexableContentWith (stripBody : string -> string)
    (f : TFile) (content : string) : string :=
  titleOf f ++ " " ++ titleOf f ++ " " ++ titleOf f ++ " " ++ stripBody content.

(** The paths of the files whose lower-cased basename is [name], in the
    order of the files. *)
Definition pathsTitled (lower : string -> string) (name : string)
    (files : list TFile) : list string :=
  map path (filter (fun f => String.eqb (lower (basename f)) name) files).

(** The file lies in one of the folders. *)
Definition inFolders (folders : list string) (f : TFile) : Prop :=
  exists folder, In folder folders /\ prefix (folder ++ "/") (path f) = true.

(** The paths that the map of names holds at [name]. *)
Definition pathsAt (m : JsMap (list string)) (name : string) : list string :=
  match JsMap.get m name with Some l => l | None => [] end.

(** One round of the first loop of [findDuplicateTitles]. *)
Definition nameStep (lower : string -> string) (nameMap : JsMap (list string))
    (f : TFile) : JsMap (list string) :=
  let name := lower (basename f) in
  match JsMap.get nameMap name with
  | Some existing => JsMap.set nameMap name (existing ++ [path f])
  | None => JsMap.set nameMap name [path f]
  end.

(** The broken links that one file adds. *)
Definition brokenOf (fileLinks : TFile -> option (list string))
    (getFirstLinkpathDest : string -> string -> option TFile)
    (f : TFile) : list Health.BrokenLink :=
  match fileLinks f with
  | None => []
  | Some links =>
      flat_map (fun target =>
                  match getFirstLinkpathDest target (path f) with
                  | None => [ {| Health.sourceFile := f; Health.targetPath := target |} ]
                  | Some _ => []
                  end)
               links
  end.

(** The links that one file adds to the total. *)
Definition linkCount (fileLinks : TFile -> option (list string)) (f : TFile) : nat :=
  match fileLinks f with Some links => List.length links | None => 0%nat end.

(** A vault with one note and an [index.json] that parses to an object
    without TF maps. *)
Definition vaultWithBrokenIndex : App :=
  {| vaultEntries := [AFile fileA];
     cachedRead := contentOf;
     resolvedLinks := [];
     indexFile := Parsed (JObject []) |}.

(** The answer of the licence server to a key that was sold and not
    refunded. *)
Definition goodAnswer : License.ApiOutcome :=
  License.Answered 200
    (Some (JObject [("success", JBool true);
                    ("purchase", JObject [("refunded", JBool false);
                                          ("chargebacked", JBool false)])])).

(** What the answer of the licence server must say for the Pro tier. *)
Definition confirmsPurchase (outcome : License.ApiOutcome) : Prop :=
  exists data success,
    outcome = License.Answered 200 (Some data)
    /\ getProperty data "success" = Some success
    /\ License.truthy success = true
    /\ License.truthy
         (License.optionalProperty (License.optionalProperty (Some data) "purchase")
                                   "refunded") = false
    /\ License.truthy
         (License.optionalProperty (License.optionalProperty (Some data) "purchase")
                                   "chargebacked") = false.

(** The notes similar to the anchors, in the order in which the digest
    visits them. *)
Definition anchorMatches (app : App) (st : EmbeddingEngine) (anchors : list TFile)
  : list SimilarNote :=
  flat_map (fun anchor => findSimilar app st anchor 20) anchors.

(** The candidate [c] kept for the path [p] is the best of the matches
    seen: an old enough match of that path, with the largest similarity
    among the old enough matches of that path. *)
Definition bestMatch (now minDaysOld : R) (seen : list SimilarNote) (p : string)
    (c : Candidate) : Prop :=
  path (c_file c) = p
  /\ minDaysOld <= getDaysSinceModified now (c_file c)
  /\ (exists s, In s seen /\ file s = c_file c /\ similarity s = maxSimilarity c)
  /\ forall s', In s' seen -> path (file s') = p ->
       minDaysOld <= getDaysSinceModified now (file s') ->
       similarity s' <= maxSimilarity c.

(** The candidates are the best matches of the notes seen, one for every
    path with an old enough match. *)
Definition candidatesOf (now minDaysOld : R) (seen : list SimilarNote)
    (cm : JsMap Candidate) : Prop :=
  JsMap.wf cm
  /\ (forall p c, JsMap.get cm p = Some c -> bestMatch now minDaysOld seen p c)
  /\ forall s, In s seen -> minDaysOld <= getDaysSinceModified now (file s) ->
       JsMap.get cm (path (file s)) <> None.

(** No key of the map is an array index. *)
Definition plainKeys {V : Type} (m : JsMap V) : bool :=
  forallb (fun k => negb (isArrayIndex k)) (JsMap.keys m).

(** The maps of the engine can be written and read back as they are: they
    are maps of maps, and no path and no term is an array index. *)
Definition savable (st : EmbeddingEngine) : Prop :=
  JsMap.wf (tfMaps st) /\ JsMap.wf (idf st)
  /\ Forall (fun e => JsMap.wf (snd e)) (tfMaps st)
  /\ plainKeys (tfMaps st) = true /\ plainKeys (idf st) = true
  /\ forallb plainKeys (JsMap.values (tfMaps st)) = true.

(** A host whose [index.json] is what [saveIndex] wrote for [st]. *)
Definition hostAfterSave (app : App) (st : EmbeddingEngine) (now : R) : App :=
  {| vaultEntries := vaultEntries app;
     cachedRead := cachedRead app;
     resolvedLinks := resolvedLinks app;
     indexFile := Parsed (saveIndex st now) |}.

(* ================================================================== *)
(** * Properties *)

(* ================================================================== *)
(** ** The tokenizer on examples *)

Example tokenize_sentence :
  tokenize "The 3 quick-brown foxes, running in 2024!"
  = ["quick"; "brown"; "fox"; "runn"].
Proof. reflexivity. Qed.

Example tokenize_blank : tokenize "  " = [].
Proof. reflexivity. Qed.

Example splitWhitespace_edges :
  splitWhitespace " a  b " = [""; "a"; "b"; ""] /\ splitWhitespace "" = [""].
Proof. split; reflexivity. Qed.

Example simpleStem_short : simpleStem "cats" = "cats".
Proof. reflexivity. Qed.

Example simpleStem_plural : simpleStem "books" = "book".
Proof. reflexivity. Qed.

Example simpleStem_es : simpleStem "apples" = "appl".
Proof. reflexivity. Qed.

Example simpleStem_twice :
  simpleStem "carefully" = "careful" /\ simpleStem "careful" = "care".
Proof. split; reflexivity. Qed.

(* ================================================================== *)
(** ** Characters and strings *)

Ltac each_ascii c := destruct c as [[] [] [] [] [] [] [] []].

Lemma tokenChar_facts (c : ascii) :
  tokenChar c = true ->
  isSpace c = false /\ isDigit c = false /\ lowerChar c = c /\ blankPunct c = c.
Proof. each_ascii c; intro H; (discriminate H || (repeat split; reflexivity)). Qed.

Lemma space_char_facts :
  isSpace " " = true /\ isDigit " " = false /\ lowerChar " " = " "%char
  /\ blankPunct " " = " "%char.
Proof. repeat split; reflexivity. Qed.

(** After lower-casing and blanking, a character is a digit, white space or
    a token character. *)
Lemma normalised_char (c : ascii) :
  let c' := blankPunct (lowerChar c) in
  isDigit c' = true \/ isSpace c' = true \/ tokenChar c' = true.
Proof.
  each_ascii c; cbv zeta;
    first [ left; reflexivity | right; left; reflexivity | right; right; reflexivity ].
Qed.

Lemma digit_not_token (c : ascii) : isDigit c = true -> tokenChar c = false.
Proof. unfold tokenChar. intros ->. rewrite andb_false_r. reflexivity. Qed.

Lemma allChars_app p s1 s2 :
  allChars p (s1 ++ s2) = allChars p s1 && allChars p s2.
Proof.
  induction s1 as [|c s1 IH]; simpl; [reflexivity|].
  rewrite IH, andb_assoc. reflexivity.
Qed.

Lemma allChars_weaken (p q : ascii -> bool) s :
  (forall c, p c = true -> q c = true) -> allChars p s = true -> allChars q s = true.
Proof.
  intro Hpq. induction s as [|c s IH]; simpl; [reflexivity|].
  intro H. apply andb_true_iff in H as [Hc Hs].
  rewrite (Hpq _ Hc), (IH Hs). reflexivity.
Qed.

Lemma allChars_substring p s : forall n m,
  allChars p s = true -> allChars p (substring n m s) = true.
Proof.
  induction s as [|c s IH]; intros n m H.
  - destruct n, m; reflexivity.
  - simpl in H. apply andb_true_iff in H as [Hc Hs].
    destruct n as [|n]; simpl.
    + destruct m as [|m]; simpl; [reflexivity|].
      rewrite Hc. simpl. apply (IH 0%nat m Hs).
    + apply IH, Hs.
Qed.

Lemma length_substring_prefix s : forall n,
  (n <= String.length s)%nat -> String.length (substring 0 n s) = n.
Proof.
  induction s as [|c s IH]; intros [|n] H; simpl in *; try reflexivity; try lia.
  rewrite IH; [reflexivity | lia].
Qed.

(** *** The pieces of a normalised text *)

Lemma normalised_text (text : string) : forall inRun,
  allChars spaceOrToken
    (removeNumbersFrom inRun (removePunctuation (toLowerCase text))) = true.
Proof.
  induction text as [|c text IH]; intro inRun; [reflexivity|].
  unfold removePunctuation, toLowerCase in *. cbn [mapString removeNumbersFrom].
  destruct (normalised_char c) as [Hd | [Hs | Ht]]; cbv zeta in *.
  - rewrite Hd. destruct inRun; cbn [allChars]; rewrite ?IH; reflexivity.
  - destruct (isDigit _) eqn:Hd.
    + destruct inRun; cbn [allChars]; rewrite ?IH; reflexivity.
    + cbn [allChars]. unfold spaceOrToken at 1. rewrite Hs, IH. reflexivity.
  - destruct (tokenChar_facts _ Ht) as (_ & Hd & _). rewrite Hd.
    cbn [allChars]. unfold spaceOrToken at 1. rewrite Ht, orb_true_r, IH.
    reflexivity.
Qed.

Lemma splitFrom_pieces (s : string) : forall inRun,
  allChars spaceOrToken s = true ->
  Forall (fun p => allChars tokenChar p = true) (splitFrom inRun s).
Proof.
  induction s as [|c s IH]; intros inRun H; cbn [splitFrom].
  - repeat constructor.
  - cbn [allChars] in H. apply andb_true_iff in H as [Hc Hs].
    destruct (isSpace c) eqn:Hsp.
    + destruct inRun; [apply IH, Hs | constructor; [reflexivity | apply IH, Hs]].
    + unfold spaceOrToken in Hc. rewrite Hsp in Hc. simpl in Hc.
      specialize (IH false Hs).
      destruct (splitFrom false s) as [|p rest]; cbn [consHead].
      * constructor; [cbn; rewrite Hc; reflexivity | constructor].
      * inversion IH as [|? ? Hp Hrest]; subst.
        constructor; [cbn [allChars]; rewrite Hc, Hp; reflexivity | exact Hrest].
Qed.

(** *** The stemmer returns a prefix of at least three characters *)

Lemma stripSuffix_prefix word : forall sfx stem,
  stripSuffix word sfx = Some stem ->
  exists n, (3 <= n <= String.length word)%nat /\ stem = substring 0 n word.
Proof.
  induction sfx as [|suffix rest IH]; intros stem H; cbn [stripSuffix] in H.
  - discriminate.
  - destruct (endsWith word suffix && _) eqn:E.
    + injection H as <-. apply andb_true_iff in E as [_ E].
      apply Nat.leb_le in E.
      exists (String.length word - String.length suffix)%nat.
      split; [lia | reflexivity].
    + apply IH, H.
Qed.

Lemma simpleStem_prefix (word : string) :
  simpleStem word = word \/
  exists n, (3 <= n <= String.length word)%nat /\ simpleStem word = substring 0 n word.
Proof.
  unfold simpleStem.
  destruct (String.length word <=? 4)%nat eqn:Hlen; [left; reflexivity|].
  apply Nat.leb_gt in Hlen.
  destruct (stripSuffix word suffixes) as [stem|] eqn:Hs.
  - right. destruct (stripSuffix_prefix _ _ _ Hs) as (n & Hn & ->).
    exists n. split; [exact Hn | reflexivity].
  - destruct (endsWith word "s" && _ && _).
    + right. exists (String.length word - 1)%nat. split; [lia | reflexivity].
    + left; reflexivity.
Qed.

Lemma simpleStem_chars p word :
  allChars p word = true -> allChars p (simpleStem word) = true.
Proof.
  intro H. destruct (simpleStem_prefix word) as [-> | (n & _ & ->)];
    [exact H | apply allChars_substring, H].
Qed.

Lemma simpleStem_length word :
  (3 <= String.length word)%nat -> (3 <= String.length (simpleStem word))%nat.
Proof.
  intro H. destruct (simpleStem_prefix word) as [-> | (n & Hn & ->)]; [exact H|].
  rewrite length_substring_prefix; lia.
Qed.

(** Every token that [tokenize] returns is made of token characters and is
    at least three characters long. *)
Lemma tokenize_tokens (text : string) :
  Forall (fun t => allChars tokenChar t = true /\ (3 <= String.length t)%nat)
         (tokenize text).
Proof.
  unfold tokenize, splitWhitespace, removeNumbers.
  apply Forall_map, Forall_forall. intros t Ht.
  apply filter_In in Ht as [Hin Hkeep].
  pose proof (splitFrom_pieces _ false (normalised_text text false)) as Hp.
  rewrite Forall_forall in Hp. specialize (Hp _ Hin). cbv beta in Hp.
  unfold keepToken in Hkeep. apply andb_true_iff in Hkeep as [Hl _].
  apply Nat.ltb_lt in Hl.
  split; [apply simpleStem_chars, Hp | apply simpleStem_length; lia].
Qed.

(** *** Splitting a joined token sequence *)

Lemma mapString_fixed (f : ascii -> ascii) (p : ascii -> bool) s :
  (forall c, p c = true -> f c = c) -> allChars p s = true -> mapString f s = s.
Proof.
  intro Hf. induction s as [|c s IH]; cbn; [reflexivity|].
  intro H. apply andb_true_iff in H as [Hc Hs]. rewrite (Hf _ Hc), (IH Hs).
  reflexivity.
Qed.

Lemma removeNumbersFrom_fixed s : forall inRun,
  allChars (fun c => negb (isDigit c)) s = true -> removeNumbersFrom inRun s = s.
Proof.
  induction s as [|c s IH]; intros inRun H; cbn; [reflexivity|].
  cbn in H. apply andb_true_iff in H as [Hc Hs].
  apply negb_true_iff in Hc. rewrite Hc, (IH false Hs). reflexivity.
Qed.

Lemma append_empty_r (s : string) : (s ++ "")%string = s.
Proof. induction s as [|c s IH]; cbn; [reflexivity | rewrite IH; reflexivity]. Qed.

Lemma splitFrom_token (t : string) : forall c rest inRun,
  allChars tokenChar (String c t) = true ->
  splitFrom inRun (String c t ++ rest) = appendHead (String c t) (splitFrom false rest).
Proof.
  induction t as [|c' t IH]; intros c rest inRun H;
    cbn [allChars] in H; apply andb_true_iff in H as [Hc Ht];
    destruct (tokenChar_facts _ Hc) as (Hsp & _).
  - cbn [append splitFrom]. rewrite Hsp.
    destruct (splitFrom false rest); reflexivity.
  - change (String c (String c' t) ++ rest)%string
      with (String c (String c' t ++ rest)).
    cbn [splitFrom]. rewrite Hsp. rewrite (IH c' rest false Ht).
    destruct (splitFrom false rest); reflexivity.
Qed.

Lemma splitFrom_join (ts : list string) : forall t inRun,
  Forall isToken (t :: ts) ->
  splitFrom inRun (joinTokens (t :: ts)) = t :: ts.
Proof.
  induction ts as [|t2 ts IH]; intros t inRun H; inversion H as [|? ? [Hc Hl] Hts]; subst.
  - cbn [joinTokens String.concat].
    destruct t as [|c t]; [cbn in Hl; lia|].
    rewrite <- (append_empty_r (String c t)) at 1.
    rewrite splitFrom_token by exact Hc. cbn [splitFrom appendHead].
    rewrite append_empty_r. reflexivity.
  - change (joinTokens (t :: t2 :: ts))
      with (t ++ String " " (joinTokens (t2 :: ts)))%string.
    destruct t as [|c t]; [cbn in Hl; lia|].
    rewrite splitFrom_token by exact Hc.
    cbn [splitFrom]. change (isSpace " ") with true. cbv iota.
    rewrite (IH t2 true Hts). cbn [appendHead]. rewrite append_empty_r. reflexivity.
Qed.

Lemma joinTokens_chars (ts : list string) :
  Forall isToken ts ->
  allChars (fun c => tokenChar c || Ascii.eqb c " ") (joinTokens ts) = true.
Proof.
  induction ts as [|t ts IH]; intro H; [reflexivity|].
  inversion H as [|? ? [Hc _] Hts]; subst. specialize (IH Hts).
  assert (Ht : allChars (fun c => tokenChar c || Ascii.eqb c " ") t = true).
  { eapply allChars_weaken; [|exact Hc]. intros c ->. reflexivity. }
  destruct ts as [|t2 ts]; [exact Ht|].
  change (joinTokens (t :: t2 :: ts))
    with (t ++ String " " (joinTokens (t2 :: ts)))%string.
  rewrite allChars_app, Ht. cbn [allChars andb]. rewrite IH. reflexivity.
Qed.

Lemma joined_char_facts (c : ascii) :
  tokenChar c || Ascii.eqb c " " = true ->
  lowerChar c = c /\ blankPunct c = c /\ negb (isDigit c) = true.
Proof.
  intro H. apply orb_true_iff in H as [H | H].
  - destruct (tokenChar_facts _ H) as (_ & Hd & Hl & Hb). rewrite Hd. auto.
  - apply Ascii.eqb_eq in H. subst c. repeat split; reflexivity.
Qed.

(** A sequence of tokens that pass the filter and that the stemmer leaves
    alone comes back from [tokenize] as it is. *)
Lemma tokenize_joinTokens (ts : list string) :
  Forall isToken ts ->
  Forall (fun t => isStopWord t = false /\ simpleStem t = t) ts ->
  tokenize (joinTokens ts) = ts.
Proof.
  intros Htok Hfix. unfold tokenize.
  pose proof (joinTokens_chars ts Htok) as Hchars.
  unfold toLowerCase, removePunctuation, removeNumbers.
  rewrite (mapString_fixed lowerChar _ _ (fun c H => proj1 (joined_char_facts c H)) Hchars).
  rewrite (mapString_fixed blankPunct _ _
             (fun c H => proj1 (proj2 (joined_char_facts c H))) Hchars).
  rewrite removeNumbersFrom_fixed
    by (eapply allChars_weaken; [|exact Hchars]; intros c H; apply joined_char_facts, H).
  destruct ts as [|t ts]; [reflexivity|].
  unfold splitWhitespace. rewrite (splitFrom_join ts t false Htok).
  assert (Hkeep : filter keepToken (t :: ts) = t :: ts).
  { apply forallb_filter_id. apply forallb_forall. intros x Hx.
    rewrite Forall_forall in Htok, Hfix.
    destruct (Htok _ Hx) as [_ Hl]. destruct (Hfix _ Hx) as [Hs _].
    unfold keepToken. rewrite Hs. apply andb_true_iff. split; [|reflexivity].
    apply Nat.ltb_lt. lia. }
  rewrite Hkeep.
  rewrite <- (map_id (t :: ts)) at 2. apply map_ext_in.
  intros x Hx. rewrite Forall_forall in Hfix. apply (Hfix _ Hx).
Qed.

(** C9, as stated, fails: the stemmer strips one suffix per call, so a stem
    can lose a second suffix when it is tokenized again. *)
Lemma tokenize_not_idempotent :
  tokenize (joinTokens (tokenize "walking carefully"))
  <> tokenize "walking carefully".
Proof. vm_compute. discriminate. Qed.

(** C9, amended: for every input text whose tokens are stable under the
    stemmer and are not stop words, joining the tokens of [tokenize] with
    spaces and tokenizing again yields the same token sequence. *)
Theorem tokenize_idempotent_on_stable_tokens (text : string) :
  Forall (fun t => isStopWord t = false /\ simpleStem t = t) (tokenize text) ->
  tokenize (joinTokens (tokenize text)) = tokenize text.
Proof.
  intro H. apply tokenize_joinTokens; [apply tokenize_tokens | exact H].
Qed.

Lemma tokenize_idempotent_on_stable_tokens_witness :
  tokenize (joinTokens (tokenize "Quick-brown foxes; the 3 lazy dogs!"))
  = tokenize "Quick-brown foxes; the 3 lazy dogs!".
Proof.
  apply (tokenize_idempotent_on_stable_tokens "Quick-brown foxes; the 3 lazy dogs!").
  vm_compute. repeat constructor.
Defined.

(* ================================================================== *)
(** ** Maps *)

Section MapFacts.
Context {V : Type}.
Implicit Types (m : JsMap V) (k : string) (v : V).

Lemma get_set_same m k v : JsMap.get (JsMap.set m k v) k = Some v.
Proof.
  induction m as [|[k' v'] m IH]; cbn.
  - rewrite String.eqb_refl. reflexivity.
  - destruct (String.eqb k' k) eqn:E; cbn; rewrite E; [reflexivity | exact IH].
Qed.

Lemma get_set_other m k k' v :
  k' <> k -> JsMap.get (JsMap.set m k v) k' = JsMap.get m k'.
Proof.
  intro Hne. induction m as [|[k0 v0] m IH]; cbn.
  - destruct (String.eqb k k') eqn:E; [apply String.eqb_eq in E; congruence | reflexivity].
  - destruct (String.eqb k0 k) eqn:E; cbn.
    + apply String.eqb_eq in E. subst k0.
      destruct (String.eqb k k') eqn:E'; [|reflexivity].
      apply String.eqb_eq in E'. congruence.
    + rewrite IH. reflexivity.
Qed.

Lemma get_None_keys m k : JsMap.get m k = None <-> ~ In k (JsMap.keys m).
Proof.
  induction m as [|[k' v'] m IH]; cbn; [tauto|].
  destruct (String.eqb k' k) eqn:E.
  - apply String.eqb_eq in E. split; [discriminate | intros H; exfalso; apply H; auto].
  - apply String.eqb_neq in E. rewrite IH. tauto.
Qed.

Lemma get_Some_keys m k v : JsMap.get m k = Some v -> In k (JsMap.keys m).
Proof.
  intro H. destruct (in_dec string_dec k (JsMap.keys m)) as [Hin | Hn]; [exact Hin|].
  apply get_None_keys in Hn. congruence.
Qed.

Lemma get_Some_In m k v : JsMap.get m k = Some v -> In (k, v) m.
Proof.
  induction m as [|[k' v'] m IH]; cbn; [discriminate|].
  destruct (String.eqb k' k) eqn:E.
  - apply String.eqb_eq in E. intros [= ->]. left. congruence.
  - intro H. right. apply IH, H.
Qed.

Lemma In_get_wf m k v : JsMap.wf m -> In (k, v) m -> JsMap.get m k = Some v.
Proof.
  unfold JsMap.wf. induction m as [|[k' v'] m IH]; cbn; [tauto|].
  intros Hnd [H | H]; inversion Hnd as [|? ? Hnotin Hnd']; subst.
  - injection H as -> ->. rewrite String.eqb_refl. reflexivity.
  - destruct (String.eqb k' k) eqn:E.
    + apply String.eqb_eq in E. subst k'. exfalso. apply Hnotin.
      change k with (fst (k, v)). apply in_map, H.
    + apply IH; assumption.
Qed.

(** The keys after [set]: unchanged for a key of the map, one more at the
    end otherwise. *)
Lemma keys_set m k v :
  JsMap.keys (JsMap.set m k v)
  = if JsMap.has m k then JsMap.keys m else JsMap.keys m ++ [k].
Proof.
  unfold JsMap.has, JsMap.keys.
  induction m as [|[k' v'] m IH]; cbn; [reflexivity|].
  destruct (String.eqb k' k) eqn:E; cbn; [reflexivity|].
  rewrite IH. destruct (JsMap.get m k); reflexivity.
Qed.

Lemma has_true_keys m k : JsMap.has m k = true <-> In k (JsMap.keys m).
Proof.
  unfold JsMap.has. destruct (JsMap.get m k) eqn:E.
  - split; [intros _; eapply get_Some_keys, E | reflexivity].
  - apply get_None_keys in E. split; [discriminate | tauto].
Qed.

Lemma wf_set m k v : JsMap.wf m -> JsMap.wf (JsMap.set m k v).
Proof.
  unfold JsMap.wf. intro H. rewrite keys_set.
  destruct (JsMap.has m k) eqn:E; [exact H|].
  apply NoDup_app; [exact H | repeat constructor; cbn; tauto|].
  intros x Hx [<- | []]. apply has_true_keys in Hx. congruence.
Qed.

Lemma in_keys_set m k v k' :
  In k' (JsMap.keys (JsMap.set m k v)) <-> k' = k \/ In k' (JsMap.keys m).
Proof.
  rewrite keys_set. destruct (JsMap.has m k) eqn:E.
  - apply has_true_keys in E. split; [tauto | intros [-> | H]; assumption].
  - rewrite in_app_iff. cbn. intuition congruence.
Qed.

Lemma keys_delete m k :
  JsMap.keys (JsMap.delete m k)
  = filter (fun k' => negb (String.eqb k' k)) (JsMap.keys m).
Proof.
  unfold JsMap.delete, JsMap.keys.
  induction m as [|[k' v'] m IH]; cbn; [reflexivity|].
  destruct (String.eqb k' k); cbn; rewrite IH; reflexivity.
Qed.

Lemma wf_delete m k : JsMap.wf m -> JsMap.wf (JsMap.delete m k).
Proof. unfold JsMap.wf. rewrite keys_delete. apply NoDup_filter. Qed.

Lemma get_delete_same m k : JsMap.get (JsMap.delete m k) k = None.
Proof.
  apply get_None_keys. rewrite keys_delete. intro H.
  apply filter_In in H as [_ H]. rewrite String.eqb_refl in H. discriminate.
Qed.

Lemma set_app_fresh m1 m2 k v :
  ~ In k (JsMap.keys m1) -> JsMap.set (m1 ++ m2) k v = m1 ++ JsMap.set m2 k v.
Proof.
  induction m1 as [|[k' v'] m1 IH]; cbn; [reflexivity|].
  intro H. destruct (String.eqb k' k) eqn:E.
  - apply String.eqb_eq in E. tauto.
  - rewrite IH by tauto. reflexivity.
Qed.

Lemma wf_nil : JsMap.wf (@nil (string * V)).
Proof. constructor. Qed.
End MapFacts.

Lemma keys_map_values {V W : Type} (f : string -> V -> W) (m : JsMap V) :
  JsMap.keys (map (fun '(k, v) => (k, f k v)) m) = JsMap.keys m.
Proof.
  unfold JsMap.keys. rewrite map_map. apply map_ext. intros [k v]. reflexivity.
Qed.

(** A loop that overwrites every entry of a map in turn, as the second loop
    of [computeTF] does, maps the values and keeps the order. *)
Lemma overwrite_loop {V : Type} (f : string -> V -> V) (todo : JsMap V) :
  forall done : JsMap V,
  JsMap.wf (done ++ todo) ->
  fold_left (fun m '(k, v) => JsMap.set m k (f k v)) todo
            (map (fun '(k, v) => (k, f k v)) done ++ todo)
  = map (fun '(k, v) => (k, f k v)) (done ++ todo).
Proof.
  induction todo as [|[k v] todo IH]; intros done Hwf; cbn [fold_left].
  - rewrite !app_nil_r. reflexivity.
  - assert (Hfresh : ~ In k (JsMap.keys (map (fun '(k, v) => (k, f k v)) done))).
    { rewrite keys_map_values. unfold JsMap.wf, JsMap.keys in Hwf.
      rewrite map_app in Hwf. cbn in Hwf. apply NoDup_remove_2 in Hwf.
      intro Hin. apply Hwf, in_or_app. left. exact Hin. }
    rewrite set_app_fresh by exact Hfresh.
    cbn [JsMap.set]. rewrite String.eqb_refl.
    specialize (IH (done ++ [(k, v)])).
    rewrite <- !app_assoc in IH. cbn [app] in IH.
    rewrite map_app in IH. cbn [map] in IH. rewrite <- app_assoc in IH.
    apply IH. exact Hwf.
Qed.

(* ================================================================== *)
(** ** Term frequencies *)

Lemma sumValues_set (m : JsMap R) k v :
  sumValues (JsMap.set m k v) = sumValues m - orZero (JsMap.get m k) + v.
Proof.
  unfold sumValues, JsMap.values.
  induction m as [|[k' v'] m IH]; cbn.
  - lra.
  - destruct (String.eqb k' k); cbn; [lra | rewrite IH; lra].
Qed.

Lemma sumValues_increment (m : JsMap R) term :
  sumValues (increment m term) = sumValues m + 1.
Proof. unfold increment. rewrite sumValues_set. lra. Qed.

Lemma sumValues_counts (tokens : list string) : forall m,
  sumValues (fold_left increment tokens m) = sumValues m + INR (List.length tokens).
Proof.
  induction tokens as [|t tokens IH]; intro m.
  - cbn [fold_left List.length INR]. lra.
  - cbn [fold_left]. rewrite IH, sumValues_increment.
    change (List.length (t :: tokens)) with (S (List.length tokens)).
    rewrite S_INR. lra.
Qed.

Lemma wf_counts (terms : list string) : forall m : JsMap R,
  JsMap.wf m -> JsMap.wf (fold_left increment terms m).
Proof.
  induction terms as [|t terms IH]; intros m H; [exact H|].
  cbn [fold_left]. apply IH. unfold increment. apply wf_set, H.
Qed.

(** Every count is at least one. *)
Lemma counts_positive (terms : list string) : forall m : JsMap R,
  Forall (fun e => 1 <= snd e) m ->
  Forall (fun e => 1 <= snd e) (fold_left increment terms m).
Proof.
  assert (Hset : forall (m : JsMap R) k v,
             1 <= v -> Forall (fun e => 1 <= snd e) m ->
             Forall (fun e => 1 <= snd e) (JsMap.set m k v)).
  { intros m k v Hv. induction m as [|[k' v'] m IHm]; intro H; cbn.
    - constructor; [exact Hv | constructor].
    - inversion H; subst. destruct (String.eqb k' k); constructor; auto. }
  induction terms as [|t terms IH]; intros m H; [exact H|].
  cbn [fold_left]. apply IH. unfold increment. apply Hset; [|exact H].
  destruct (JsMap.get m t) as [v|] eqn:E; cbn; [|lra].
  apply get_Some_In in E. rewrite Forall_forall in H. specialize (H _ E). cbn in H. lra.
Qed.

(** [computeTF] of at least one token: every count divided by the total,
    in the order of first occurrence. *)
Lemma computeTF_entries (tokens : list string) :
  tokens <> [] ->
  computeTF tokens
  = map (fun '(term, count) => (term, count / INR (List.length tokens)))
        (fold_left increment tokens []).
Proof.
  intro Hne. unfold computeTF.
  destruct tokens as [|t tokens]; [congruence|].
  change (List.length (t :: tokens) =? 0)%nat with false. cbv iota zeta.
  set (counts := fold_left increment (t :: tokens) []).
  set (total := INR (List.length (t :: tokens))).
  apply (overwrite_loop (fun _ count => count / total) counts []).
  apply wf_counts, wf_nil.
Qed.

Lemma computeTF_nil : computeTF [] = [].
Proof. reflexivity. Qed.

Lemma computeTF_wf (tokens : list string) : JsMap.wf (computeTF tokens).
Proof.
  destruct tokens as [|t tokens]; [apply wf_nil|].
  rewrite computeTF_entries by discriminate.
  unfold JsMap.wf. rewrite (keys_map_values (fun _ c => c / _)).
  apply wf_counts, wf_nil.
Qed.

(** A stored frequency is strictly positive. *)
Lemma computeTF_positive (tokens : list string) :
  Forall (fun e => 0 < snd e) (computeTF tokens).
Proof.
  destruct tokens as [|t tokens]; [constructor|].
  rewrite computeTF_entries by discriminate.
  apply Forall_map.
  eapply Forall_impl; [|apply (counts_positive (t :: tokens) []); constructor].
  intros [term count] H. cbn [snd] in *.
  apply Rdiv_lt_0_compat; [lra|]. apply lt_0_INR. cbn [List.length]. lia.
Qed.

Lemma sumValues_scaled (m : JsMap R) (d : R) :
  sumValues (map (fun '(term, count) => (term, count / d)) m) = sumValues m / d.
Proof.
  unfold sumValues, JsMap.values.
  induction m as [|[k v] m IH]; cbn.
  - unfold Rdiv. lra.
  - rewrite IH. unfold Rdiv. lra.
Qed.

Lemma computeTF_sum (tokens : list string) :
  tokens <> [] -> sumValues (computeTF tokens) = 1.
Proof.
  intro Hne. rewrite computeTF_entries by exact Hne.
  rewrite sumValues_scaled, sumValues_counts.
  change (sumValues []) with 0. rewrite Rplus_0_l.
  apply Rdiv_diag. apply not_0_INR.
  destruct tokens; [congruence | discriminate].
Qed.

(** C8, as stated, fails: a text can be non-empty and still have no token,
    and [computeTF] guards the division with [total === 0]. *)
Lemma computeTF_stopword_text_sums_to_zero :
  "the" <> "" /\ sumValues (computeTF (tokenize "the")) <> 1.
Proof.
  split; [discriminate|].
  change (tokenize "the") with (@nil string). rewrite computeTF_nil.
  unfold sumValues. cbn. lra.
Qed.

(** C8, amended: for every document text with at least one token, the
    values of [computeTF(tokenize(D))] sum to 1; each stored frequency is
    its count divided by the number of tokens. *)
Theorem computeTF_tokenize_sums_to_one (D : string) :
  tokenize D <> [] ->
  sumValues (computeTF (tokenize D)) = 1
  /\ computeTF (tokenize D)
     = map (fun '(term, count) => (term, count / INR (List.length (tokenize D))))
           (fold_left increment (tokenize D) []).
Proof.
  intro H. split; [apply computeTF_sum, H | apply computeTF_entries, H].
Qed.

Lemma computeTF_tokenize_sums_to_one_witness :
  sumValues (computeTF (tokenize "apple banana apple")) = 1
  /\ computeTF (tokenize "apple banana apple")
     = map (fun '(term, count) =>
              (term, count / INR (List.length (tokenize "apple banana apple"))))
           (fold_left increment (tokenize "apple banana apple") []).
Proof.
  apply (computeTF_tokenize_sums_to_one "apple banana apple").
  change (tokenize "apple banana apple") with ["apple"; "banana"; "apple"].
  discriminate.
Defined.

(* ================================================================== *)
(** ** Comparisons *)

Lemma Rgtb_true x y : Rgtb x y = true <-> y < x.
Proof. unfold Rgtb. destruct (Rlt_dec y x); split; (assumption || discriminate || reflexivity || tauto). Qed.

Lemma Rgtb_false x y : Rgtb x y = false <-> x <= y.
Proof.
  unfold Rgtb. destruct (Rlt_dec y x); split; try discriminate; try reflexivity; lra.
Qed.

Lemma Rltb_true x y : Rltb x y = true <-> x < y.
Proof. unfold Rltb. destruct (Rlt_dec x y); split; (assumption || discriminate || reflexivity || tauto). Qed.

Lemma Rltb_false x y : Rltb x y = false <-> y <= x.
Proof.
  unfold Rltb. destruct (Rlt_dec x y); split; try discriminate; try reflexivity; lra.
Qed.

Lemma Rgeb_true x y : Rgeb x y = true <-> y <= x.
Proof. unfold Rgeb. destruct (Rle_dec y x); split; (assumption || discriminate || reflexivity || tauto). Qed.

Lemma Reqb_true x y : Reqb x y = true <-> x = y.
Proof. unfold Reqb. destruct (Req_dec_T x y); split; (assumption || discriminate || reflexivity || tauto). Qed.

Lemma Reqb_false x y : Reqb x y = false <-> x <> y.
Proof. unfold Reqb. destruct (Req_dec_T x y); split; (assumption || discriminate || reflexivity || tauto). Qed.

(* ================================================================== *)
(** ** Loops that fill a map *)

Lemma set_fresh {V : Type} (m : JsMap V) k v :
  ~ In k (JsMap.keys m) -> JsMap.set m k v = m ++ [(k, v)].
Proof.
  intro H. rewrite <- (app_nil_r m) at 1. rewrite set_app_fresh by exact H.
  reflexivity.
Qed.

(** A loop that sets, into [acc], one value per entry of a map yields the
    entries of [acc], then the entries of the map with the new values. *)
Lemma build_loop {V W : Type} (f : string -> V -> W) (src : JsMap V) :
  forall acc : JsMap W,
  JsMap.wf src ->
  (forall k, In k (JsMap.keys src) -> ~ In k (JsMap.keys acc)) ->
  fold_left (fun m '(k, v) => JsMap.set m k (f k v)) src acc
  = acc ++ map (fun '(k, v) => (k, f k v)) src.
Proof.
  induction src as [|[k v] src IH]; intros acc Hwf Hdisj; cbn [fold_left map].
  - rewrite app_nil_r. reflexivity.
  - unfold JsMap.wf in Hwf. cbn in Hwf. inversion Hwf as [|? ? Hk Hwf']; subst.
    rewrite set_fresh by (apply Hdisj; left; reflexivity).
    rewrite IH; [rewrite <- app_assoc; reflexivity | exact Hwf' |].
    intros k' Hk' Hin. unfold JsMap.keys in Hin. rewrite map_app in Hin.
    apply in_app_or in Hin as [Hin | [<- | []]].
    + apply (Hdisj k'); [right; exact Hk' | exact Hin].
    + apply Hk, Hk'.
Qed.

Lemma get_map_values {V W : Type} (f : string -> V -> W) (m : JsMap V) k :
  JsMap.get (map (fun '(k, v) => (k, f k v)) m) k = option_map (f k) (JsMap.get m k).
Proof.
  induction m as [|[k' v'] m IH]; cbn; [reflexivity|].
  destruct (String.eqb k' k) eqn:E; [|exact IH].
  apply String.eqb_eq in E. subst. reflexivity.
Qed.

Lemma newMap_wf_entries {V : Type} (entries : list (string * V)) :
  JsMap.wf entries -> newMap entries = entries.
Proof.
  intro H. unfold newMap.
  rewrite (build_loop (fun _ v => v) entries [] H) by (intros; cbn; tauto).
  cbn [app]. rewrite <- (map_id entries) at 2. apply map_ext. intros [k v]. reflexivity.
Qed.

Lemma rebuildVectors_entries (tfs : JsMap (JsMap R)) (idfTable : JsMap R) :
  JsMap.wf tfs ->
  rebuildVectors tfs idfTable
  = map (fun '(p, tf) => (p, computeTFIDF tf idfTable)) tfs.
Proof.
  intro H. unfold rebuildVectors.
  apply (build_loop (fun _ tf => computeTFIDF tf idfTable) tfs [] H).
  intros; cbn; tauto.
Qed.

(** Whatever the maps, a loop of [set]s keeps the map a [Map], and its keys
    are those of the accumulator and of the source. *)
Lemma set_loop_wf {V W : Type} (f : string -> V -> W) (src : list (string * V)) :
  forall acc : JsMap W,
  JsMap.wf acc ->
  JsMap.wf (fold_left (fun m '(k, v) => JsMap.set m k (f k v)) src acc).
Proof.
  induction src as [|[k v] src IH]; intros acc H; [exact H|].
  cbn [fold_left]. apply IH, wf_set, H.
Qed.

(* ================================================================== *)
(** ** Inverse document frequencies *)

Lemma memb_has {V : Type} (m : JsMap V) term :
  memb term (JsMap.keys m) = JsMap.has m term.
Proof.
  unfold memb. destruct (JsMap.has m term) eqn:E.
  - apply has_true_keys in E. apply existsb_exists. exists term.
    split; [exact E | apply String.eqb_refl].
  - apply not_true_iff_false. intro H. apply existsb_exists in H as (x & Hx & Hxe).
    apply String.eqb_eq in Hxe. subst x. apply has_true_keys in Hx. congruence.
Qed.

Lemma get_increment (m : JsMap R) t t' :
  orZero (JsMap.get (increment m t) t')
  = orZero (JsMap.get m t') + (if String.eqb t' t then 1 else 0).
Proof.
  unfold increment. destruct (String.eqb t' t) eqn:E.
  - apply String.eqb_eq in E. subst. rewrite get_set_same. reflexivity.
  - apply String.eqb_neq in E. rewrite get_set_other by exact E. lra.
Qed.

Lemma get_increment_keys (terms : list string) t : forall m : JsMap R,
  NoDup terms ->
  orZero (JsMap.get (fold_left increment terms m) t)
  = orZero (JsMap.get m t) + (if memb t terms then 1 else 0).
Proof.
  induction terms as [|t' terms IH]; intros m Hnd; cbn [fold_left].
  - cbn. lra.
  - inversion Hnd as [|? ? Hnotin Hnd']; subst.
    rewrite IH by exact Hnd'. rewrite get_increment.
    unfold memb. cbn [existsb]. fold (memb t terms).
    destruct (String.eqb t t') eqn:E; cbn [orb]; [|lra].
    apply String.eqb_eq in E. subst t'.
    assert (Hm : memb t terms = false).
    { apply not_true_iff_false. intro H. apply existsb_exists in H as (x & Hx & Hxe).
      apply String.eqb_eq in Hxe. subst x. tauto. }
    rewrite Hm. lra.
Qed.

Lemma get_frequencies (documents : list (JsMap R)) t : forall df : JsMap R,
  Forall JsMap.wf documents ->
  orZero (JsMap.get
            (fold_left (fun df doc => fold_left increment (JsMap.keys doc) df)
                       documents df) t)
  = orZero (JsMap.get df t) + INR (docCount t documents).
Proof.
  induction documents as [|doc documents IH]; intros df Hwf; cbn [fold_left].
  - unfold docCount. cbn. lra.
  - inversion Hwf as [|? ? Hdoc Hwf']; subst.
    rewrite IH by exact Hwf'. rewrite get_increment_keys by exact Hdoc.
    rewrite memb_has. unfold docCount. cbn [filter].
    destruct (JsMap.has doc t); [|lra].
    change (List.length (doc :: ?l)) with (S (List.length l)).
    cbn [List.length]. rewrite S_INR. lra.
Qed.

Lemma documentFrequencies_wf (documents : list (JsMap R)) :
  JsMap.wf (documentFrequencies documents).
Proof.
  unfold documentFrequencies. generalize (@wf_nil R).
  generalize (@nil (string * R)) as df.
  induction documents as [|doc documents IH]; intros df H; [exact H|].
  cbn [fold_left]. apply IH, wf_counts, H.
Qed.

Lemma documentFrequencies_get (documents : list (JsMap R)) t :
  Forall JsMap.wf documents ->
  (0 < docCount t documents)%nat ->
  JsMap.get (documentFrequencies documents) t = Some (INR (docCount t documents)).
Proof.
  intros Hwf Hpos. pose proof (get_frequencies documents t [] Hwf) as H.
  fold (documentFrequencies documents) in H. cbn [JsMap.get orZero] in H.
  destruct (JsMap.get (documentFrequencies documents) t) as [v|]; cbn [orZero] in H.
  - f_equal. lra.
  - apply lt_0_INR in Hpos. lra.
Qed.

(** [computeIDF] of at least one document, entry by entry. *)
Lemma computeIDF_entries (documents : list (JsMap R)) :
  documents <> [] ->
  computeIDF documents
  = map (fun '(term, freq) =>
           (term, ln (INR (List.length documents) / (1 + freq))))
        (documentFrequencies documents).
Proof.
  intro Hne. unfold computeIDF.
  destruct documents as [|doc documents]; [congruence|].
  change (List.length (doc :: documents) =? 0)%nat with false. cbv iota zeta.
  fold (documentFrequencies (doc :: documents)).
  apply (build_loop
           (fun _ freq => ln (INR (List.length (doc :: documents)) / (1 + freq)))
           (documentFrequencies (doc :: documents)) []).
  - apply documentFrequencies_wf.
  - intros; cbn; tauto.
Qed.

Lemma computeIDF_nil : computeIDF [] = [].
Proof. reflexivity. Qed.

(** The table holds, for a term of at least one document, the logarithm of
    [N / (1 + df)]. *)
Lemma computeIDF_get (documents : list (JsMap R)) t :
  Forall JsMap.wf documents ->
  (0 < docCount t documents)%nat ->
  JsMap.get (computeIDF documents) t
  = Some (ln (INR (List.length documents) / (1 + INR (docCount t documents)))).
Proof.
  intros Hwf Hpos.
  assert (Hne : documents <> []) by (intros ->; cbn in Hpos; lia).
  rewrite computeIDF_entries by exact Hne.
  rewrite (get_map_values (fun _ freq => ln (INR (List.length documents) / (1 + freq)))).
  rewrite documentFrequencies_get by assumption. reflexivity.
Qed.

Lemma docCount_all (documents : list (JsMap R)) t :
  Forall (fun doc => JsMap.has doc t = true) documents ->
  docCount t documents = List.length documents.
Proof.
  intro H. unfold docCount. f_equal. apply forallb_filter_id, forallb_forall.
  rewrite Forall_forall in H. exact H.
Qed.

Lemma ln_ratio_negative (n : nat) : (0 < n)%nat -> ln (INR n / (1 + INR n)) < 0.
Proof.
  intro H. apply lt_0_INR in H. rewrite <- ln_1. apply ln_increasing.
  - apply Rdiv_lt_0_compat; lra.
  - apply (Rmult_lt_reg_r (1 + INR n)); [lra|].
    unfold Rdiv. rewrite Rmult_assoc, Rinv_l by lra. lra.
Qed.

(* ================================================================== *)
(** ** TF-IDF vectors *)

Lemma Forall_set {V : Type} (P : string * V -> Prop) (m : JsMap V) k v :
  (forall k', P (k', v)) -> Forall P m -> Forall P (JsMap.set m k v).
Proof.
  intro Hv. induction m as [|[k' v'] m IH]; intro H; cbn.
  - constructor; [apply Hv | constructor].
  - inversion H; subst. destruct (String.eqb k' k); constructor; auto.
Qed.

Lemma computeTFIDF_loop tf idfTable : computeTFIDF tf idfTable = tfidfLoop idfTable tf [].
Proof. reflexivity. Qed.

Lemma tfidfLoop_positive idfTable (tf : JsMap R) : forall acc,
  Forall (fun e => 0 < snd e) acc ->
  Forall (fun e => 0 < snd e) (tfidfLoop idfTable tf acc).
Proof.
  unfold tfidfLoop.
  induction tf as [|[term tfValue] tf IH]; intros acc H; [exact H|].
  cbn [fold_left]. cbv zeta. apply IH.
  destruct (Rgtb _ 0) eqn:E; [|exact H].
  apply Rgtb_true in E. apply Forall_set; [intro; exact E | exact H].
Qed.

Lemma computeTFIDF_positive (tf idfTable : JsMap R) :
  Forall (fun e => 0 < snd e) (computeTFIDF tf idfTable).
Proof. rewrite computeTFIDF_loop. apply tfidfLoop_positive. constructor. Qed.

Lemma tfidfLoop_keys idfTable (tf : JsMap R) t : forall acc,
  In t (JsMap.keys (tfidfLoop idfTable tf acc)) ->
  In t (JsMap.keys acc)
  \/ exists v, In (t, v) tf /\ 0 < v * orZero (JsMap.get idfTable t).
Proof.
  unfold tfidfLoop.
  induction tf as [|[term tfValue] tf IH]; intros acc H; [left; exact H|].
  cbn [fold_left] in H. cbv zeta in H. apply IH in H as [H | (v & Hin & Hv)].
  - destruct (Rgtb _ 0) eqn:E; [|left; exact H].
    apply in_keys_set in H as [-> | H]; [|left; exact H].
    right. exists tfValue. split; [left; reflexivity | apply Rgtb_true, E].
  - right. exists v. split; [right; exact Hin | exact Hv].
Qed.

(** A term is in the vector only with a positive product. *)
Lemma computeTFIDF_keys (tf idfTable : JsMap R) t :
  In t (JsMap.keys (computeTFIDF tf idfTable)) ->
  exists v, In (t, v) tf /\ 0 < v * orZero (JsMap.get idfTable t).
Proof.
  rewrite computeTFIDF_loop. intro H.
  apply tfidfLoop_keys in H as [[] | H]. exact H.
Qed.

Lemma computeTFIDF_wf (tf idfTable : JsMap R) : JsMap.wf (computeTFIDF tf idfTable).
Proof.
  rewrite computeTFIDF_loop. unfold tfidfLoop. generalize (@wf_nil R).
  generalize (@nil (string * R)) as acc.
  induction tf as [|[term tfValue] tf IH]; intros acc H; [exact H|].
  cbn [fold_left]. cbv zeta. apply IH.
  destruct (Rgtb _ 0); [apply wf_set, H | exact H].
Qed.

(** The vector depends on the table only through the terms of the TF map. *)
Lemma computeTFIDF_ext (tf idf1 idf2 : JsMap R) :
  (forall t, In t (JsMap.keys tf) -> JsMap.get idf1 t = JsMap.get idf2 t) ->
  computeTFIDF tf idf1 = computeTFIDF tf idf2.
Proof.
  rewrite !computeTFIDF_loop. unfold tfidfLoop. generalize (@nil (string * R)) as acc.
  induction tf as [|[term tfValue] tf IH]; intros acc H; [reflexivity|].
  cbn [fold_left]. cbv zeta. rewrite (H term) by (left; reflexivity).
  apply IH. intros t Ht. apply H. right. exact Ht.
Qed.

(** C7: in a corpus of N >= 1 TF vectors, a term of all N vectors gets the
    IDF ln(N/(1+N)), which is negative, so the term is in no TF-IDF vector
    computed from a TF vector against that table; and every entry of every
    TF-IDF vector is strictly positive.  A TF vector is a [Map] of
    frequencies, which are not negative. *)
Theorem ubiquitous_term_has_negative_idf
    (documents : list (JsMap R)) (term : string) :
  documents <> [] ->
  Forall JsMap.wf documents ->
  Forall (fun doc => JsMap.has doc term = true) documents ->
  let N := INR (List.length documents) in
  JsMap.get (computeIDF documents) term = Some (ln (N / (1 + N)))
  /\ ln (N / (1 + N)) < 0
  /\ (forall tf, Forall (fun e => 0 <= snd e) tf ->
        JsMap.has (computeTFIDF tf (computeIDF documents)) term = false)
  /\ (forall tf idfTable, Forall (fun e => 0 < snd e) (computeTFIDF tf idfTable)).
Proof.
  intros Hne Hwf Hall N.
  assert (Hlen : (0 < List.length documents)%nat)
    by (destruct documents; [congruence | cbn; lia]).
  assert (Hget : JsMap.get (computeIDF documents) term = Some (ln (N / (1 + N)))).
  { rewrite computeIDF_get; rewrite ?docCount_all by exact Hall; auto. }
  assert (Hneg : ln (N / (1 + N)) < 0) by (apply ln_ratio_negative, Hlen).
  repeat split; [exact Hget | exact Hneg | | intros; apply computeTFIDF_positive].
  intros tf Htf. apply not_true_iff_false. intro Hhas.
  apply has_true_keys, computeTFIDF_keys in Hhas as (v & Hin & Hv).
  rewrite Hget in Hv. cbn [orZero] in Hv.
  rewrite Forall_forall in Htf. specialize (Htf _ Hin). cbn [snd] in Htf. nra.
Qed.

Lemma ubiquitous_term_has_negative_idf_witness :
  let documents : list (JsMap R) := [ [("note", 1)]; [("note", 0.5); ("idea", 0.5)] ] in
  let N := INR (List.length documents) in
  JsMap.get (computeIDF documents) "note" = Some (ln (N / (1 + N)))
  /\ ln (N / (1 + N)) < 0
  /\ (forall tf, Forall (fun e => 0 <= snd e) tf ->
        JsMap.has (computeTFIDF tf (computeIDF documents)) "note" = false)
  /\ (forall tf idfTable, Forall (fun e => 0 < snd e) (computeTFIDF tf idfTable)).
Proof.
  apply (ubiquitous_term_has_negative_idf
           [ [("note", 1)]; [("note", 0.5); ("idea", 0.5)] ] "note").
  - discriminate.
  - repeat constructor; cbn; intuition discriminate.
  - repeat constructor.
Defined.

(* ================================================================== *)
(** ** Cosine similarity *)

Lemma cosine_first_loop (vecB vecA : JsMap R) : forall d n,
  fold_left (cosineStep vecB) vecA (d, n) = (d + dot vecA vecB, n + norm2 vecA).
Proof.
  induction vecA as [|[term valA] vecA IH]; intros d n; cbn [fold_left dot norm2 fold_right].
  - f_equal; lra.
  - unfold cosineStep at 2. rewrite IH. fold (dot vecA vecB) (norm2 vecA). cbn [snd].
    destruct (JsMap.get vecB term); cbn [orZero]; f_equal; lra.
Qed.

Lemma cosine_second_loop (vecB : JsMap R) : forall n,
  fold_left (fun n valB => n + valB * valB) (JsMap.values vecB) n = n + norm2 vecB.
Proof.
  unfold JsMap.values.
  induction vecB as [|[term valB] vecB IH]; intro n; cbn [map fold_left norm2 fold_right snd].
  - lra.
  - rewrite IH. fold (norm2 vecB). lra.
Qed.

(** [cosineSimilarity] in closed form. *)
Lemma cosineSimilarity_eq (vecA vecB : JsMap R) :
  cosineSimilarity vecA vecB
  = if Reqb (sqrt (norm2 vecA) * sqrt (norm2 vecB)) 0 then 0
    else dot vecA vecB / (sqrt (norm2 vecA) * sqrt (norm2 vecB)).
Proof.
  unfold cosineSimilarity. rewrite cosine_first_loop, cosine_second_loop.
  rewrite !Rplus_0_l. reflexivity.
Qed.

Lemma norm2_nonneg (vec : JsMap R) : 0 <= norm2 vec.
Proof.
  induction vec as [|[t v] vec IH]; cbn [norm2 fold_right snd]; [lra|].
  fold (norm2 vec). nra.
Qed.

Lemma norm2_positive (vec : JsMap R) :
  Exists (fun e => snd e <> 0) vec -> 0 < norm2 vec.
Proof.
  induction 1 as [[t v] vec H | [t v] vec _ IH]; cbn [norm2 fold_right snd] in *;
    fold (norm2 vec).
  - pose proof (norm2_nonneg vec). nra.
  - nra.
Qed.

Lemma dot_nonneg (vecA vecB : JsMap R) :
  Forall (fun e => 0 <= snd e) vecA -> Forall (fun e => 0 <= snd e) vecB ->
  0 <= dot vecA vecB.
Proof.
  intros HA HB. induction HA as [|[t a] vecA Ha _ IH]; cbn [dot fold_right]; [lra|].
  fold (dot vecA vecB). cbn [snd] in Ha.
  assert (0 <= orZero (JsMap.get vecB t)).
  { destruct (JsMap.get vecB t) as [b|] eqn:E; cbn [orZero]; [|lra].
    apply get_Some_In in E. rewrite Forall_forall in HB. apply (HB _ E). }
  nra.
Qed.

Lemma dot_part (whole part : JsMap R) :
  (forall e, In e part -> JsMap.get whole (fst e) = Some (snd e)) ->
  dot part whole = norm2 part.
Proof.
  induction part as [|[t v] part IH]; intro H; cbn [dot norm2 fold_right snd];
    [reflexivity|].
  fold (dot part whole) (norm2 part).
  pose proof (H (t, v) (or_introl eq_refl)) as Ht. cbn [fst snd] in Ht.
  rewrite Ht. cbn [orZero].
  rewrite IH; [reflexivity|]. intros e He. apply H. right. exact He.
Qed.

Lemma dot_self (vec : JsMap R) : JsMap.wf vec -> dot vec vec = norm2 vec.
Proof.
  intro Hwf. apply dot_part. intros [t v] Hin. apply In_get_wf; assumption.
Qed.

(** *** The inequality of Cauchy and Schwarz *)

Lemma le_of_squares (x y : R) : 0 <= y -> x * x <= y * y -> x <= y.
Proof. intros Hy H. destruct (Rle_lt_dec x y) as [|Hlt]; [assumption|]. nra. Qed.

Lemma cauchy_schwarz_step (a b sab saa sbb : R) :
  0 <= saa -> 0 <= sbb -> sab * sab <= saa * sbb ->
  (a * b + sab) * (a * b + sab) <= (a * a + saa) * (b * b + sbb).
Proof.
  intros Haa Hbb H.
  assert (Hx : 2 * (a * b) * sab <= a * a * sbb + b * b * saa).
  { apply le_of_squares; [nra|].
    pose proof (Rle_0_sqr (a * a * sbb - b * b * saa)) as Hsq. unfold Rsqr in Hsq.
    pose proof (Rle_0_sqr (a * b)) as Hab. unfold Rsqr in Hab.
    assert ((a * b) * (a * b) * (sab * sab) <= (a * b) * (a * b) * (saa * sbb))
      by (apply Rmult_le_compat_l; assumption).
    lra. }
  lra.
Qed.

Lemma sumSquares_nonneg l : 0 <= sumSquares l.
Proof. induction l as [|b l IH]; cbn [sumSquares fold_right]; [lra|]. fold (sumSquares l). nra. Qed.

Lemma dot_aligned_squared (vecA vecB : JsMap R) :
  dot vecA vecB * dot vecA vecB <= norm2 vecA * sumSquares (aligned vecA vecB).
Proof.
  induction vecA as [|[t a] vecA IH];
    cbn [dot norm2 aligned map sumSquares fold_right fst snd]; [lra|].
  fold (dot vecA vecB) (norm2 vecA) (aligned vecA vecB) (sumSquares (aligned vecA vecB)).
  apply cauchy_schwarz_step;
    [apply norm2_nonneg | apply sumSquares_nonneg | exact IH].
Qed.

Lemma get_delete_other {V : Type} (m : JsMap V) k k' :
  k' <> k -> JsMap.get (JsMap.delete m k) k' = JsMap.get m k'.
Proof.
  intro Hne. unfold JsMap.delete.
  induction m as [|[k0 v0] m IH]; cbn; [reflexivity|].
  destruct (String.eqb k0 k) eqn:E; cbn.
  - rewrite IH. apply String.eqb_eq in E. subst k0.
    destruct (String.eqb k k') eqn:E'; [|reflexivity].
    apply String.eqb_eq in E'. congruence.
  - rewrite IH. reflexivity.
Qed.

Lemma norm2_cons t v (vec : JsMap R) : norm2 ((t, v) :: vec) = v * v + norm2 vec.
Proof. reflexivity. Qed.

Lemma norm2_delete_le (vec : JsMap R) k : norm2 (JsMap.delete vec k) <= norm2 vec.
Proof.
  unfold JsMap.delete.
  induction vec as [|[t v] vec IH]; cbn [filter fst]; [lra|].
  rewrite norm2_cons. pose proof (Rle_0_sqr v) as Hv. unfold Rsqr in Hv.
  destruct (negb (String.eqb t k)); rewrite ?norm2_cons; lra.
Qed.

Lemma norm2_split (vec : JsMap R) k :
  orZero (JsMap.get vec k) * orZero (JsMap.get vec k) + norm2 (JsMap.delete vec k)
  <= norm2 vec.
Proof.
  induction vec as [|[t v] vec IH]; [cbn; lra|].
  cbn [JsMap.get]. unfold JsMap.delete in *. cbn [filter fst].
  rewrite norm2_cons.
  destruct (String.eqb t k) eqn:E; cbn [negb orZero]; rewrite ?norm2_cons.
  - pose proof (norm2_delete_le vec k) as H. unfold JsMap.delete in H. lra.
  - lra.
Qed.

Lemma aligned_squares_le (vecA : JsMap R) : forall vecB : JsMap R,
  JsMap.wf vecA -> sumSquares (aligned vecA vecB) <= norm2 vecB.
Proof.
  induction vecA as [|[t a] vecA IH]; intros vecB Hwf;
    cbn [aligned map sumSquares fold_right fst].
  - apply norm2_nonneg.
  - unfold JsMap.wf in Hwf. cbn in Hwf. inversion Hwf as [|? ? Hfresh Hwf']; subst.
    fold (aligned vecA vecB) (sumSquares (aligned vecA vecB)).
    assert (Heq : aligned vecA vecB = aligned vecA (JsMap.delete vecB t)).
    { unfold aligned. apply map_ext_in. intros [t' a'] Hin. cbn [fst].
      rewrite get_delete_other; [reflexivity|].
      intros ->. apply Hfresh. change t with (fst (t, a')). apply in_map, Hin. }
    rewrite Heq. specialize (IH (JsMap.delete vecB t) Hwf').
    pose proof (norm2_split vecB t). lra.
Qed.

Lemma cauchy_schwarz (vecA vecB : JsMap R) :
  JsMap.wf vecA ->
  dot vecA vecB <= sqrt (norm2 vecA) * sqrt (norm2 vecB).
Proof.
  intro Hwf. apply le_of_squares.
  - apply Rmult_le_pos; apply sqrt_pos.
  - pose proof (norm2_nonneg vecA) as HA. pose proof (norm2_nonneg vecB) as HB.
    replace (sqrt (norm2 vecA) * sqrt (norm2 vecB) * (sqrt (norm2 vecA) * sqrt (norm2 vecB)))
      with ((sqrt (norm2 vecA) * sqrt (norm2 vecA)) * (sqrt (norm2 vecB) * sqrt (norm2 vecB)))
      by ring.
    rewrite !sqrt_sqrt by assumption.
    pose proof (dot_aligned_squared vecA vecB).
    pose proof (aligned_squares_le vecA vecB Hwf).
    pose proof (sumSquares_nonneg (aligned vecA vecB)). nra.
Qed.

Section Binary64Rounding.
Import Floats.

(** C6, as stated, fails on the numbers the program runs on: in binary64
  the square root of 3, squared, is 2.9999999999999996, so the vector
  (1, 1, 1), whose entries are not negative, has with itself the
  similarity 1.0000000000000002, which is not 1 and exceeds 1. *)
Lemma binary64_self_similarity_exceeds_one :
let v : JsMap float := [("a", 1%float); ("b", 1%float); ("c", 1%float)] in
Binary64.cosineSimilarity v v = 0x1.0000000000001p+0%float
/\ PrimFloat.eqb (Binary64.cosineSimilarity v v) 1%float = false
/\ PrimFloat.ltb 1%float (Binary64.cosineSimilarity v v) = true.
Proof. vm_compute. repeat split. Qed.

End Binary64Rounding.

(** C6, amended: in exact arithmetic [cosineSimilarity] is total; it
    returns 0 whenever the norm of either argument is 0 and the quotient of
    the dot product by the product of the norms otherwise, so it never
    divides by 0; for vectors without negative entries the result lies in
    [0,1]; for every vector v with a non-zero entry, the similarity of v
    with itself is 1; and the similarity with the empty vector is 0.
    (In binary64 the bound and the self-similarity hold up to rounding.) *)
Theorem cosineSimilarity_exact (vecA vecB : JsMap R) :
  (norm2 vecA = 0 \/ norm2 vecB = 0 -> cosineSimilarity vecA vecB = 0)
  /\ (norm2 vecA <> 0 -> norm2 vecB <> 0 ->
      sqrt (norm2 vecA) * sqrt (norm2 vecB) <> 0
      /\ cosineSimilarity vecA vecB
         = dot vecA vecB / (sqrt (norm2 vecA) * sqrt (norm2 vecB)))
  /\ (JsMap.wf vecA ->
      Forall (fun e => 0 <= snd e) vecA -> Forall (fun e => 0 <= snd e) vecB ->
      0 <= cosineSimilarity vecA vecB <= 1)
  /\ (JsMap.wf vecA -> Exists (fun e => snd e <> 0) vecA ->
      cosineSimilarity vecA vecA = 1)
  /\ cosineSimilarity vecA [] = 0.
Proof.
  pose proof (norm2_nonneg vecA) as HA. pose proof (norm2_nonneg vecB) as HB.
  assert (Hzero : norm2 vecA = 0 \/ norm2 vecB = 0 -> cosineSimilarity vecA vecB = 0).
  { intro H. rewrite cosineSimilarity_eq.
    assert (Hden : sqrt (norm2 vecA) * sqrt (norm2 vecB) = 0)
      by (destruct H as [-> | ->]; rewrite sqrt_0; ring).
    apply Reqb_true in Hden. rewrite Hden. reflexivity. }
  assert (Hden : norm2 vecA <> 0 -> norm2 vecB <> 0 ->
                 0 < sqrt (norm2 vecA) * sqrt (norm2 vecB)).
  { intros. apply Rmult_lt_0_compat; apply sqrt_lt_R0; lra. }
  assert (Hquot : norm2 vecA <> 0 -> norm2 vecB <> 0 ->
                  cosineSimilarity vecA vecB
                  = dot vecA vecB / (sqrt (norm2 vecA) * sqrt (norm2 vecB))).
  { intros H1 H2. rewrite cosineSimilarity_eq.
    assert (Hne : sqrt (norm2 vecA) * sqrt (norm2 vecB) <> 0)
      by (specialize (Hden H1 H2); lra).
    apply Reqb_false in Hne. rewrite Hne. reflexivity. }
  split; [exact Hzero|].
  split; [intros H1 H2; split; [specialize (Hden H1 H2); lra | apply Hquot; assumption]|].
  split; [|split].
  - intros Hwf HnA HnB.
    destruct (Req_dec_T (norm2 vecA) 0) as [H1 | H1]; [rewrite Hzero by tauto; lra|].
    destruct (Req_dec_T (norm2 vecB) 0) as [H2 | H2]; [rewrite Hzero by tauto; lra|].
    rewrite Hquot by assumption. specialize (Hden H1 H2).
    pose proof (dot_nonneg vecA vecB HnA HnB) as Hdot.
    pose proof (cauchy_schwarz vecA vecB Hwf) as Hcs.
    split.
    + apply Rmult_le_pos; [exact Hdot | left; apply Rinv_0_lt_compat, Hden].
    + apply (Rmult_le_reg_r (sqrt (norm2 vecA) * sqrt (norm2 vecB))); [exact Hden|].
      unfold Rdiv. rewrite Rmult_assoc, Rinv_l by lra. lra.
  - intros Hwf Hnz. pose proof (norm2_positive vecA Hnz) as Hpos.
    rewrite cosineSimilarity_eq, dot_self by exact Hwf.
    rewrite sqrt_sqrt by exact HA.
    assert (Hne : norm2 vecA <> 0) by lra.
    apply Reqb_false in Hne. rewrite Hne. apply Rdiv_diag. lra.
  - rewrite cosineSimilarity_eq. change (norm2 []) with 0.
    rewrite sqrt_0, Rmult_0_r.
    assert (H0 : Reqb 0 0 = true) by (apply Reqb_true; reflexivity).
    rewrite H0. reflexivity.
Qed.

Lemma cosineSimilarity_exact_witness :
  let v : JsMap R := [("idea", 1); ("note", 2)] in
  let w : JsMap R := [("note", 3)] in
  0 <= cosineSimilarity v w <= 1
  /\ cosineSimilarity v v = 1
  /\ cosineSimilarity v [] = 0
  /\ cosineSimilarity [] w = 0.
Proof.
  cbv zeta.
  assert (Hwf : JsMap.wf (V := R) [("idea", 1); ("note", 2)])
    by (repeat constructor; cbn; intuition discriminate).
  destruct (cosineSimilarity_exact [("idea", 1); ("note", 2)] [("note", 3)])
    as (_ & _ & Hrange & Hself & Hempty).
  destruct (cosineSimilarity_exact [] [("note", 3)]) as (Hzero & _).
  repeat split.
  - apply Hrange; [exact Hwf | |]; repeat constructor; cbn; lra.
  - apply Hrange; [exact Hwf | |]; repeat constructor; cbn; lra.
  - apply Hself; [exact Hwf|]. constructor. cbn. lra.
  - exact Hempty.
  - apply Hzero. left. reflexivity.
Defined.

(* ================================================================== *)
(** ** Sorting *)

Lemma insertDesc_perm {A : Type} (key : A -> R) x (l : list A) :
  Permutation (insertDesc key x l) (x :: l).
Proof.
  induction l as [|y l IH]; cbn [insertDesc]; [reflexivity|].
  destruct (Rltb (key x) (key y)); [|reflexivity].
  rewrite IH. apply perm_swap.
Qed.

Lemma sortDesc_perm {A : Type} (key : A -> R) (l : list A) :
  Permutation (sortDesc key l) l.
Proof.
  induction l as [|x l IH]; cbn [sortDesc fold_right]; [reflexivity|].
  fold (sortDesc key l). rewrite insertDesc_perm. constructor. exact IH.
Qed.

Lemma insertDesc_sorted {A : Type} (key : A -> R) x (l : list A) :
  StronglySorted (descending key) l ->
  StronglySorted (descending key) (insertDesc key x l).
Proof.
  induction 1 as [|y l Hs IH Hy]; cbn [insertDesc].
  - repeat constructor.
  - destruct (Rltb (key x) (key y)) eqn:E.
    + apply Rltb_true in E. constructor; [exact IH|].
      apply (Permutation_Forall (x := x :: l));
        [symmetry; apply insertDesc_perm|].
      constructor; [unfold descending; lra | exact Hy].
    + apply Rltb_false in E. constructor; [constructor; assumption|].
      constructor; [exact E|].
      eapply Forall_impl; [|exact Hy]. unfold descending. intros z Hz. lra.
Qed.

Lemma sortDesc_sorted {A : Type} (key : A -> R) (l : list A) :
  StronglySorted (descending key) (sortDesc key l).
Proof.
  induction l as [|x l IH]; cbn [sortDesc fold_right]; [constructor|].
  apply insertDesc_sorted, IH.
Qed.

Lemma sortDesc_Forall {A : Type} (key : A -> R) (P : A -> Prop) (l : list A) :
  Forall P l -> Forall P (sortDesc key l).
Proof. apply Permutation_Forall. symmetry. apply sortDesc_perm. Qed.

Lemma firstn_Forall {A : Type} (P : A -> Prop) n : forall l : list A,
  Forall P l -> Forall P (firstn n l).
Proof.
  induction n as [|n IH]; intros l H; [constructor|].
  destruct H as [|x l Hx Hl]; cbn [firstn]; constructor; [exact Hx | apply IH, Hl].
Qed.

Lemma firstn_sorted {A : Type} (R : A -> A -> Prop) n : forall l : list A,
  StronglySorted R l -> StronglySorted R (firstn n l).
Proof.
  induction n as [|n IH]; intros l H; [constructor|].
  destruct H as [|x l Hs Hx]; cbn [firstn]; [constructor|].
  constructor; [apply IH, Hs | apply firstn_Forall, Hx].
Qed.

(** A step that keeps or drops each element, with its key, keeps the order. *)
Lemma flat_map_sorted {A B : Type} (keyA : A -> R) (keyB : B -> R)
    (h : A -> list B) (l : list A) :
  (forall a, h a = [] \/ exists b, h a = [b] /\ keyB b = keyA a) ->
  StronglySorted (descending keyA) l ->
  StronglySorted (descending keyB) (flat_map h l).
Proof.
  intros Hh. induction 1 as [|x l Hs IH Hx]; cbn [flat_map]; [constructor|].
  destruct (Hh x) as [-> | (b & -> & Hb)]; cbn [app]; [exact IH|].
  constructor; [exact IH|].
  apply Forall_forall. intros b' Hb'. apply in_flat_map in Hb' as (a & Ha & Hin).
  rewrite Forall_forall in Hx. specialize (Hx _ Ha). unfold descending in *.
  destruct (Hh a) as [E | (b0 & E & Hb0)]; rewrite E in Hin; [destruct Hin|].
  destruct Hin as [<- | []]. lra.
Qed.

Lemma flat_map_length_le {A B : Type} (h : A -> list B) (l : list A) :
  (forall a, (List.length (h a) <= 1)%nat) ->
  (List.length (flat_map h l) <= List.length l)%nat.
Proof.
  intro Hh. induction l as [|x l IH]; cbn [flat_map List.length]; [lia|].
  rewrite length_app. specialize (Hh x). lia.
Qed.

(* ================================================================== *)
(** ** Similarity queries *)

Lemma similarityScores_loop sourcePath sourceVector (vectors : JsMap (JsMap R)) :
  forall acc : list (string * R),
  fold_left (fun scores '(p, vector) =>
               if String.eqb p sourcePath then scores
               else
                 let sim := cosineSimilarity sourceVector vector in
                 if Rgtb sim 0.01 then scores ++ [(p, sim)] else scores)
            vectors acc
  = acc ++ flat_map (scoreOf sourcePath sourceVector) vectors.
Proof.
  induction vectors as [|[p vector] vectors IH]; intro acc; cbn [fold_left flat_map].
  - rewrite app_nil_r. reflexivity.
  - rewrite IH. unfold scoreOf at 2. cbn [fst snd]. cbv zeta.
    destruct (String.eqb p sourcePath); [reflexivity|].
    destruct (Rgtb _ 0.01); [rewrite <- app_assoc|]; reflexivity.
Qed.

Lemma similarityScores_eq sourcePath sourceVector (vectors : JsMap (JsMap R)) :
  similarityScores sourcePath sourceVector vectors
  = flat_map (scoreOf sourcePath sourceVector) vectors.
Proof. unfold similarityScores. rewrite similarityScores_loop. reflexivity. Qed.

Lemma similarityScores_sound sourcePath sourceVector (vectors : JsMap (JsMap R)) :
  Forall (fun s => fst s <> sourcePath /\ 0.01 < snd s
                   /\ exists vector, In (fst s, vector) vectors
                        /\ snd s = cosineSimilarity sourceVector vector)
         (similarityScores sourcePath sourceVector vectors).
Proof.
  rewrite similarityScores_eq. apply Forall_forall. intros s Hs.
  apply in_flat_map in Hs as ([p vector] & Hin & Hs).
  unfold scoreOf in Hs. cbn [fst snd] in Hs.
  destruct (String.eqb p sourcePath) eqn:E; [destruct Hs|].
  destruct (Rgtb _ 0.01) eqn:E'; [|destruct Hs].
  destruct Hs as [<- | []]. cbn [fst snd]. apply String.eqb_neq in E.
  apply Rgtb_true in E'. repeat split; [exact E | exact E' |].
  exists vector. split; [exact Hin | reflexivity].
Qed.

Lemma vault_getAbstractFileByPath_path app p e :
  vault_getAbstractFileByPath app p = Some e -> abstractPath e = p.
Proof.
  unfold vault_getAbstractFileByPath. intro H. apply find_some in H as [_ H].
  apply String.eqb_eq, H.
Qed.

Lemma toSimilarNote_cases app (s : string * R) :
  toSimilarNote app s = []
  \/ exists n, toSimilarNote app s = [n] /\ similarity n = snd s
               /\ path (file n) = fst s.
Proof.
  unfold toSimilarNote.
  destruct (vault_getAbstractFileByPath app (fst s)) as [[f | p]|] eqn:E;
    [right | left; reflexivity | left; reflexivity].
  eexists. split; [reflexivity|]. split; [reflexivity|].
  apply vault_getAbstractFileByPath_path in E. exact E.
Qed.

Lemma findSimilar_from_scores app st f topK sourceVector :
  indexReady st = true ->
  JsMap.get (tfidfVectors st) (path f) = Some sourceVector ->
  findSimilar app st f topK
  = flat_map (toSimilarNote app)
      (firstn topK
         (sortDesc snd (similarityScores (path f) sourceVector (tfidfVectors st)))).
Proof. intros Hr Hg. unfold findSimilar. rewrite Hr, Hg. reflexivity. Qed.

(** What [findSimilar] ranks before it looks the files up: scores of other
    paths, above the noise floor, in descending order, at most [topK]. *)
Lemma findSimilar_ranked (app : App) (st : EmbeddingEngine) (f : TFile) (topK : nat) :
  exists ranked : list (string * R),
    findSimilar app st f topK = flat_map (toSimilarNote app) ranked
    /\ Forall (fun s => fst s <> path f /\ 0.01 < snd s) ranked
    /\ StronglySorted (descending snd) ranked
    /\ (List.length ranked <= topK)%nat.
Proof.
  destruct (indexReady st) eqn:Hr;
    [|exists []; unfold findSimilar; rewrite Hr; cbn;
      repeat split; (constructor || lia)].
  destruct (JsMap.get (tfidfVectors st) (path f)) as [sourceVector|] eqn:Hg;
    [|exists []; unfold findSimilar; rewrite Hr, Hg; cbn;
      repeat split; (constructor || lia)].
  rewrite (findSimilar_from_scores app st f topK sourceVector Hr Hg).
  eexists. split; [reflexivity|]. split; [|split].
  - apply firstn_Forall, sortDesc_Forall.
    eapply Forall_impl; [|apply similarityScores_sound]. cbv beta. tauto.
  - apply firstn_sorted, sortDesc_sorted.
  - apply firstn_le_length.
Qed.

Lemma similarNotes_in app (ranked : list (string * R)) n :
  In n (flat_map (toSimilarNote app) ranked) ->
  exists s, In s ranked /\ similarity n = snd s /\ path (file n) = fst s.
Proof.
  intro Hn. apply in_flat_map in Hn as (s & Hs & Hn). exists s.
  destruct (toSimilarNote_cases app s) as [E | (n0 & E & Hsim & Hp)];
    rewrite E in Hn; [destruct Hn|].
  destruct Hn as [<- | []]. auto.
Qed.

Lemma similarNotes_sorted app (ranked : list (string * R)) :
  StronglySorted (descending snd) ranked ->
  StronglySorted (fun a b => similarity b <= similarity a)
                 (flat_map (toSimilarNote app) ranked).
Proof.
  apply (flat_map_sorted snd similarity). intro s.
  destruct (toSimilarNote_cases app s) as [E | (n & E & Hsim & _)];
    [left; exact E | right; exists n; tauto].
Qed.

Lemma similarNotes_length app (ranked : list (string * R)) :
  (List.length (flat_map (toSimilarNote app) ranked) <= List.length ranked)%nat.
Proof.
  apply flat_map_length_le. intro s.
  destruct (toSimilarNote_cases app s) as [-> | (n & -> & _)]; cbn; lia.
Qed.

(** C1: [findSimilar] returns the empty list when the engine is not ready
    or the queried path has no TF-IDF vector; in every case its result does
    not contain the queried document, has no entry with similarity <= 0.01,
    has at most [topK] entries and is sorted non-increasing by similarity. *)
Theorem findSimilar_result (app : App) (st : EmbeddingEngine) (f : TFile) (topK : nat) :
  (indexReady st = false \/ JsMap.get (tfidfVectors st) (path f) = None ->
   findSimilar app st f topK = [])
  /\ Forall (fun n => path (file n) <> path f) (findSimilar app st f topK)
  /\ Forall (fun n => ~ similarity n <= 0.01) (findSimilar app st f topK)
  /\ (List.length (findSimilar app st f topK) <= topK)%nat
  /\ StronglySorted (fun a b => similarity b <= similarity a)
                    (findSimilar app st f topK).
Proof.
  split.
  { unfold findSimilar. intros [-> | ->]; [reflexivity|].
    destruct (negb (indexReady st)); reflexivity. }
  destruct (findSimilar_ranked app st f topK)
    as (ranked & -> & Hranked & Hsorted & Hlen).
  rewrite Forall_forall in Hranked.
  repeat split.
  - apply Forall_forall. intros n Hn.
    apply similarNotes_in in Hn as (s & Hs & _ & ->). apply (Hranked s Hs).
  - apply Forall_forall. intros n Hn.
    apply similarNotes_in in Hn as (s & Hs & -> & _).
    destruct (Hranked s Hs). lra.
  - etransitivity; [apply similarNotes_length | exact Hlen].
  - apply similarNotes_sorted, Hsorted.
Qed.

(* ================================================================== *)
(** ** Readiness *)

Section EngineFacts.

Variable getIndexableContent : TFile -> string -> string.
Variable leafNumber : json -> R.

#[local] Abbreviation indexVault' := (indexVault getIndexableContent).
#[local] Abbreviation indexNote' := (indexNote getIndexableContent).
#[local] Abbreviation loadIndex' := (loadIndex leafNumber).
#[local] Abbreviation step' := (step getIndexableContent leafNumber).
#[local] Abbreviation run' := (run getIndexableContent leafNumber).
#[local] Abbreviation restoresIndex' := (restoresIndex leafNumber).
#[local] Abbreviation failsOnParsedFile' := (failsOnParsedFile leafNumber).

Lemma indexVault_no_files app st :
  getMarkdownFiles app st = [] -> indexVault' app st = st.
Proof. intro H. unfold indexVault. rewrite H. reflexivity. Qed.

Lemma indexVault_some_files app st :
  getMarkdownFiles app st <> [] -> indexReady (indexVault' app st) = true.
Proof.
  intro H. unfold indexVault.
  destruct (getMarkdownFiles app st); [congruence | reflexivity].
Qed.

Lemma indexNote_ready app st f : indexReady (indexNote' app st f) = indexReady st.
Proof.
  unfold indexNote. destruct (indexReady st) eqn:E; cbn; [reflexivity | exact E].
Qed.

Lemma removeNote_ready st p : indexReady (removeNote st p) = indexReady st.
Proof. reflexivity. Qed.

(** [loadIndex] sets the flag exactly when it returns [true]. *)
Lemma loadIndex_ready app st :
  indexReady (fst (loadIndex' app st)) = indexReady st || snd (loadIndex' app st).
Proof.
  unfold loadIndex.
  destruct (indexFile app) as [| |data]; cbn; rewrite ?orb_false_r; try reflexivity.
  destruct (getProperty data "tfMaps") as [v|]; cbn; rewrite ?orb_false_r; try reflexivity.
  destruct (Object_entries v) as [entries|]; cbn; rewrite ?orb_false_r; try reflexivity.
  destruct (restoreTfMaps leafNumber entries []) as [tfs finished].
  destruct finished; cbn; rewrite ?orb_false_r; try reflexivity.
  destruct (getProperty data "idf") as [v'|]; cbn; rewrite ?orb_false_r; try reflexivity.
  destruct (Object_entries v'); cbn; rewrite ?orb_false_r, ?orb_true_r; reflexivity.
Qed.

Lemma setExcludedFolders_ready st folders :
  indexReady (setExcludedFolders st folders) = indexReady st.
Proof. reflexivity. Qed.

Lemma indexVault_keeps_ready app st :
  indexReady st = true -> indexReady (indexVault' app st) = true.
Proof.
  intro H. unfold indexVault.
  destruct (List.length (getMarkdownFiles app st) =? 0)%nat; [exact H | reflexivity].
Qed.

Lemma step_keeps_ready st op :
  indexReady st = true -> indexReady (step' st op) = true.
Proof.
  intro H. destruct op as [app | app f | p | app | folders]; cbn [step].
  - apply indexVault_keeps_ready, H.
  - rewrite indexNote_ready. exact H.
  - exact H.
  - rewrite loadIndex_ready, H. reflexivity.
  - exact H.
Qed.

Lemma run_keeps_ready ops : forall st,
  indexReady st = true -> indexReady (run' ops st) = true.
Proof.
  induction ops as [|op ops IH]; intros st H; [exact H|].
  cbn [run fold_left]. apply IH, step_keeps_ready, H.
Qed.

(** C5, amended: [isReady()] becomes true only through a full build that
    finds at least one document or through a [loadIndex] that returns
    true, and both make the engine ready; a build over zero documents
    leaves the engine as it is; no other operation makes an unbuilt engine
    ready; and a ready engine stays ready across every operation (there is
    no reset), in particular across upserts and removals. *)
Theorem ready_only_by_build_or_restore (st : EmbeddingEngine) (op : Operation) :
  (isReady st = false -> isReady (step' st op) = true ->
   buildsIndex st op \/ restoresIndex' st op)
  /\ (buildsIndex st op \/ restoresIndex' st op -> isReady (step' st op) = true)
  /\ (forall app, getMarkdownFiles app st = [] -> indexVault' app st = st)
  /\ (forall app f, isReady (indexNote' app st f) = isReady st)
  /\ (forall p, isReady (removeNote st p) = isReady st)
  /\ (forall ops, isReady st = true -> isReady (run' ops st) = true).
Proof.
  unfold isReady. repeat split.
  - intros Hno Hyes. destruct op as [app | app f | p | app | folders]; cbn [step] in Hyes.
    + left. exists app. split; [reflexivity|].
      intro Hnil. rewrite indexVault_no_files in Hyes by exact Hnil. congruence.
    + rewrite indexNote_ready in Hyes. congruence.
    + rewrite removeNote_ready in Hyes. congruence.
    + right. exists app. split; [reflexivity|].
      rewrite loadIndex_ready, Hno in Hyes. exact Hyes.
    + rewrite setExcludedFolders_ready in Hyes. congruence.
  - intros [(app & -> & Hfiles) | (app & -> & Hload)]; cbn [step].
    + apply indexVault_some_files, Hfiles.
    + rewrite loadIndex_ready, Hload. apply orb_true_r.
  - intros app. apply indexVault_no_files.
  - intros app f. apply indexNote_ready.
  - intros ops. apply run_keeps_ready.
Qed.

End EngineFacts.

(** C5, as stated, fails: an engine that was never built becomes ready by
    loading a saved index, here the index of an empty vault, while a full
    build would find no document. *)
Lemma loadIndex_makes_unbuilt_engine_ready :
  let app := hostWithIndex (JObject [("tfMaps", JObject []); ("idf", JObject [])]) in
  let st := newEngine [] in
  isReady st = false
  /\ getMarkdownFiles app st = []
  /\ loadIndex numberLeaf app st
     = ({| tfMaps := []; idf := []; tfidfVectors := []; indexReady := true;
           excludedFolders := [] |}, true)
  /\ isReady (step plainIndexableContent numberLeaf st (LoadIndex app)) = true
  /\ ~ buildsIndex st (LoadIndex app).
Proof.
  cbv zeta. repeat split.
  intros (app & Heq & _). discriminate Heq.
Qed.

(* ================================================================== *)
(** ** Loading a saved index *)

Section LoadFacts.

Variable leafNumber : json -> R.

Lemma restoreTfMaps_wf (entries : list (string * json)) : forall acc,
  JsMap.wf acc -> JsMap.wf (fst (restoreTfMaps leafNumber entries acc)).
Proof.
  induction entries as [|[filePath tf] entries IH]; intros acc H; cbn [restoreTfMaps].
  - exact H.
  - destruct (Object_entries (Some tf)); [apply IH, wf_set, H | exact H].
Qed.

(** The three ways in which [loadIndex] ends: nothing read; a parsed file
    of the wrong shape, after [tfMaps] was cleared and refilled up to the
    point of the exception; a restored index. *)
Lemma loadIndex_cases app st :
  ((indexFile app = Missing \/ indexFile app = Unreadable)
   /\ loadIndex leafNumber app st = (st, false))
  \/ (exists data tfs, indexFile app = Parsed data
        /\ loadIndex leafNumber app st = (withTfMaps st tfs, false))
  \/ (exists tfs idfTable, JsMap.wf tfs
        /\ loadIndex leafNumber app st
           = ({| tfMaps := tfs; idf := idfTable;
                 tfidfVectors := rebuildVectors tfs idfTable;
                 indexReady := true;
                 excludedFolders := excludedFolders st |}, true)).
Proof.
  unfold loadIndex.
  destruct (indexFile app) as [| |data] eqn:Hfile; [left; auto | left; auto | right].
  destruct (getProperty data "tfMaps") as [v|];
    [|left; exists data, []; auto].
  destruct (Object_entries v) as [entries|];
    [|left; exists data, []; auto].
  pose proof (restoreTfMaps_wf entries [] wf_nil) as Hwf.
  destruct (restoreTfMaps leafNumber entries []) as [tfs finished]. cbn [fst] in Hwf.
  destruct finished; cbn [negb];
    [|left; exists data, tfs; auto].
  destruct (getProperty data "idf") as [v'|];
    [|left; exists data, tfs; auto].
  destruct (Object_entries v') as [idfEntries|];
    [|left; exists data, tfs; auto].
  right. eexists _, _. split; [exact Hwf | reflexivity].
Qed.


End LoadFacts.

(** C10 on a failing input: a ready engine with one indexed note loads an
    [index.json] that holds the JSON text of an empty object; [loadIndex]
    returns false, and the TF maps are gone. *)
Lemma loadIndex_not_atomic :
  let st := {| tfMaps := [("a.md", [("apple", 1)])];
               idf := [("apple", 0)];
               tfidfVectors := [("a.md", [])];
               indexReady := true;
               excludedFolders := [] |} in
  let app := hostWithIndex (JObject []) in
  loadIndex numberLeaf app st = (withTfMaps st [], false)
  /\ tfMaps (fst (loadIndex numberLeaf app st)) = []
  /\ tfMaps st <> [].
Proof. cbv zeta. repeat split. discriminate. Qed.

(** The same on a fresh engine at start-up: the file holds TF maps and no
    IDF table; [loadIndex] returns false after it has restored the maps. *)
Lemma loadIndex_partial_restore :
  let st := newEngine [] in
  let app := hostWithIndex
               (JObject [("tfMaps", JObject [("a.md", JObject [("apple", JNumber 1)])])]) in
  loadIndex numberLeaf app st
  = (withTfMaps st [("a.md", [("apple", 1)])], false).
Proof. reflexivity. Qed.

(* ================================================================== *)
(** ** The invariant of the index *)

Lemma has_same_keys {V W : Type} (m1 : JsMap V) (m2 : JsMap W) k :
  JsMap.keys m1 = JsMap.keys m2 -> JsMap.has m1 k = JsMap.has m2 k.
Proof. intro H. rewrite <- !memb_has, H. reflexivity. Qed.

Lemma keys_rebuildVectors tfs idfTable :
  JsMap.wf tfs -> JsMap.keys (rebuildVectors tfs idfTable) = JsMap.keys tfs.
Proof.
  intro H. rewrite rebuildVectors_entries by exact H.
  apply (keys_map_values (fun _ tf => computeTFIDF tf idfTable)).
Qed.

Section IndexInvariant.

Variable getIndexableContent : TFile -> string -> string.
Variable leafNumber : json -> R.

#[local] Abbreviation indexVault' := (indexVault getIndexableContent).
#[local] Abbreviation indexNote' := (indexNote getIndexableContent).
#[local] Abbreviation loadIndex' := (loadIndex leafNumber).
#[local] Abbreviation step' := (step getIndexableContent leafNumber).
#[local] Abbreviation run' := (run getIndexableContent leafNumber).
#[local] Abbreviation failsOnParsedFile' := (failsOnParsedFile leafNumber).
#[local] Abbreviation cleanRun' := (cleanRun getIndexableContent leafNumber).

Lemma files_loop_wf app (files : list TFile) : forall acc,
  JsMap.wf acc ->
  JsMap.wf (fold_left (fun m f => JsMap.set m (path f) (fileTF getIndexableContent app f))
                      files acc).
Proof.
  induction files as [|f files IH]; intros acc H; [exact H|].
  cbn [fold_left]. apply IH, wf_set, H.
Qed.

Lemma indexVault_sameKeys app st : sameKeys st -> sameKeys (indexVault' app st).
Proof.
  intro H. unfold indexVault.
  destruct (List.length (getMarkdownFiles app st) =? 0)%nat; [exact H|].
  unfold sameKeys. cbn [tfMaps tfidfVectors].
  rewrite keys_rebuildVectors; [reflexivity | apply files_loop_wf, wf_nil].
Qed.

Lemma indexNote_sameKeys app st f : sameKeys st -> sameKeys (indexNote' app st f).
Proof.
  intro H. unfold indexNote. destruct (indexReady st); [|exact H].
  unfold sameKeys in *. cbn [negb tfMaps tfidfVectors].
  rewrite !keys_set, (has_same_keys _ (tfidfVectors st) _ H), H. reflexivity.
Qed.

Lemma removeNote_sameKeys st p : sameKeys st -> sameKeys (removeNote st p).
Proof.
  unfold sameKeys. cbn [removeNote tfMaps tfidfVectors].
  rewrite !keys_delete. intros ->. reflexivity.
Qed.

Lemma step_sameKeys st op :
  ~ failsOnParsedFile' st op -> sameKeys st -> sameKeys (step' st op).
Proof.
  intros Hclean H. destruct op as [app | app f | p | app | folders]; cbn [step].
  - apply indexVault_sameKeys, H.
  - apply indexNote_sameKeys, H.
  - apply removeNote_sameKeys, H.
  - destruct (loadIndex_cases leafNumber app st)
      as [[_ E] | [(data & tfs & Hfile & E) | (tfs & idfTable & Hwf & E)]].
    + rewrite E. exact H.
    + exfalso. apply Hclean. exists app, data. rewrite E. auto.
    + rewrite E. unfold sameKeys. cbn [fst tfMaps tfidfVectors].
      rewrite keys_rebuildVectors by exact Hwf. reflexivity.
  - exact H.
Qed.

Lemma run_sameKeys ops : forall st,
  cleanRun' ops st -> sameKeys st -> sameKeys (run' ops st).
Proof.
  induction ops as [|op ops IH]; intros st Hclean H; [exact H|].
  destruct Hclean as [Hop Hrest]. cbn [run fold_left].
  apply IH; [exact Hrest | apply step_sameKeys; assumption].
Qed.

Lemma indexVault_freshIdf app st :
  getMarkdownFiles app st <> [] -> freshIdf (indexVault' app st).
Proof.
  intro H. unfold indexVault.
  destruct (getMarkdownFiles app st); [congruence | reflexivity].
Qed.

Lemma indexNote_freshIdf app st f :
  indexReady st = true -> freshIdf (indexNote' app st f).
Proof. intro H. unfold indexNote. rewrite H. reflexivity. Qed.

(** C3, amended: after every sequence of full builds, upserts, removals and
    restores in which no restore fails on a file that parsed, every
    document identifier of the TF maps has a TF-IDF vector (and every
    vector belongs to an identifier of the TF maps); the IDF table is the
    IDF computed from scratch over the current TF maps right after a full
    build of at least one document and right after an upsert on a ready
    engine; a removal leaves the table as it was. *)
Theorem index_invariant (folders : list string) (ops : list Operation) :
  cleanRun' ops (newEngine folders) ->
  let st := run' ops (newEngine folders) in
  JsMap.keys (tfMaps st) = JsMap.keys (tfidfVectors st)
  /\ (forall p, JsMap.has (tfMaps st) p = true ->
        exists vector, JsMap.get (tfidfVectors st) p = Some vector)
  /\ (forall app, getMarkdownFiles app st <> [] -> freshIdf (indexVault' app st))
  /\ (forall app f, isReady st = true -> freshIdf (indexNote' app st f))
  /\ (forall p, idf (removeNote st p) = idf st).
Proof.
  intros Hclean st.
  assert (Hkeys : sameKeys st) by (apply run_sameKeys; [exact Hclean | reflexivity]).
  split; [exact Hkeys|]. split; [|split; [|split]].
  - intros p Hp. rewrite (has_same_keys _ (tfidfVectors st) _ Hkeys) in Hp.
    unfold JsMap.has in Hp.
    destruct (JsMap.get (tfidfVectors st) p) as [vector|]; [eauto | discriminate].
  - intros app. apply indexVault_freshIdf.
  - intros app f. apply indexNote_freshIdf.
  - reflexivity.
Qed.

End IndexInvariant.

(** C3, as stated, fails: a full build over "apple" and "banana", then the
    removal of the second note, leaves the term of the removed note in the
    IDF table; the table computed from scratch over the remaining TF map
    has no such term. *)
Lemma removeNote_leaves_stale_terms :
  let st := run plainIndexableContent numberLeaf
              [IndexVault (vaultOf [fileA; fileB]); RemoveNote "b.md"]
              (newEngine []) in
  JsMap.keys (tfMaps st) = ["a.md"]
  /\ JsMap.keys (idf st) = ["apple"; "banana"]
  /\ JsMap.keys (computeIDF (JsMap.values (tfMaps st))) = ["apple"]
  /\ idf st <> computeIDF (JsMap.values (tfMaps st)).
Proof.
  cbv zeta.
  assert (H1 : JsMap.keys (idf (run plainIndexableContent numberLeaf
              [IndexVault (vaultOf [fileA; fileB]); RemoveNote "b.md"]
              (newEngine []))) = ["apple"; "banana"]) by (vm_compute; reflexivity).
  assert (H2 : JsMap.keys (computeIDF (JsMap.values (tfMaps (run plainIndexableContent numberLeaf
              [IndexVault (vaultOf [fileA; fileB]); RemoveNote "b.md"]
              (newEngine []))))) = ["apple"]) by (vm_compute; reflexivity).
  split; [vm_compute; reflexivity|]. split; [exact H1|]. split; [exact H2|].
  intro E. rewrite E, H2 in H1. discriminate H1.
Qed.

Lemma index_invariant_witness :
  let st := run plainIndexableContent numberLeaf sampleRun (newEngine []) in
  JsMap.keys (tfMaps st) = JsMap.keys (tfidfVectors st)
  /\ (forall p, JsMap.has (tfMaps st) p = true ->
        exists vector, JsMap.get (tfidfVectors st) p = Some vector)
  /\ (forall app, getMarkdownFiles app st <> [] ->
        freshIdf (indexVault plainIndexableContent app st))
  /\ (forall app f, isReady st = true ->
        freshIdf (indexNote plainIndexableContent app st f))
  /\ (forall p, idf (removeNote st p) = idf st).
Proof.
  apply (index_invariant plainIndexableContent numberLeaf [] sampleRun).
  cbn [sampleRun cleanRun].
  repeat split;
    intros (app & data & Heq & Hfile & _); try discriminate Heq.
  injection Heq as <-. discriminate Hfile.
Defined.

(* ================================================================== *)
(** ** Removing a note and indexing it again *)

Lemma perm_delete {V : Type} (m : JsMap V) k v :
  JsMap.wf m -> JsMap.get m k = Some v -> Permutation m ((k, v) :: JsMap.delete m k).
Proof.
  unfold JsMap.wf, JsMap.delete.
  induction m as [|[k' v'] m IH]; cbn; [discriminate|].
  intros Hwf Hget. inversion Hwf as [|? ? Hfresh Hwf']; subst.
  destruct (String.eqb k' k) eqn:E; cbn.
  - apply String.eqb_eq in E. subst k'. injection Hget as ->.
    constructor. 
    assert (Hid : filter (fun e => negb (String.eqb (fst e) k)) m = m).
    { apply forallb_filter_id, forallb_forall. intros [k0 v0] Hin. cbn.
      apply negb_true_iff, String.eqb_neq. intros ->. apply Hfresh.
      change k with (fst (k, v0)). apply in_map, Hin. }
    rewrite Hid. reflexivity.
  - rewrite perm_swap. constructor. apply IH; assumption.
Qed.

Lemma set_after_delete {V : Type} (m : JsMap V) k v :
  JsMap.set (JsMap.delete m k) k v = JsMap.delete m k ++ [(k, v)].
Proof. apply set_fresh. apply get_None_keys, get_delete_same. Qed.

Lemma values_roundtrip {V : Type} (m : JsMap V) k v :
  JsMap.wf m -> JsMap.get m k = Some v ->
  Permutation (JsMap.values (JsMap.set (JsMap.delete m k) k v)) (JsMap.values m).
Proof.
  intros Hwf Hget. unfold JsMap.values. apply Permutation_map.
  rewrite set_after_delete. rewrite (perm_delete m k v Hwf Hget) at 2.
  symmetry. apply Permutation_cons_append.
Qed.

Lemma docCount_perm term (docs docs' : list (JsMap R)) :
  Permutation docs docs' -> docCount term docs = docCount term docs'.
Proof.
  unfold docCount. induction 1 as [| d l l' _ IH | d d' l | l l' l'' _ IH1 _ IH2];
    cbn [filter].
  - reflexivity.
  - destruct (JsMap.has d term); cbn [List.length]; congruence.
  - destruct (JsMap.has d term), (JsMap.has d' term); reflexivity.
  - congruence.
Qed.

Lemma documentFrequencies_positive (documents : list (JsMap R)) :
  Forall (fun e => 1 <= snd e) (documentFrequencies documents).
Proof.
  unfold documentFrequencies.
  assert (H : Forall (fun e : string * R => 1 <= snd e) []) by constructor.
  revert H. generalize (@nil (string * R)) as df.
  induction documents as [|doc documents IH]; intros df H; [exact H|].
  cbn [fold_left]. apply IH, counts_positive, H.
Qed.

(** The table, term by term: nothing for a term of no document. *)
Lemma computeIDF_lookup (documents : list (JsMap R)) t :
  Forall JsMap.wf documents ->
  JsMap.get (computeIDF documents) t
  = if (docCount t documents =? 0)%nat then None
    else Some (ln (INR (List.length documents) / (1 + INR (docCount t documents)))).
Proof.
  intro Hwf. destruct (docCount t documents =? 0)%nat eqn:E.
  - apply Nat.eqb_eq in E. destruct documents as [|doc documents]; [reflexivity|].
    rewrite computeIDF_entries by discriminate.
    rewrite (get_map_values (fun _ freq => ln (_ / (1 + freq)))).
    pose proof (get_frequencies (doc :: documents) t [] Hwf) as H.
    fold (documentFrequencies (doc :: documents)) in H. rewrite E in H.
    cbn [JsMap.get orZero INR] in H.
    destruct (JsMap.get (documentFrequencies (doc :: documents)) t) as [v|] eqn:G;
      [|reflexivity].
    apply get_Some_In in G.
    pose proof (documentFrequencies_positive (doc :: documents)) as Hpos.
    rewrite Forall_forall in Hpos. specialize (Hpos _ G). cbn [snd orZero] in *. lra.
  - apply Nat.eqb_neq in E. apply computeIDF_get; [exact Hwf | lia].
Qed.

Lemma computeIDF_perm (docs docs' : list (JsMap R)) t :
  Permutation docs docs' -> Forall JsMap.wf docs ->
  JsMap.get (computeIDF docs) t = JsMap.get (computeIDF docs') t.
Proof.
  intros Hperm Hwf.
  rewrite !computeIDF_lookup by (try exact Hwf; eapply Permutation_Forall; eassumption).
  rewrite (docCount_perm t _ _ Hperm), (Permutation_length Hperm). reflexivity.
Qed.

(** C2, amended: on a ready index whose IDF table is the one computed from
    scratch over the current TF maps, and for an indexed note whose TF-IDF
    vector was computed against that table, removing the note and indexing
    it again with the identical text yields the TF-IDF vector it had
    before, and an IDF table with the entries of the table before. *)
Theorem remove_then_index_restores_vector
    (getIndexableContent : TFile -> string -> string)
    (app : App) (st : EmbeddingEngine) (f : TFile) :
  indexReady st = true ->
  JsMap.wf (tfMaps st) ->
  Forall JsMap.wf (JsMap.values (tfMaps st)) ->
  JsMap.get (tfMaps st) (path f) = Some (fileTF getIndexableContent app f) ->
  freshIdf st ->
  JsMap.get (tfidfVectors st) (path f)
  = Some (computeTFIDF (fileTF getIndexableContent app f) (idf st)) ->
  let st' := indexNote getIndexableContent app (removeNote st (path f)) f in
  JsMap.get (tfidfVectors st') (path f) = JsMap.get (tfidfVectors st) (path f)
  /\ (forall term, JsMap.get (idf st') term = JsMap.get (idf st) term)
  /\ JsMap.get (tfMaps st') (path f) = JsMap.get (tfMaps st) (path f).
Proof.
  intros Hready Hwf Hdocs Htf Hfresh Hvec st'.
  set (tf := fileTF getIndexableContent app f) in *.
  assert (Hst' : st' = {| tfMaps := JsMap.set (JsMap.delete (tfMaps st) (path f)) (path f) tf;
                          idf := computeIDF (JsMap.values
                                   (JsMap.set (JsMap.delete (tfMaps st) (path f)) (path f) tf));
                          tfidfVectors :=
                            JsMap.set (JsMap.delete (tfidfVectors st) (path f)) (path f)
                              (computeTFIDF tf
                                 (computeIDF (JsMap.values
                                    (JsMap.set (JsMap.delete (tfMaps st) (path f)) (path f) tf))));
                          indexReady := true;
                          excludedFolders := excludedFolders st |}).
  { subst st'. unfold indexNote, removeNote. cbn [indexReady tfMaps tfidfVectors excludedFolders idf].
    rewrite Hready. reflexivity. }
  assert (Hidf : forall term, JsMap.get (idf st') term = JsMap.get (idf st) term).
  { intro term. rewrite Hst'. cbn [idf]. rewrite Hfresh.
    apply computeIDF_perm; [apply values_roundtrip; assumption|].
    eapply Permutation_Forall; [symmetry; apply values_roundtrip; eassumption | exact Hdocs]. }
  split; [|split; [exact Hidf|]].
  - rewrite Hvec, Hst'. cbn [tfidfVectors]. rewrite get_set_same. f_equal.
    apply computeTFIDF_ext. intros term _.
    specialize (Hidf term). rewrite Hst' in Hidf. exact Hidf.
  - rewrite Htf, Hst'. cbn [tfMaps]. apply get_set_same.
Qed.

Lemma remove_then_index_restores_vector_witness :
  let app := vaultOf [fileA; fileB] in
  let st := indexVault plainIndexableContent app (newEngine []) in
  let st' := indexNote plainIndexableContent app (removeNote st (path fileA)) fileA in
  JsMap.get (tfidfVectors st') (path fileA) = JsMap.get (tfidfVectors st) (path fileA)
  /\ (forall term, JsMap.get (idf st') term = JsMap.get (idf st) term)
  /\ JsMap.get (tfMaps st') (path fileA) = JsMap.get (tfMaps st) (path fileA).
Proof.
  apply (remove_then_index_restores_vector plainIndexableContent
           (vaultOf [fileA; fileB])
           (indexVault plainIndexableContent (vaultOf [fileA; fileB]) (newEngine []))
           fileA).
  - reflexivity.
  - unfold JsMap.wf. vm_compute. repeat constructor; cbn; intuition discriminate.
  - vm_compute. repeat constructor; cbn; intuition discriminate.
  - vm_compute. reflexivity.
  - reflexivity.
  - reflexivity.
Defined.

Lemma ln_three_halves_positive : 0 < (0 + 1) / INR 1 * ln (INR 3 / (1 + (0 + 1))).
Proof.
  cbn [INR]. replace ((0 + 1) / 1) with 1 by lra. rewrite Rmult_1_l.
  pose proof (ln_increasing 1 ((1 + 1 + 1) / (1 + (0 + 1)))) as H.
  rewrite ln_1 in H. apply H; lra.
Qed.

Lemma ln_two_halves_zero : (0 + 1) / INR 1 * ln (INR 2 / (1 + (0 + 1))) = 0.
Proof.
  cbn [INR]. replace ((1 + 1) / (1 + (0 + 1))) with 1 by lra.
  rewrite ln_1. lra.
Qed.

(** C2, as stated, fails: build over "apple", "banana" and "cherry", then
    remove the third note; the index is ready and the first note is
    indexed.  Removing the first note and indexing it again with the same
    text recomputes the table over two documents: "apple" is now in one of
    two documents instead of one of three, its IDF falls to ln(2/2) = 0,
    and the vector of the note, one positive entry before, is empty. *)
Lemma remove_then_index_changes_vector :
  let st := run plainIndexableContent numberLeaf
              [IndexVault (vaultOf [fileA; fileB; fileC]); RemoveNote "c.md"]
              (newEngine []) in
  let app := vaultOf [fileA; fileB] in
  let st' := indexNote plainIndexableContent app (removeNote st "a.md") fileA in
  JsMap.get (tfidfVectors st') "a.md" <> JsMap.get (tfidfVectors st) "a.md"
  /\ isReady st = true
  /\ JsMap.get (tfMaps st) "a.md" = Some (fileTF plainIndexableContent app fileA)
  /\ (exists weight, 0 < weight
        /\ JsMap.get (tfidfVectors st) "a.md" = Some [("apple", weight)])
  /\ JsMap.get (tfidfVectors st') "a.md" = Some []
  /\ JsMap.keys (idf st) = ["apple"; "banana"; "cherry"]
  /\ JsMap.keys (idf st') = ["banana"; "apple"].
Proof.
  cbv zeta.
  set (st := run _ _ _ _).
  set (st' := indexNote _ _ _ _).
  assert (Hbefore : JsMap.get (tfidfVectors st) "a.md"
                    = Some [("apple", (0 + 1) / INR 1 * ln (INR 3 / (1 + (0 + 1))))]).
  { subst st. cbv -[Rgtb Rplus Rmult Rdiv ln INR Rinv IZR].
    rewrite (proj2 (Rgtb_true _ _) ln_three_halves_positive). reflexivity. }
  assert (Hafter : JsMap.get (tfidfVectors st') "a.md" = Some []).
  { subst st' st. cbv -[Rgtb Rplus Rmult Rdiv ln INR Rinv IZR].
    rewrite (proj2 (Rgtb_false _ _)); [reflexivity|].
    rewrite ln_two_halves_zero. lra. }
  split; [rewrite Hbefore, Hafter; discriminate|].
  split; [reflexivity|].
  split; [subst st; vm_compute; reflexivity|].
  split; [eexists; split; [apply ln_three_halves_positive | exact Hbefore]|].
  split; [exact Hafter|].
  split; subst st' st; vm_compute; reflexivity.
Qed.

(* ================================================================== *)
(** ** The reasons of the daily digest *)

Lemma digestReason_priority rel decay orphan :
  byThresholdPriority rel decay orphan (digestReason rel decay orphan).
Proof.
  unfold byThresholdPriority, digestReason.
  destruct (Rgtb rel 0.3) eqn:E1;
    [apply Rgtb_true in E1; repeat split; intros; (reflexivity || lra)|].
  apply Rgtb_false in E1.
  destruct (Rgtb decay 0.8) eqn:E2;
    [apply Rgtb_true in E2; repeat split; intros; (reflexivity || lra)|].
  apply Rgtb_false in E2.
  destruct (Rgtb orphan 0.5) eqn:E3;
    [apply Rgtb_true in E3 | apply Rgtb_false in E3];
    repeat split; intros; (reflexivity || lra).
Qed.

Lemma forgottenReason_cases daysSince orphan :
  byOrphanThenAge daysSince orphan (forgottenReason daysSince orphan).
Proof.
  unfold byOrphanThenAge, forgottenReason.
  destruct (Rgtb orphan 0.5) eqn:E; [apply Rgtb_true in E | apply Rgtb_false in E];
    split; intros; (reflexivity || lra).
Qed.

Section DigestFacts.

Variable getSnippet : App -> TFile -> string.

Lemma scoreCandidate_entry app now c :
  anchoredEntry app now (scoreCandidate getSnippet app now c).
Proof.
  exists (maxSimilarity c). cbn. split; [reflexivity | apply digestReason_priority].
Qed.

Lemma scoreForgotten_entry app now f :
  forgottenEntry app now (scoreForgotten getSnippet app now f).
Proof. split; [reflexivity | apply forgottenReason_cases]. Qed.

Lemma getForgottenNotes_entries app now minDaysOld count :
  Forall (forgottenEntry app now) (getForgottenNotes getSnippet app now minDaysOld count).
Proof.
  unfold getForgottenNotes. apply firstn_Forall, sortDesc_Forall, Forall_map.
  apply Forall_forall. intros f _. apply scoreForgotten_entry.
Qed.

(** C4, amended: on the path with anchors every entry of the daily digest
    carries the reason chosen by threshold priority: relevance > 0.3 gives
    "related to recent work", otherwise staleness > 0.8 gives "written long
    ago", otherwise connectivity boost > 0.5 gives "unlinked", otherwise
    the generic "forgotten note".  On the fallback without recent anchors,
    where the relevance in the score is fixed at 0.3, staleness chooses no
    reason: connectivity boost > 0.5 gives "unlinked", and every other
    entry carries "Not modified in N days". *)
Theorem getDailyDigest_reasons (app : App) (st : EmbeddingEngine)
    (now minDaysOld : R) (count : nat) :
  (getRecentlyModifiedFiles app now 3 <> [] ->
   Forall (anchoredEntry app now)
          (getDailyDigest getSnippet app st now minDaysOld count))
  /\ (getRecentlyModifiedFiles app now 3 = [] ->
      Forall (forgottenEntry app now)
             (getDailyDigest getSnippet app st now minDaysOld count))
  /\ (isReady st = false -> getDailyDigest getSnippet app st now minDaysOld count = []).
Proof.
  unfold getDailyDigest.
  destruct (isReady st); cbn [negb];
    [|repeat split; intros; (constructor || reflexivity)].
  split; [|split; [|discriminate]].
  - intro H. destruct (getRecentlyModifiedFiles app now 3) as [|f0 recent] eqn:E;
      [congruence|]. cbn [List.length Nat.eqb].
    apply firstn_Forall, sortDesc_Forall, Forall_map.
    apply Forall_forall. intros c _. apply scoreCandidate_entry.
  - intros ->. cbn [List.length Nat.eqb]. apply getForgottenNotes_entries.
Qed.

End DigestFacts.

Lemma Math_round_integer (z : Z) : Math_round (IZR z) = z.
Proof.
  unfold Math_round.
  assert (H : (z + 1)%Z = up (IZR z + / 2)).
  { apply tech_up; rewrite plus_IZR; lra. }
  rewrite <- H. lia.
Qed.

Lemma linkedVault_no_recent : getRecentlyModifiedFiles linkedVault tenDays 3 = [].
Proof.
  unfold getRecentlyModifiedFiles.
  change (vault_getMarkdownFiles linkedVault) with [oldNote].
  cbn [filter mtime oldNote].
  rewrite (proj2 (Rgtb_false _ _)); [reflexivity|].
  unfold tenDays, msPerDay. lra.
Qed.

Lemma linkedVault_days : getDaysSinceModified tenDays oldNote = 10.
Proof. unfold getDaysSinceModified, tenDays, msPerDay. cbn [mtime oldNote]. lra. Qed.

(** C4, as stated, fails on the fallback: ten days after its last change, a
    note with one backlink and no recent anchor in the vault is resurfaced
    with the reason "Not modified in 10 days", which is none of the four
    reasons of the threshold priority. *)
Lemma fallback_reason_is_the_age :
  let st := indexVault plainIndexableContent linkedVault (newEngine []) in
  let digest := getDailyDigest (fun _ _ => "") linkedVault st tenDays 7 5 in
  isReady st = true
  /\ getRecentlyModifiedFiles linkedVault tenDays 3 = []
  /\ map note digest = [oldNote]
  /\ map reason digest = ["Not modified in 10 days"]
  /\ ~ byThresholdPriority 0.3
         (timeDecayScore tenDays (mtime oldNote))
         (orphanBoost (getBacklinkCount linkedVault oldNote))
         "Not modified in 10 days".
Proof.
  cbv zeta.
  assert (Hr : isReady (indexVault plainIndexableContent linkedVault (newEngine [])) = true)
    by (vm_compute; reflexivity).
  split; [exact Hr|]. split; [apply linkedVault_no_recent|].
  assert (Hdigest :
    getDailyDigest (fun _ _ => "") linkedVault
      (indexVault plainIndexableContent linkedVault (newEngine [])) tenDays 7 5
    = [scoreForgotten (fun _ _ => "") linkedVault tenDays oldNote]).
  { unfold getDailyDigest.
    rewrite Hr, linkedVault_no_recent. cbn [negb List.length Nat.eqb].
    unfold getForgottenNotes.
    change (vault_getMarkdownFiles linkedVault) with [oldNote].
    cbn [filter]. rewrite linkedVault_days.
    rewrite (proj2 (Rltb_false 10 7)) by lra. reflexivity. }
  rewrite Hdigest. split; [reflexivity|]. split.
  - unfold scoreForgotten. cbn [map reason]. rewrite linkedVault_days.
    change (getBacklinkCount linkedVault oldNote) with 1%nat.
    unfold forgottenReason. cbn [orphanBoost Nat.eqb].
    rewrite (proj2 (Rgtb_false 0.5 0.5)) by lra.
    rewrite (Math_round_integer 10). reflexivity.
  - change (getBacklinkCount linkedVault oldNote) with 1%nat. cbn [orphanBoost Nat.eqb].
    intros (_ & Hlong & _ & Hforgot).
    destruct (Rle_lt_dec (timeDecayScore tenDays (mtime oldNote)) 0.8) as [Hle | Hgt].
    + specialize (Hforgot ltac:(lra) Hle ltac:(lra)). discriminate Hforgot.
    + specialize (Hlong ltac:(lra) Hgt). discriminate Hlong.
Qed.

(* ================================================================== *)
(** ** A restored index at work *)

Lemma restored_state :
  restored
  = {| tfMaps := [("today.md", [("apple", 1)]); ("old.md", [("apple", 2)]);
                  ("other.md", [("berry", 1)])];
       idf := [("apple", 1); ("berry", 1)];
       tfidfVectors := [("today.md", [("apple", 1 * 1)]); ("old.md", [("apple", 2 * 1)]);
                        ("other.md", [("berry", 1 * 1)])];
       indexReady := true;
       excludedFolders := [] |}.
Proof.
  unfold restored. cbv -[Rgtb Rmult IZR].
  rewrite !(proj2 (Rgtb_true _ 0)) by lra. reflexivity.
Qed.

Lemma sqrt_of_square (x y : R) : 0 <= x -> y = x * x -> sqrt y = x.
Proof. intros Hx ->. apply sqrt_square, Hx. Qed.

Lemma cosine_apple_one_two :
  cosineSimilarity [("apple", 1 * 1)] [("apple", 2 * 1)] = 1.
Proof.
  rewrite cosineSimilarity_eq.
  cbn [dot norm2 fold_right JsMap.get String.eqb Ascii.eqb Bool.eqb orZero snd].
  rewrite (sqrt_of_square 1 (1 * 1 * (1 * 1) + 0)) by lra.
  rewrite (sqrt_of_square 2 (2 * 1 * (2 * 1) + 0)) by lra.
  rewrite (proj2 (Reqb_false (1 * 2) 0)) by lra. lra.
Qed.

Lemma cosine_apple_berry :
  cosineSimilarity [("apple", 1 * 1)] [("berry", 1 * 1)] = 0.
Proof.
  rewrite cosineSimilarity_eq.
  cbn [dot norm2 fold_right JsMap.get String.eqb Ascii.eqb Bool.eqb orZero snd].
  rewrite (sqrt_of_square 1 (1 * 1 * (1 * 1) + 0)) by lra.
  rewrite (proj2 (Reqb_false (1 * 1) 0)) by lra. lra.
Qed.

(** The note that shares the term of the queried note is found, with
    similarity 1; the queried note and the note without a shared term are
    not. *)
Example findSimilar_restored (k : nat) :
  findSimilar workVault restored todayNote (S k)
  = [ {| file := oldNote; similarity := 1 |} ].
Proof.
  unfold findSimilar. rewrite restored_state.
  cbn [indexReady negb tfidfVectors path todayNote JsMap.get String.eqb Ascii.eqb Bool.eqb].
  rewrite similarityScores_eq.
  cbn [flat_map scoreOf fst snd String.eqb Ascii.eqb Bool.eqb app].
  rewrite cosine_apple_one_two, cosine_apple_berry.
  rewrite (proj2 (Rgtb_true 1 0.01)) by lra.
  rewrite (proj2 (Rgtb_false 0 0.01)) by lra.
  cbn [app sortDesc fold_right insertDesc firstn]. rewrite firstn_nil. reflexivity.
Qed.

(** The digest on the path with anchors: the note changed today is the
    anchor, the old note that shares its term is resurfaced as related. *)
Example getDailyDigest_anchored :
  let digest := getDailyDigest (fun _ _ => "") workVault restored tenDays 7 5 in
  map note digest = [oldNote] /\ map reason digest = [reasonRelated].
Proof.
  cbv zeta.
  assert (Hrecent : getRecentlyModifiedFiles workVault tenDays 3 = [todayNote]).
  { unfold getRecentlyModifiedFiles.
    change (vault_getMarkdownFiles workVault) with [todayNote; oldNote; otherNote].
    cbn [filter mtime todayNote oldNote otherNote].
    rewrite (proj2 (Rgtb_true tenDays _)) by (unfold tenDays, msPerDay; lra).
    rewrite !(proj2 (Rgtb_false 0 _)) by (unfold tenDays, msPerDay; lra).
    reflexivity. }
  unfold getDailyDigest.
  replace (isReady restored) with true by (rewrite restored_state; reflexivity).
  rewrite Hrecent. cbn [negb List.length Nat.eqb fold_left].
  rewrite findSimilar_restored. unfold addCandidates.
  cbn [fold_left file similarity]. rewrite linkedVault_days.
  rewrite (proj2 (Rltb_false 10 7)) by lra.
  cbn [JsMap.get JsMap.set JsMap.values map snd sortDesc fold_right insertDesc firstn].
  unfold scoreCandidate. cbn [map note reason c_file maxSimilarity].
  split; [reflexivity|].
  unfold digestReason, relevanceScore.
  rewrite (proj2 (Rgtb_true _ 0.3)); [reflexivity|].
  unfold Rmin, Rmax. destruct (Rle_dec 1 0); [lra|].
  destruct (Rle_dec 1 1); lra.
Qed.

(* ================================================================== *)
(** ** Further properties of the index and of the digest *)

(** X1: every token that [tokenize] returns has at least three characters,
    each a lower-case letter or the underscore: no digit, no upper-case
    letter, no white space, no punctuation. *)
Theorem tokenize_token_shape (text : string) :
  Forall (fun t => allChars tokenChar t = true /\ (3 <= String.length t)%nat)
         (tokenize text).
Proof. apply tokenize_tokens. Qed.

(** X2: over a corpus of Maps, [computeIDF] holds for a term exactly
    ln(N / (1 + df)), with N the number of documents and df the number of
    documents that hold the term, and holds nothing for a term of no
    document; the table of the empty corpus is empty. *)
Theorem computeIDF_formula (documents : list (JsMap R)) (term : string) :
  Forall JsMap.wf documents ->
  JsMap.get (computeIDF documents) term
  = (if (docCount term documents =? 0)%nat then None
     else Some (ln (INR (List.length documents)
                    / (1 + INR (docCount term documents)))))
  /\ computeIDF [] = [].
Proof. intro H. split; [apply computeIDF_lookup, H | reflexivity]. Qed.

Lemma computeIDF_formula_witness :
  JsMap.get (computeIDF [ [("note", 1)]; [("note", 0.5); ("idea", 0.5)] ]) "idea"
  = Some (ln (INR 2 / (1 + INR 1)))
  /\ computeIDF [] = [].
Proof.
  apply (computeIDF_formula [ [("note", 1)]; [("note", 0.5); ("idea", 0.5)] ] "idea").
  repeat constructor; cbn; intuition discriminate.
Defined.


(** X4: the daily digest has at most [count] entries and is sorted
    non-increasing by composite score, on both paths. *)
Theorem getDailyDigest_ranked (getSnippet : App -> TFile -> string) (app : App)
    (st : EmbeddingEngine) (now minDaysOld : R) (count : nat) :
  (List.length (getDailyDigest getSnippet app st now minDaysOld count) <= count)%nat
  /\ StronglySorted (fun a b => score b <= score a)
                    (getDailyDigest getSnippet app st now minDaysOld count).
Proof.
  unfold getDailyDigest, getForgottenNotes.
  destruct (negb (isReady st)); [split; [cbn; lia | constructor]|].
  destruct (List.length (getRecentlyModifiedFiles app now 3) =? 0)%nat;
    (split; [apply firstn_le_length | apply firstn_sorted, sortDesc_sorted]).
Qed.

(** X5: the contextual suggestions are at most [count] notes, each at
    least [minDaysOld] days old, none of them the current note, in the
    order of [findSimilar]: non-increasing by similarity. *)
Theorem getContextualSuggestions_result (app : App) (st : EmbeddingEngine)
    (now minDaysOld : R) (currentFile : TFile) (count : nat) :
  let suggestions := getContextualSuggestions app st now minDaysOld currentFile count in
  (List.length suggestions <= count)%nat
  /\ Forall (fun s => minDaysOld <= getDaysSinceModified now (file s)
                      /\ path (file s) <> path currentFile) suggestions
  /\ StronglySorted (fun a b => similarity b <= similarity a) suggestions.
Proof.
  cbv zeta. unfold getContextualSuggestions.
  destruct (negb (isReady st)); [repeat split; (cbn; lia) || constructor|].
  destruct (findSimilar_ranked app st currentFile (count * 3))
    as (ranked & -> & Hranked & Hsorted & _).
  apply (similarNotes_sorted app) in Hsorted.
  split; [apply firstn_le_length|]. split.
  - apply firstn_Forall, Forall_forall. intros s Hs.
    apply filter_In in Hs as [Hin Hold]. apply Rgeb_true in Hold.
    split; [exact Hold|].
    apply similarNotes_in in Hin as (s0 & Hs0 & _ & ->).
    rewrite Forall_forall in Hranked. apply (Hranked s0 Hs0).
  - apply firstn_sorted. clear Hranked.
    induction Hsorted as [|s l Hl IH Hs]; cbn [filter]; [constructor|].
    destruct (Rgeb _ minDaysOld); [|exact IH].
    constructor; [exact IH|].
    apply Forall_forall. intros s' Hs'. apply filter_In in Hs' as [Hin _].
    rewrite Forall_forall in Hs. apply Hs, Hin.
Qed.

(* ================================================================== *)
(** ** The similarity with an empty vector *)

Lemma cosineSimilarity_empty_source (vec : JsMap R) : cosineSimilarity [] vec = 0.
Proof.
  rewrite cosineSimilarity_eq. change (norm2 []) with 0.
  rewrite sqrt_0, Rmult_0_l.
  rewrite (proj2 (Reqb_true 0 0) eq_refl). reflexivity.
Qed.

(* ================================================================== *)
(** ** The scores *)

Lemma relevanceScore_range (sim : R) : 0 <= relevanceScore sim <= 1.
Proof.
  unfold relevanceScore, Rmin, Rmax.
  destruct (Rle_dec sim 0); destruct (Rle_dec _ 1); lra.
Qed.

Lemma msPerDay_positive : 0 < msPerDay.
Proof. unfold msPerDay. lra. Qed.

Lemma exp_neg_below_one (x : R) : 0 < x -> exp (- x) < 1.
Proof.
  intro H. pose proof (exp_increasing (- x) 0 ltac:(lra)) as H1.
  rewrite exp_0 in H1. exact H1.
Qed.

Lemma one_minus_exp_neg_le (x : R) : 1 - exp (- x) <= x.
Proof. pose proof (exp_ineq1_le (- x)). lra. Qed.

Lemma days_nonneg (now m : R) : m <= now -> 0 <= (now - m) / msPerDay.
Proof.
  intro H. apply Rmult_le_pos; [lra|]. left. apply Rinv_0_lt_compat, msPerDay_positive.
Qed.

Lemma timeDecayScore_range (now m : R) : m <= now -> 0 <= timeDecayScore now m < 1.
Proof.
  intro H. unfold timeDecayScore. pose proof (days_nonneg now m H) as Hd.
  set (d := (now - m) / msPerDay) in *. split.
  - destruct (Req_dec d 0) as [-> | Hne].
    + replace (- 0 / 20) with 0 by lra. rewrite exp_0. lra.
    + pose proof (exp_neg_below_one (d / 20) ltac:(lra)) as H1.
      replace (- d / 20) with (- (d / 20)) by lra. lra.
  - pose proof (exp_pos (- d / 20)). lra.
Qed.

Lemma orphanBoost_cases (n : nat) :
  (n = 0%nat /\ orphanBoost n = 1)
  \/ (n = 1%nat /\ orphanBoost n = 0.5)
  \/ ((2 <= n <= 3)%nat /\ orphanBoost n = 0.2)
  \/ ((4 <= n)%nat /\ orphanBoost n = 0).
Proof.
  destruct n as [|[|[|[|n]]]]; cbn.
  - left. auto.
  - right. left. auto.
  - right. right. left. split; [lia | reflexivity].
  - right. right. left. split; [lia | reflexivity].
  - right. right. right. split; [lia | reflexivity].
Qed.

Lemma orphanBoost_range (n : nat) : 0 <= orphanBoost n <= 1.
Proof.
  destruct (orphanBoost_cases n) as [[_ ->] | [[_ ->] | [[_ ->] | [_ ->]]]]; lra.
Qed.

Lemma compositeScore_eq (rel decay orphan : R) :
  compositeScore rel decay orphan = rel * 0.5 + decay * 0.35 + orphan * 0.15.
Proof. reflexivity. Qed.





(** X8: the orphan boost is 1 exactly for a note without backlink, 0
    exactly from four backlinks on, and never grows with the number of
    backlinks. *)
Theorem orphanBoost_rewards_isolation (n m : nat) :
  (orphanBoost n = 1 <-> n = 0%nat)
  /\ (orphanBoost n = 0 <-> (4 <= n)%nat)
  /\ ((n <= m)%nat -> orphanBoost m <= orphanBoost n).
Proof.
  destruct (orphanBoost_cases n) as [[Hn En] | [[Hn En] | [[Hn En] | [Hn En]]]];
    rewrite En; repeat split; intros; try lra; try lia;
    destruct (orphanBoost_cases m) as [[Hm Em] | [[Hm Em] | [[Hm Em] | [Hm Em]]]];
    rewrite Em; try lra; lia.
Qed.

(* ================================================================== *)
(** ** What the operations of the engine change, and what they leave *)

Lemma set_set_same {V : Type} (m : JsMap V) k v v' :
  JsMap.set (JsMap.set m k v') k v = JsMap.set m k v.
Proof.
  induction m as [|[k0 v0] m IH]; cbn.
  - rewrite String.eqb_refl. reflexivity.
  - destruct (String.eqb k0 k) eqn:E; cbn; rewrite E; [reflexivity|].
    rewrite IH. reflexivity.
Qed.

Lemma delete_absent {V : Type} (m : JsMap V) k :
  JsMap.has m k = false -> JsMap.delete m k = m.
Proof.
  unfold JsMap.has, JsMap.delete.
  induction m as [|[k0 v0] m IH]; cbn; [reflexivity|].
  destruct (String.eqb k0 k) eqn:E; cbn; [discriminate|].
  intro H. rewrite IH by exact H. reflexivity.
Qed.

Lemma delete_delete {V : Type} (m : JsMap V) k k' :
  JsMap.delete (JsMap.delete m k) k' = JsMap.delete (JsMap.delete m k') k.
Proof.
  unfold JsMap.delete. induction m as [|[k0 v0] m IH]; cbn; [reflexivity|].
  destruct (String.eqb k0 k) eqn:E; destruct (String.eqb k0 k') eqn:E'; cbn;
    rewrite ?E, ?E'; cbn; rewrite IH; reflexivity.
Qed.

Lemma delete_idempotent {V : Type} (m : JsMap V) k :
  JsMap.delete (JsMap.delete m k) k = JsMap.delete m k.
Proof.
  apply delete_absent. unfold JsMap.has. rewrite get_delete_same. reflexivity.
Qed.

Section OperationFacts.

Variable getIndexableContent : TFile -> string -> string.

#[local] Abbreviation indexVault' := (indexVault getIndexableContent).
#[local] Abbreviation indexNote' := (indexNote getIndexableContent).
#[local] Abbreviation fileTF' := (fileTF getIndexableContent).

Lemma indexNote_ready_eq app st f :
  indexReady st = true ->
  indexNote' app st f
  = {| tfMaps := JsMap.set (tfMaps st) (path f) (fileTF' app f);
       idf := computeIDF (JsMap.values (JsMap.set (tfMaps st) (path f) (fileTF' app f)));
       tfidfVectors :=
         JsMap.set (tfidfVectors st) (path f)
           (computeTFIDF (fileTF' app f)
              (computeIDF (JsMap.values (JsMap.set (tfMaps st) (path f) (fileTF' app f)))));
       indexReady := true;
       excludedFolders := excludedFolders st |}.
Proof. intro H. unfold indexNote. rewrite H. reflexivity. Qed.

(** X10: on a ready engine [indexNote] stores the TF map of the file and
    its TF-IDF vector against the recomputed IDF table, whether or not the
    file lies in an excluded folder; it leaves the TF map and the vector
    of every other path untouched; and indexing the same file once more
    changes nothing. *)
Theorem indexNote_effect (app : App) (st : EmbeddingEngine) (f : TFile) :
  isReady st = true ->
  let st' := indexNote' app st f in
  JsMap.get (tfMaps st') (path f) = Some (fileTF' app f)
  /\ JsMap.get (tfidfVectors st') (path f)
     = Some (computeTFIDF (fileTF' app f) (idf st'))
  /\ idf st' = computeIDF (JsMap.values (tfMaps st'))
  /\ (forall p, p <> path f ->
        JsMap.get (tfMaps st') p = JsMap.get (tfMaps st) p
        /\ JsMap.get (tfidfVectors st') p = JsMap.get (tfidfVectors st) p)
  /\ indexNote' app st' f = st'.
Proof.
  intros Hr st'. unfold isReady in Hr. subst st'.
  rewrite (indexNote_ready_eq app st f Hr).
  cbn [tfMaps tfidfVectors idf].
  split; [apply get_set_same|]. split; [apply get_set_same|]. split; [reflexivity|].
  split.
  - intros p Hp. split; apply get_set_other; exact Hp.
  - rewrite indexNote_ready_eq by reflexivity.
    cbn [tfMaps tfidfVectors idf excludedFolders].
    rewrite !set_set_same. reflexivity.
Qed.

Lemma removeNote_eta st p :
  JsMap.has (tfMaps st) p = false -> JsMap.has (tfidfVectors st) p = false ->
  removeNote st p = st.
Proof.
  intros H1 H2. unfold removeNote. rewrite (delete_absent _ _ H1), (delete_absent _ _ H2).
  destruct st; reflexivity.
Qed.

(** X11: [removeNote] drops the TF map and the vector of the path and
    nothing else: every other path keeps both, the IDF table and the
    readiness stay; removing twice is removing once, removals commute, and
    removing a path that is not indexed changes nothing. *)
Theorem removeNote_effect (st : EmbeddingEngine) (p : string) :
  JsMap.get (tfMaps (removeNote st p)) p = None
  /\ JsMap.get (tfidfVectors (removeNote st p)) p = None
  /\ (forall q, q <> p ->
        JsMap.get (tfMaps (removeNote st p)) q = JsMap.get (tfMaps st) q
        /\ JsMap.get (tfidfVectors (removeNote st p)) q = JsMap.get (tfidfVectors st) q)
  /\ idf (removeNote st p) = idf st
  /\ isReady (removeNote st p) = isReady st
  /\ removeNote (removeNote st p) p = removeNote st p
  /\ (forall q, removeNote (removeNote st p) q = removeNote (removeNote st q) p)
  /\ (JsMap.has (tfMaps st) p = false -> JsMap.has (tfidfVectors st) p = false ->
      removeNote st p = st).
Proof.
  cbn [removeNote tfMaps tfidfVectors idf].
  split; [apply get_delete_same|]. split; [apply get_delete_same|].
  split; [intros q Hq; split; apply get_delete_other; exact Hq|].
  split; [reflexivity|]. split; [reflexivity|].
  split; [|split].
  - unfold removeNote. cbn [tfMaps tfidfVectors idf indexReady excludedFolders].
    rewrite !delete_idempotent. reflexivity.
  - intro q. unfold removeNote. cbn [tfMaps tfidfVectors idf indexReady excludedFolders].
    rewrite (delete_delete (tfMaps st)), (delete_delete (tfidfVectors st)). reflexivity.
  - apply removeNote_eta.
Qed.

Lemma files_loop_keys app (files : list TFile) : forall (acc : JsMap (JsMap R)) p,
  In p (JsMap.keys (fold_left (fun m f => JsMap.set m (path f) (fileTF' app f)) files acc))
  <-> In p (JsMap.keys acc) \/ In p (map path files).
Proof.
  induction files as [|f files IH]; intros acc p; cbn [fold_left map].
  - cbn. tauto.
  - rewrite IH, in_keys_set. cbn. intuition congruence.
Qed.

Lemma files_loop_values app (files : list TFile) : forall (acc : JsMap (JsMap R)) p tf,
  JsMap.get (fold_left (fun m f => JsMap.set m (path f) (fileTF' app f)) files acc) p = Some tf ->
  JsMap.get acc p = Some tf \/ exists f, In f files /\ path f = p /\ tf = fileTF' app f.
Proof.
  induction files as [|f files IH]; intros acc p tf H; cbn [fold_left] in H.
  - left. exact H.
  - apply IH in H as [H | (f' & Hin & Hp & Htf)].
    + destruct (string_dec p (path f)) as [-> | Hne].
      * rewrite get_set_same in H. injection H as <-.
        right. exists f. split; [left; reflexivity | auto].
      * rewrite get_set_other in H by exact Hne. left. exact H.
    + right. exists f'. split; [right; exact Hin | auto].
Qed.

Lemma indexVault_built_eq app st :
  getMarkdownFiles app st <> [] ->
  indexVault' app st
  = let tfs := fold_left (fun m f => JsMap.set m (path f) (fileTF' app f))
                         (getMarkdownFiles app st) [] in
    {| tfMaps := tfs;
       idf := computeIDF (JsMap.values tfs);
       tfidfVectors := rebuildVectors tfs (computeIDF (JsMap.values tfs));
       indexReady := true;
       excludedFolders := excludedFolders st |}.
Proof.
  intro H. unfold indexVault.
  destruct (getMarkdownFiles app st); [congruence | reflexivity].
Qed.

Lemma getMarkdownFiles_depends_on_folders app st1 st2 :
  excludedFolders st1 = excludedFolders st2 ->
  getMarkdownFiles app st1 = getMarkdownFiles app st2.
Proof. unfold getMarkdownFiles. intros ->. reflexivity. Qed.

(** X12: a full build over at least one file indexes exactly the paths of
    the markdown files outside the excluded folders, each once and with the
    TF map of a file of that path; the IDF table is the table of these TF
    maps and every vector is computed against it; and the result does not
    depend on what the engine held before. *)
Theorem indexVault_effect (app : App) (st : EmbeddingEngine) :
  getMarkdownFiles app st <> [] ->
  let st' := indexVault' app st in
  (forall p, In p (getIndexedPaths st')
             <-> exists f, In f (getMarkdownFiles app st) /\ path f = p)
  /\ NoDup (getIndexedPaths st')
  /\ (forall p tf, JsMap.get (tfMaps st') p = Some tf ->
        (exists f, In f (getMarkdownFiles app st) /\ path f = p
                   /\ tf = fileTF' app f)
        /\ JsMap.get (tfidfVectors st') p = Some (computeTFIDF tf (idf st')))
  /\ idf st' = computeIDF (JsMap.values (tfMaps st'))
  /\ isReady st' = true
  /\ (forall st2, excludedFolders st2 = excludedFolders st -> indexVault' app st2 = st').
Proof.
  intros Hfiles st'. subst st'. rewrite (indexVault_built_eq app st Hfiles). cbv zeta.
  set (tfs := fold_left (fun m f => JsMap.set m (path f) (fileTF' app f))
                        (getMarkdownFiles app st) []).
  assert (Hwf : JsMap.wf tfs) by (apply files_loop_wf, wf_nil).
  unfold getIndexedPaths. cbn [tfMaps tfidfVectors idf isReady indexReady].
  split; [|split; [exact Hwf|split; [|split; [reflexivity|split; [reflexivity|]]]]].
  - intro p. subst tfs. rewrite files_loop_keys. cbn [JsMap.keys map].
    rewrite in_map_iff. split.
    + intros [[] | (f & Hp & Hin)]. exists f. auto.
    + intros (f & Hin & Hp). right. exists f. auto.
  - intros p tf Hget. split.
    + subst tfs. apply files_loop_values in Hget as [H | H]; [discriminate H | exact H].
    + rewrite rebuildVectors_entries by exact Hwf.
      rewrite (get_map_values (fun _ tf0 => computeTFIDF tf0 _)), Hget. reflexivity.
  - intros st2 Heq.
    assert (Hsame : getMarkdownFiles app st2 = getMarkdownFiles app st)
      by (apply getMarkdownFiles_depends_on_folders, Heq).
    rewrite indexVault_built_eq by (rewrite Hsame; exact Hfiles).
    cbv zeta. rewrite Hsame, Heq. reflexivity.
Qed.

End OperationFacts.

Lemma indexNote_effect_witness :
  let app := vaultOf [fileA; fileB] in
  let st := indexVault plainIndexableContent (vaultOf [fileA]) (newEngine []) in
  let st' := indexNote plainIndexableContent app st fileB in
  JsMap.get (tfMaps st') (path fileB) = Some (fileTF plainIndexableContent app fileB)
  /\ JsMap.get (tfidfVectors st') (path fileB)
     = Some (computeTFIDF (fileTF plainIndexableContent app fileB) (idf st'))
  /\ idf st' = computeIDF (JsMap.values (tfMaps st'))
  /\ (forall p, p <> path fileB ->
        JsMap.get (tfMaps st') p = JsMap.get (tfMaps st) p
        /\ JsMap.get (tfidfVectors st') p = JsMap.get (tfidfVectors st) p)
  /\ indexNote plainIndexableContent app st' fileB = st'.
Proof.
  apply (indexNote_effect plainIndexableContent (vaultOf [fileA; fileB])
           (indexVault plainIndexableContent (vaultOf [fileA]) (newEngine [])) fileB).
  reflexivity.
Defined.

Lemma indexVault_effect_witness :
  let app := vaultOf [fileA; fileB] in
  let st := newEngine ["templates"] in
  let st' := indexVault plainIndexableContent app st in
  (forall p, In p (getIndexedPaths st')
             <-> exists f, In f (getMarkdownFiles app st) /\ path f = p)
  /\ NoDup (getIndexedPaths st')
  /\ (forall p tf, JsMap.get (tfMaps st') p = Some tf ->
        (exists f, In f (getMarkdownFiles app st) /\ path f = p
                   /\ tf = fileTF plainIndexableContent app f)
        /\ JsMap.get (tfidfVectors st') p = Some (computeTFIDF tf (idf st')))
  /\ idf st' = computeIDF (JsMap.values (tfMaps st'))
  /\ isReady st' = true
  /\ (forall st2, excludedFolders st2 = excludedFolders st ->
        indexVault plainIndexableContent app st2 = st').
Proof.
  apply (indexVault_effect plainIndexableContent (vaultOf [fileA; fileB])
           (newEngine ["templates"])).
  vm_compute. discriminate.
Defined.

(* ================================================================== *)
(** ** What holds of the vectors in every state an engine can reach *)

Lemma Forall_delete {V : Type} (P : string * V -> Prop) (m : JsMap V) k :
  Forall P m -> Forall P (JsMap.delete m k).
Proof.
  intro H. unfold JsMap.delete. apply Forall_forall. intros e He.
  apply filter_In in He as [He _]. rewrite Forall_forall in H. apply H, He.
Qed.

Lemma rebuildVectors_positive tfs idfTable : positiveVectors (rebuildVectors tfs idfTable).
Proof.
  unfold rebuildVectors, positiveVectors.
  assert (Hacc : Forall (fun e : string * JsMap R =>
                           JsMap.wf (snd e) /\ Forall (fun t => 0 < snd t) (snd e)) [])
    by constructor.
  revert Hacc. generalize (@nil (string * JsMap R)) as acc.
  induction tfs as [|[p tf] tfs IH]; intros acc Hacc; [exact Hacc|].
  cbn [fold_left]. apply IH. apply Forall_set; [|exact Hacc].
  intro. cbn [snd]. split; [apply computeTFIDF_wf | apply computeTFIDF_positive].
Qed.

Lemma rebuildVectors_wf tfs idfTable : JsMap.wf (rebuildVectors tfs idfTable).
Proof.
  unfold rebuildVectors.
  apply (set_loop_wf (fun _ tf => computeTFIDF tf idfTable) tfs [] (@wf_nil _)).
Qed.

Lemma newEngine_wellFormed folders : wellFormed (newEngine folders).
Proof. repeat split; try apply wf_nil; constructor. Qed.

Section ReachableFacts.

Variable getIndexableContent : TFile -> string -> string.
Variable leafNumber : json -> R.

#[local] Abbreviation step' := (step getIndexableContent leafNumber).
#[local] Abbreviation run' := (run getIndexableContent leafNumber).

Lemma loadIndex_tfMaps_wf app st :
  JsMap.wf (tfMaps st) -> JsMap.wf (tfMaps (fst (loadIndex leafNumber app st))).
Proof.
  intro H. unfold loadIndex.
  destruct (indexFile app) as [| |data]; [exact H | exact H |].
  destruct (getProperty data "tfMaps") as [v|]; [|apply wf_nil].
  destruct (Object_entries v) as [entries|]; [|apply wf_nil].
  pose proof (restoreTfMaps_wf leafNumber entries [] (@wf_nil _)) as Hr.
  destruct (restoreTfMaps leafNumber entries []) as [tfs finished]. cbn [fst] in Hr.
  destruct finished; cbn [negb]; [|exact Hr].
  destruct (getProperty data "idf") as [iv|]; [|exact Hr].
  destruct (Object_entries iv); exact Hr.
Qed.

Lemma step_wellFormed st op : wellFormed st -> wellFormed (step' st op).
Proof.
  intros (Htf & Hv & Hpos). destruct op as [app | app f | p | app | folders]; cbn [step].
  - unfold indexVault. destruct (List.length (getMarkdownFiles app st) =? 0)%nat;
      [repeat split; assumption|].
    cbv zeta. repeat split; cbn [tfMaps tfidfVectors].
    + apply files_loop_wf, wf_nil.
    + apply rebuildVectors_wf.
    + apply rebuildVectors_positive.
  - unfold indexNote. destruct (negb (indexReady st)); [repeat split; assumption|].
    cbv zeta. repeat split; cbn [tfMaps tfidfVectors].
    + apply wf_set, Htf.
    + apply wf_set, Hv.
    + apply Forall_set; [|exact Hpos]. intro. cbn [snd].
      split; [apply computeTFIDF_wf | apply computeTFIDF_positive].
  - repeat split; cbn [removeNote tfMaps tfidfVectors].
    + apply wf_delete, Htf.
    + apply wf_delete, Hv.
    + apply Forall_delete, Hpos.
  - destruct (loadIndex_cases leafNumber app st)
      as [[_ E] | [(data & tfs & _ & E) | (tfs & idfTable & Hwf & E)]];
      rewrite E; cbn [fst].
    + repeat split; assumption.
    + pose proof (loadIndex_tfMaps_wf app st Htf) as Hl. rewrite E in Hl.
      cbn [fst withTfMaps tfMaps] in Hl.
      repeat split; cbn [withTfMaps tfMaps tfidfVectors]; assumption.
    + repeat split; cbn [tfMaps tfidfVectors];
        [exact Hwf | apply rebuildVectors_wf | apply rebuildVectors_positive].
  - repeat split; assumption.
Qed.

Lemma run_wellFormed ops : forall st, wellFormed st -> wellFormed (run' ops st).
Proof.
  unfold run. induction ops as [|op ops IH]; intros st H; [exact H|].
  cbn [fold_left]. apply IH, step_wellFormed, H.
Qed.

End ReachableFacts.

(* ================================================================== *)
(** ** More on the cosine *)

Lemma dot_cons_r (vecB vecA : JsMap R) t a :
  JsMap.wf vecB -> JsMap.get vecA t = None ->
  dot vecB ((t, a) :: vecA) = a * orZero (JsMap.get vecB t) + dot vecB vecA.
Proof.
  intros Hwf Ht. induction vecB as [|[s b] vecB IH]; cbn [dot fold_right].
  - cbn. lra.
  - fold (dot vecB ((t, a) :: vecA)) (dot vecB vecA).
    inversion Hwf as [|? ? Hnotin Hwf']; subst.
    rewrite (IH Hwf'). cbn [JsMap.get].
    destruct (String.eqb t s) eqn:E.
    + apply String.eqb_eq in E. subst s. rewrite String.eqb_refl.
      apply get_None_keys in Hnotin. rewrite Hnotin, Ht. cbn [orZero]. lra.
    + rewrite String.eqb_sym, E. lra.
Qed.

Lemma dot_disjoint (vecA vecB : JsMap R) :
  (forall t, In t (JsMap.keys vecA) -> JsMap.get vecB t = None) -> dot vecA vecB = 0.
Proof.
  induction vecA as [|[t a] vecA IH]; intro H; cbn [dot fold_right]; [reflexivity|].
  fold (dot vecA vecB). rewrite (H t) by (left; reflexivity). cbn [orZero].
  rewrite IH; [lra|]. intros t' Ht'. apply H. right. exact Ht'.
Qed.

Lemma dot_sym (vecA vecB : JsMap R) :
  JsMap.wf vecA -> JsMap.wf vecB -> dot vecA vecB = dot vecB vecA.
Proof.
  intros HA HB. induction vecA as [|[t a] vecA IH]; cbn [dot fold_right].
  - symmetry. apply dot_disjoint. reflexivity.
  - fold (dot vecA vecB). inversion HA as [|? ? Hnotin HA']; subst.
    rewrite dot_cons_r by (try apply get_None_keys; assumption).
    rewrite IH by exact HA'. reflexivity.
Qed.

Lemma dot_shared (vecA vecB : JsMap R) :
  dot vecA vecB <> 0 ->
  exists t, JsMap.has vecA t = true /\ JsMap.has vecB t = true.
Proof.
  intro H.
  destruct (existsb (fun t => JsMap.has vecB t) (JsMap.keys vecA)) eqn:E.
  - apply existsb_exists in E as (t & Ht & Hb). exists t.
    split; [apply has_true_keys, Ht | exact Hb].
  - exfalso. apply H, dot_disjoint. intros t Ht.
    assert (Hb : JsMap.has vecB t = false).
    { apply not_true_iff_false. intro Hb.
      assert (existsb (fun t => JsMap.has vecB t) (JsMap.keys vecA) = true)
        by (apply existsb_exists; eauto).
      congruence. }
    unfold JsMap.has in Hb. destruct (JsMap.get vecB t); [discriminate | reflexivity].
Qed.

Lemma positive_nonneg (vec : JsMap R) :
  Forall (fun e => 0 < snd e) vec -> Forall (fun e => 0 <= snd e) vec.
Proof. apply Forall_impl. intros e H. lra. Qed.

Lemma dot_positive (vecA vecB : JsMap R) t :
  Forall (fun e => 0 < snd e) vecA -> Forall (fun e => 0 < snd e) vecB ->
  JsMap.has vecA t = true -> JsMap.has vecB t = true -> 0 < dot vecA vecB.
Proof.
  intros HA HB Ha Hb. apply has_true_keys in Ha.
  unfold JsMap.has in Hb. destruct (JsMap.get vecB t) as [b|] eqn:Eb; [|discriminate].
  assert (Hbpos : 0 < b).
  { apply get_Some_In in Eb. rewrite Forall_forall in HB. apply (HB _ Eb). }
  clear Hb. induction HA as [|[s a] vecA Hs HA IH]; [destruct Ha|].
  cbn [dot fold_right]. fold (dot vecA vecB). cbn [snd] in Hs.
  pose proof (dot_nonneg vecA vecB (positive_nonneg _ HA) (positive_nonneg _ HB)) as Hrest.
  assert (Hterm : 0 <= orZero (JsMap.get vecB s)).
  { destruct (JsMap.get vecB s) as [b'|] eqn:E; cbn [orZero]; [|lra].
    apply get_Some_In in E. rewrite Forall_forall in HB. left. apply (HB _ E). }
  destruct Ha as [Ha | Ha].
  - cbn [fst] in Ha. subst s. rewrite Eb. cbn [orZero]. nra.
  - specialize (IH Ha). nra.
Qed.

Lemma norm2_positive_entries (vec : JsMap R) t :
  Forall (fun e => 0 < snd e) vec -> JsMap.has vec t = true -> 0 < norm2 vec.
Proof.
  intros Hpos Ht. apply norm2_positive. apply has_true_keys in Ht.
  unfold JsMap.keys in Ht. apply in_map_iff in Ht as (e & _ & He).
  apply Exists_exists. exists e. split; [exact He|].
  rewrite Forall_forall in Hpos. specialize (Hpos _ He). lra.
Qed.

Lemma cosineSimilarity_zero_dot (vecA vecB : JsMap R) :
  dot vecA vecB = 0 -> cosineSimilarity vecA vecB = 0.
Proof.
  intro H. rewrite cosineSimilarity_eq, H.
  destruct (Reqb _ 0); [reflexivity | unfold Rdiv; ring].
Qed.

Lemma cosineSimilarity_le_one (vecA vecB : JsMap R) :
  JsMap.wf vecA -> cosineSimilarity vecA vecB <= 1.
Proof.
  intro Hwf. rewrite cosineSimilarity_eq.
  destruct (Reqb _ 0) eqn:E; [lra|]. apply Reqb_false in E.
  assert (Hden : 0 < sqrt (norm2 vecA) * sqrt (norm2 vecB)).
  { pose proof (sqrt_pos (norm2 vecA)). pose proof (sqrt_pos (norm2 vecB)).
    assert (0 <= sqrt (norm2 vecA) * sqrt (norm2 vecB)) by (apply Rmult_le_pos; assumption).
    lra. }
  apply (Rmult_le_reg_r (sqrt (norm2 vecA) * sqrt (norm2 vecB))); [exact Hden|].
  unfold Rdiv. rewrite Rmult_assoc, Rinv_l by lra.
  pose proof (cauchy_schwarz vecA vecB Hwf). lra.
Qed.

Lemma cosineSimilarity_shared (vecA vecB : JsMap R) :
  cosineSimilarity vecA vecB <> 0 ->
  exists t, JsMap.has vecA t = true /\ JsMap.has vecB t = true.
Proof.
  intro H. apply dot_shared. intro Hd. apply H, cosineSimilarity_zero_dot, Hd.
Qed.

Lemma cosineSimilarity_positive (vecA vecB : JsMap R) t :
  Forall (fun e => 0 < snd e) vecA -> Forall (fun e => 0 < snd e) vecB ->
  JsMap.has vecA t = true -> JsMap.has vecB t = true ->
  0 < cosineSimilarity vecA vecB.
Proof.
  intros HA HB Ha Hb. rewrite cosineSimilarity_eq.
  pose proof (norm2_positive_entries vecA t HA Ha) as Hna.
  pose proof (norm2_positive_entries vecB t HB Hb) as Hnb.
  assert (Hden : 0 < sqrt (norm2 vecA) * sqrt (norm2 vecB))
    by (apply Rmult_lt_0_compat; apply sqrt_lt_R0; assumption).
  rewrite (proj2 (Reqb_false _ 0)) by lra.
  apply Rdiv_lt_0_compat; [|exact Hden].
  apply (dot_positive vecA vecB t); assumption.
Qed.

Lemma dot_scaled (c : R) (vecA vecB : JsMap R) :
  dot (scaled c vecA) vecB = c * dot vecA vecB.
Proof.
  induction vecA as [|[t a] vecA IH]; cbn [scaled map dot fold_right fst snd]; [lra|].
  fold (scaled c vecA) (dot (scaled c vecA) vecB) (dot vecA vecB). rewrite IH. ring.
Qed.

Lemma norm2_scaled (c : R) (vec : JsMap R) :
  norm2 (scaled c vec) = (c * c) * norm2 vec.
Proof.
  induction vec as [|[t a] vec IH]; cbn [scaled map norm2 fold_right fst snd]; [lra|].
  fold (scaled c vec) (norm2 (scaled c vec)) (norm2 vec). rewrite IH. ring.
Qed.

Lemma cosineSimilarity_scaled (c : R) (vecA vecB : JsMap R) :
  0 < c -> cosineSimilarity (scaled c vecA) vecB = cosineSimilarity vecA vecB.
Proof.
  intro Hc. rewrite !cosineSimilarity_eq, dot_scaled, norm2_scaled.
  pose proof (norm2_nonneg vecA) as HA.
  rewrite sqrt_mult by nra. rewrite sqrt_square by lra.
  set (d := sqrt (norm2 vecA) * sqrt (norm2 vecB)).
  replace (c * sqrt (norm2 vecA) * sqrt (norm2 vecB)) with (c * d) by (unfold d; ring).
  destruct (Reqb d 0) eqn:E.
  - apply Reqb_true in E. rewrite E, Rmult_0_r.
    rewrite (proj2 (Reqb_true 0 0) eq_refl). reflexivity.
  - apply Reqb_false in E.
    rewrite (proj2 (Reqb_false (c * d) 0)) by (apply Rmult_integral_contrapositive; lra).
    field. lra.
Qed.

(** X13: between two vectors with positive entries, as the index stores
    them, [cosineSimilarity] does not depend on the order of its arguments;
    it is 0 exactly when the vectors share no term and positive exactly
    when they share one; and multiplying one vector by a positive factor
    does not change it. *)
Theorem cosineSimilarity_shared_terms (vecA vecB : JsMap R) :
  JsMap.wf vecA -> JsMap.wf vecB ->
  Forall (fun e => 0 < snd e) vecA -> Forall (fun e => 0 < snd e) vecB ->
  cosineSimilarity vecA vecB = cosineSimilarity vecB vecA
  /\ (cosineSimilarity vecA vecB = 0 <-> ~ exists term, sharedTerm vecA vecB term)
  /\ (0 < cosineSimilarity vecA vecB <-> exists term, sharedTerm vecA vecB term)
  /\ (forall c, 0 < c ->
        cosineSimilarity (scaled c vecA) vecB = cosineSimilarity vecA vecB).
Proof.
  intros HwA HwB HA HB.
  assert (Hpos : (exists term, sharedTerm vecA vecB term) -> 0 < cosineSimilarity vecA vecB).
  { intros (t & Ha & Hb). apply (cosineSimilarity_positive vecA vecB t); assumption. }
  split; [|split; [|split]].
  - rewrite !cosineSimilarity_eq, (dot_sym vecA vecB HwA HwB).
    rewrite (Rmult_comm (sqrt (norm2 vecA))). reflexivity.
  - split.
    + intros H0 Hex. apply Hpos in Hex. lra.
    + intro Hno. destruct (Req_dec_T (cosineSimilarity vecA vecB) 0) as [E | E]; [exact E|].
      exfalso. apply Hno, cosineSimilarity_shared, E.
  - split; [|exact Hpos].
    intro H. apply cosineSimilarity_shared. lra.
  - intros c Hc. apply cosineSimilarity_scaled, Hc.
Qed.

Lemma cosineSimilarity_shared_terms_witness :
  let vecA := [("apple", 1 * 1)] in
  let vecB := [("apple", 2 * 1)] in
  cosineSimilarity vecA vecB = cosineSimilarity vecB vecA
  /\ (cosineSimilarity vecA vecB = 0 <-> ~ exists term, sharedTerm vecA vecB term)
  /\ (0 < cosineSimilarity vecA vecB <-> exists term, sharedTerm vecA vecB term)
  /\ (forall c, 0 < c ->
        cosineSimilarity (scaled c vecA) vecB = cosineSimilarity vecA vecB).
Proof.
  apply (cosineSimilarity_shared_terms [("apple", 1 * 1)] [("apple", 2 * 1)]).
  - repeat constructor; cbn; tauto.
  - repeat constructor; cbn; tauto.
  - constructor; [cbn; lra | constructor].
  - constructor; [cbn; lra | constructor].
Defined.

(* ================================================================== *)
(** ** Queries on the states an engine can reach *)

Lemma toSimilarNote_in_vault app s n :
  In n (toSimilarNote app s) -> In (AFile (file n)) (vaultEntries app).
Proof.
  unfold toSimilarNote, vault_getAbstractFileByPath.
  destruct (find _ (vaultEntries app)) as [[g | p]|] eqn:E;
    [|intros []|intros []].
  intros [<- | []]. cbn [file]. apply find_some in E. apply E.
Qed.

Lemma firstn_subset {A : Type} n (l : list A) x : In x (firstn n l) -> In x l.
Proof.
  intro H. rewrite <- (firstn_skipn n l). apply in_or_app. left. exact H.
Qed.

Lemma firstn_sorted_best {A : Type} (key : A -> R) k : forall (l : list A) x,
  StronglySorted (descending key) l -> In x l ->
  In x (firstn k l)
  \/ (List.length (firstn k l) = k /\ Forall (fun y => key x <= key y) (firstn k l)).
Proof.
  induction k as [|k IH]; intros l x Hs Hx.
  - right. split; [reflexivity | constructor].
  - destruct Hs as [|y l Hs Hy]; [destruct Hx|].
    cbn [firstn]. destruct Hx as [-> | Hx]; [left; left; reflexivity|].
    destruct (IH l x Hs Hx) as [Hin | [Hlen Hall]]; [left; right; exact Hin|].
    right. split; [cbn [List.length]; rewrite Hlen; reflexivity|].
    constructor; [|exact Hall].
    rewrite Forall_forall in Hy. apply (Hy x Hx).
Qed.

Lemma similarNotes_all app (ranked : list (string * R)) :
  (forall s, In s ranked ->
     exists g, vault_getAbstractFileByPath app (fst s) = Some (AFile g)) ->
  map pathAndSimilarity (flat_map (toSimilarNote app) ranked) = ranked.
Proof.
  induction ranked as [|[p c] ranked IH]; intro H; cbn [flat_map map]; [reflexivity|].
  rewrite map_app, IH by (intros s Hs; apply H; right; exact Hs).
  destruct (H (p, c) (or_introl eq_refl)) as (g & Hg). cbn [fst] in Hg.
  unfold toSimilarNote at 1. cbn [fst snd]. rewrite Hg.
  apply vault_getAbstractFileByPath_path in Hg. cbn [abstractPath] in Hg.
  cbn [map List.app]. unfold pathAndSimilarity. cbn [file similarity]. rewrite Hg. reflexivity.
Qed.

Lemma similarityScores_complete sourcePath sourceVector (vectors : JsMap (JsMap R)) p vector :
  In (p, vector) vectors -> p <> sourcePath ->
  0.01 < cosineSimilarity sourceVector vector ->
  In (p, cosineSimilarity sourceVector vector)
     (similarityScores sourcePath sourceVector vectors).
Proof.
  intros Hin Hp Hc. rewrite similarityScores_eq. apply in_flat_map.
  exists (p, vector). split; [exact Hin|].
  unfold scoreOf. cbn [fst snd].
  apply String.eqb_neq in Hp. rewrite Hp.
  rewrite (proj2 (Rgtb_true _ 0.01)) by exact Hc. left. reflexivity.
Qed.

(** X14: when every indexed path is a file of the vault, [findSimilar]
    on a ready engine keeps the best: a vector of another path whose
    similarity with the vector of the queried file exceeds 0.01 is in the
    result with that similarity, or the result has [topK] entries and each
    of them is at least as similar. *)
Theorem findSimilar_keeps_the_best (app : App) (st : EmbeddingEngine) (f : TFile)
    (topK : nat) (sourceVector vector : JsMap R) (p : string) :
  isReady st = true ->
  JsMap.get (tfidfVectors st) (path f) = Some sourceVector ->
  (forall q, In q (JsMap.keys (tfidfVectors st)) ->
     exists g, vault_getAbstractFileByPath app q = Some (AFile g)) ->
  JsMap.get (tfidfVectors st) p = Some vector ->
  p <> path f ->
  0.01 < cosineSimilarity sourceVector vector ->
  let result := findSimilar app st f topK in
  (exists n, In n result /\ path (file n) = p
             /\ similarity n = cosineSimilarity sourceVector vector)
  \/ (List.length result = topK
      /\ Forall (fun n => cosineSimilarity sourceVector vector <= similarity n) result).
Proof.
  intros Hr Hsrc Hfiles Hp Hne Hc result. subst result.
  rewrite (findSimilar_from_scores app st f topK sourceVector Hr Hsrc).
  set (scores := similarityScores (path f) sourceVector (tfidfVectors st)).
  set (ranked := firstn topK (sortDesc snd scores)).
  assert (Hscore : In (p, cosineSimilarity sourceVector vector) (sortDesc snd scores)).
  { apply (Permutation_in _ (Permutation_sym (sortDesc_perm snd scores))).
    apply similarityScores_complete; [apply get_Some_In, Hp | exact Hne | exact Hc]. }
  assert (Hall : map pathAndSimilarity (flat_map (toSimilarNote app) ranked) = ranked).
  { apply similarNotes_all. intros s Hs. apply Hfiles.
    apply firstn_subset in Hs.
    apply (Permutation_in _ (sortDesc_perm snd scores)) in Hs.
    pose proof (similarityScores_sound (path f) sourceVector (tfidfVectors st)) as Hsound.
    rewrite Forall_forall in Hsound. destruct (Hsound s Hs) as (_ & _ & v & Hv & _).
    unfold JsMap.keys. apply in_map_iff. exists (fst s, v). split; [reflexivity | exact Hv]. }
  destruct (firstn_sorted_best snd topK (sortDesc snd scores) _
              (sortDesc_sorted snd scores) Hscore) as [Hin | [Hlen Hbest]].
  - left. fold ranked in Hin. rewrite <- Hall in Hin.
    apply in_map_iff in Hin as (n & Hn & Hin). exists n.
    unfold pathAndSimilarity in Hn. injection Hn as Hpath Hsim. auto.
  - right. fold ranked in Hlen, Hbest. split.
    + rewrite <- (length_map pathAndSimilarity), Hall. exact Hlen.
    + apply Forall_forall. intros n Hn. rewrite Forall_forall in Hbest.
      apply (Hbest (pathAndSimilarity n)). rewrite <- Hall. apply in_map, Hn.
Qed.

Lemma findSimilar_keeps_the_best_witness :
  let result := findSimilar workVault restored todayNote 1 in
  (exists n, In n result /\ path (file n) = "old.md"
             /\ similarity n = cosineSimilarity [("apple", 1 * 1)] [("apple", 2 * 1)])
  \/ (List.length result = 1%nat
      /\ Forall (fun n => cosineSimilarity [("apple", 1 * 1)] [("apple", 2 * 1)]
                          <= similarity n) result).
Proof.
  apply (findSimilar_keeps_the_best workVault restored todayNote 1
           [("apple", 1 * 1)] [("apple", 2 * 1)] "old.md").
  - rewrite restored_state. reflexivity.
  - rewrite restored_state. reflexivity.
  - rewrite restored_state. cbn [tfidfVectors JsMap.keys map fst].
    intros q [<- | [<- | [<- | []]]]; eexists; reflexivity.
  - rewrite restored_state. reflexivity.
  - discriminate.
  - rewrite cosine_apple_one_two. lra.
Defined.

Section ReachableQueries.

Variable getIndexableContent : TFile -> string -> string.
Variable leafNumber : json -> R.

#[local] Abbreviation run' := (run getIndexableContent leafNumber).

(** X15: in every state that an engine reaches from its construction by
    builds, upserts, removals, restores (failed ones too) and changes of
    the excluded folders, every entry that [findSimilar] returns is a file
    of the vault as it is at the query, with a similarity above 0.01 and,
    in exact arithmetic, at most 1; the similarity is the cosine of the
    stored vector of the queried file and the stored vector of the entry;
    and the two vectors share a term. *)
Theorem findSimilar_on_reachable_state (folders : list string) (ops : list Operation)
    (app : App) (f : TFile) (topK : nat) (n : SimilarNote) :
  let st := run' ops (newEngine folders) in
  In n (findSimilar app st f topK) ->
  In (AFile (file n)) (vaultEntries app)
  /\ 0.01 < similarity n <= 1
  /\ exists sourceVector vector term,
       JsMap.get (tfidfVectors st) (path f) = Some sourceVector
       /\ JsMap.get (tfidfVectors st) (path (file n)) = Some vector
       /\ similarity n = cosineSimilarity sourceVector vector
       /\ sharedTerm sourceVector vector term.
Proof.
  intros st Hn.
  destruct (run_wellFormed getIndexableContent leafNumber ops (newEngine folders)
              (newEngine_wellFormed folders)) as (_ & Hwf & Hpos).
  fold st in Hwf, Hpos.
  destruct (indexReady st) eqn:Hr;
    [|unfold findSimilar in Hn; rewrite Hr in Hn; destruct Hn].
  destruct (JsMap.get (tfidfVectors st) (path f)) as [sourceVector|] eqn:Hsrc;
    [|unfold findSimilar in Hn; rewrite Hr, Hsrc in Hn; destruct Hn].
  rewrite (findSimilar_from_scores app st f topK sourceVector Hr Hsrc) in Hn.
  apply in_flat_map in Hn as (s & Hs & Hn).
  split; [apply (toSimilarNote_in_vault app s n Hn)|].
  destruct (toSimilarNote_cases app s) as [E | (n0 & E & Hsim & Hpath)];
    rewrite E in Hn; [destruct Hn|].
  destruct Hn as [<- | []].
  apply firstn_subset in Hs. apply (Permutation_in _ (sortDesc_perm snd _)) in Hs.
  pose proof (similarityScores_sound (path f) sourceVector (tfidfVectors st)) as Hsound.
  rewrite Forall_forall in Hsound.
  destruct (Hsound s Hs) as (_ & Hfloor & vector & Hv & Hcos).
  assert (HwS : JsMap.wf sourceVector).
  { apply get_Some_In in Hsrc. unfold positiveVectors in Hpos.
    rewrite Forall_forall in Hpos. apply (Hpos _ Hsrc). }
  rewrite Hsim, Hcos. split.
  - split; [rewrite <- Hcos; exact Hfloor | apply cosineSimilarity_le_one, HwS].
  - destruct (cosineSimilarity_shared sourceVector vector) as (term & Ht);
      [rewrite <- Hcos; lra|].
    exists sourceVector, vector, term. split; [reflexivity|].
    split; [rewrite Hpath; apply In_get_wf; assumption|].
    split; [reflexivity | exact Ht].
Qed.

End ReachableQueries.

Lemma findSimilar_on_reachable_state_witness :
  let st := run plainIndexableContent numberLeaf [LoadIndex workVault] (newEngine []) in
  let n := {| file := oldNote; similarity := 1 |} in
  In (AFile (file n)) (vaultEntries workVault)
  /\ 0.01 < similarity n <= 1
  /\ exists sourceVector vector term,
       JsMap.get (tfidfVectors st) (path todayNote) = Some sourceVector
       /\ JsMap.get (tfidfVectors st) (path (file n)) = Some vector
       /\ similarity n = cosineSimilarity sourceVector vector
       /\ sharedTerm sourceVector vector term.
Proof.
  apply (findSimilar_on_reachable_state plainIndexableContent numberLeaf []
           [LoadIndex workVault] workVault todayNote 1).
  change (run plainIndexableContent numberLeaf [LoadIndex workVault] (newEngine []))
    with restored.
  rewrite (findSimilar_restored 0). left. reflexivity.
Defined.

(* ================================================================== *)
(** ** Term frequencies, and which terms a vector keeps *)

Lemma counts_get (tokens : list string) t : forall m : JsMap R,
  orZero (JsMap.get (fold_left increment tokens m) t)
  = orZero (JsMap.get m t) + INR (occurrences t tokens).
Proof.
  unfold occurrences.
  induction tokens as [|t' tokens IH]; intro m; cbn [fold_left count_occ].
  - cbn [INR]. lra.
  - rewrite IH, get_increment. destruct (string_dec t' t) as [-> | Hne].
    + rewrite String.eqb_refl, S_INR. lra.
    + rewrite (proj2 (String.eqb_neq t t')) by congruence. lra.
Qed.

Lemma counts_keys (tokens : list string) t : forall m : JsMap R,
  In t (JsMap.keys (fold_left increment tokens m)) <-> In t (JsMap.keys m) \/ In t tokens.
Proof.
  induction tokens as [|t' tokens IH]; intro m; cbn [fold_left].
  - cbn. tauto.
  - rewrite IH. unfold increment. rewrite in_keys_set. cbn [In]. intuition congruence.
Qed.

Lemma counts_lookup (tokens : list string) t :
  JsMap.get (fold_left increment tokens []) t
  = if (occurrences t tokens =? 0)%nat then None else Some (INR (occurrences t tokens)).
Proof.
  pose proof (counts_get tokens t []) as Hv. cbn [JsMap.get orZero] in Hv.
  pose proof (counts_keys tokens t []) as Hk. cbn [JsMap.keys map In] in Hk.
  unfold occurrences in *.
  destruct (count_occ string_dec tokens t =? 0)%nat eqn:E.
  - apply Nat.eqb_eq in E. apply get_None_keys. intro Hin.
    apply Hk in Hin as [[] | Hin].
    apply (count_occ_In string_dec) in Hin. lia.
  - apply Nat.eqb_neq in E.
    destruct (JsMap.get (fold_left increment tokens []) t) as [v|] eqn:G.
    + cbn [orZero] in Hv. f_equal. lra.
    + exfalso. apply get_None_keys in G. apply G, Hk. right.
      apply (count_occ_In string_dec). lia.
Qed.

Lemma occurrences_le_length t (tokens : list string) :
  (occurrences t tokens <= List.length tokens)%nat.
Proof. unfold occurrences. apply count_occ_bound. Qed.

(** X16: [computeTF] holds for a term exactly its relative frequency, the
    number of its occurrences among the tokens divided by the number of
    tokens, and nothing for a term that does not occur; its terms are the
    distinct tokens; every stored frequency is in (0, 1]. *)
Theorem computeTF_frequency (tokens : list string) (term : string) :
  JsMap.get (computeTF tokens) term
  = (if (occurrences term tokens =? 0)%nat then None
     else Some (INR (occurrences term tokens) / INR (List.length tokens)))
  /\ (In term (JsMap.keys (computeTF tokens)) <-> In term tokens)
  /\ NoDup (JsMap.keys (computeTF tokens))
  /\ Forall (fun e => 0 < snd e <= 1) (computeTF tokens).
Proof.
  assert (Hget : JsMap.get (computeTF tokens) term
                 = (if (occurrences term tokens =? 0)%nat then None
                    else Some (INR (occurrences term tokens) / INR (List.length tokens)))).
  { destruct tokens as [|t tokens]; [reflexivity|].
    rewrite computeTF_entries by discriminate.
    rewrite (get_map_values (fun _ count => count / INR (List.length (t :: tokens)))).
    rewrite counts_lookup. destruct (occurrences term (t :: tokens) =? 0)%nat; reflexivity. }
  split; [exact Hget|]. split; [|split].
  - destruct tokens as [|t tokens]; [cbn; tauto|].
    rewrite computeTF_entries by discriminate.
    rewrite (keys_map_values (fun _ count => count / INR (List.length (t :: tokens)))).
    rewrite counts_keys. cbn [JsMap.keys map]. cbn [In]. tauto.
  - apply computeTF_wf.
  - apply Forall_forall. intros [t v] Hin. cbn [snd].
    pose proof (computeTF_positive tokens) as Hpos. rewrite Forall_forall in Hpos.
    specialize (Hpos _ Hin). cbn [snd] in Hpos. split; [exact Hpos|].
    apply (In_get_wf _ _ _ (computeTF_wf tokens)) in Hin.
    assert (Hv : JsMap.get (computeTF tokens) t
                 = (if (occurrences t tokens =? 0)%nat then None
                    else Some (INR (occurrences t tokens) / INR (List.length tokens)))).
    { destruct tokens as [|t0 tokens]; [reflexivity|].
      rewrite computeTF_entries by discriminate.
      rewrite (get_map_values (fun _ count => count / INR (List.length (t0 :: tokens)))).
      rewrite counts_lookup. destruct (occurrences t (t0 :: tokens) =? 0)%nat; reflexivity. }
    rewrite Hin in Hv. destruct (occurrences t tokens =? 0)%nat eqn:E; [discriminate|].
    injection Hv as ->. apply Nat.eqb_neq in E.
    pose proof (occurrences_le_length t tokens) as Hle.
    assert (Hlen : 0 < INR (List.length tokens)) by (apply lt_0_INR; lia).
    apply le_INR in Hle.
    apply (Rmult_le_reg_r (INR (List.length tokens))); [exact Hlen|].
    unfold Rdiv. rewrite Rmult_assoc, Rinv_l by lra. lra.
Qed.

Lemma tfidfLoop_get idfTable (tf : JsMap R) t : forall acc,
  JsMap.wf tf ->
  JsMap.get (tfidfLoop idfTable tf acc) t
  = match JsMap.get tf t with
    | Some v => if Rgtb (v * orZero (JsMap.get idfTable t)) 0
                then Some (v * orZero (JsMap.get idfTable t))
                else JsMap.get acc t
    | None => JsMap.get acc t
    end.
Proof.
  unfold tfidfLoop.
  induction tf as [|[s v] tf IH]; intros acc Hwf; cbn [fold_left]; [reflexivity|].
  inversion Hwf as [|? ? Hnotin Hwf']; subst. cbv zeta.
  rewrite IH by exact Hwf'. cbn [JsMap.get].
  destruct (String.eqb s t) eqn:E.
  - apply String.eqb_eq in E. subst s.
    apply get_None_keys in Hnotin. rewrite Hnotin.
    destruct (Rgtb _ 0); [apply get_set_same | reflexivity].
  - apply String.eqb_neq in E.
    assert (Hacc : JsMap.get (if Rgtb (v * orZero (JsMap.get idfTable s)) 0
                              then JsMap.set acc s (v * orZero (JsMap.get idfTable s))
                              else acc) t = JsMap.get acc t).
    { destruct (Rgtb _ 0); [apply get_set_other; congruence | reflexivity]. }
    rewrite Hacc. reflexivity.
Qed.

Lemma computeTFIDF_get (tf idfTable : JsMap R) t :
  JsMap.wf tf ->
  JsMap.get (computeTFIDF tf idfTable) t
  = match JsMap.get tf t with
    | Some v => if Rgtb (v * orZero (JsMap.get idfTable t)) 0
                then Some (v * orZero (JsMap.get idfTable t))
                else None
    | None => None
    end.
Proof. intro H. rewrite computeTFIDF_loop, tfidfLoop_get by exact H. reflexivity. Qed.

Lemma ln_ratio_sign (n df : nat) :
  (0 < df)%nat ->
  (0 < ln (INR n / (1 + INR df)) <-> (df + 2 <= n)%nat).
Proof.
  intro Hdf. pose proof (pos_INR df) as Hd.
  split.
  - intro H. destruct (le_lt_dec (df + 2) n) as [Hle | Hlt]; [exact Hle|].
    exfalso. assert (Hn : INR n <= 1 + INR df).
    { replace (1 + INR df) with (INR (S df)) by (rewrite S_INR; lra).
      apply le_INR. lia. }
    destruct (Nat.eq_dec n 0) as [-> | Hn0].
    + cbn [INR] in H. unfold Rdiv in H. rewrite Rmult_0_l in H.
      unfold ln in H. destruct (Rlt_dec 0 0); lra.
    + assert (0 < INR n) by (apply lt_0_INR; lia).
      assert (Hq : INR n / (1 + INR df) <= 1).
      { apply (Rmult_le_reg_r (1 + INR df)); [lra|].
        unfold Rdiv. rewrite Rmult_assoc, Rinv_l by lra. lra. }
      assert (0 < INR n / (1 + INR df)) by (apply Rdiv_lt_0_compat; lra).
      destruct Hq as [Hq | Hq]; [|rewrite Hq, ln_1 in H; lra].
      pose proof (ln_increasing _ _ H1 Hq) as Hl. rewrite ln_1 in Hl. lra.
  - intro H. assert (Hn : 1 + INR df < INR n).
    { replace (1 + INR df) with (INR (S df)) by (rewrite S_INR; lra).
      apply lt_INR. lia. }
    pose proof (ln_increasing 1 (INR n / (1 + INR df)) ltac:(lra)) as Hl.
    rewrite ln_1 in Hl. apply Hl.
    apply (Rmult_lt_reg_r (1 + INR df)); [lra|].
    unfold Rdiv. rewrite Rmult_assoc, Rinv_l by lra. lra.
Qed.

Lemma map_without_lookups {V : Type} (m : JsMap V) :
  (forall t, JsMap.get m t = None) -> m = [].
Proof.
  destruct m as [|[k v] m]; [reflexivity|]. intro H. specialize (H k).
  cbn [JsMap.get] in H. rewrite String.eqb_refl in H. discriminate.
Qed.

Lemma computeTFIDF_rare (documents : list (JsMap R)) (tf : JsMap R) (term : string) :
  Forall JsMap.wf documents -> JsMap.wf tf -> Forall (fun e => 0 < snd e) tf ->
  JsMap.get (computeTFIDF tf (computeIDF documents)) term
  = match JsMap.get tf term with
    | Some v =>
        if ((0 <? docCount term documents)
            && (docCount term documents + 2 <=? List.length documents))%nat
        then Some (v * ln (INR (List.length documents)
                           / (1 + INR (docCount term documents))))
        else None
    | None => None
    end.
Proof.
  intros Hdocs Hwf Hpos. rewrite computeTFIDF_get by exact Hwf.
  destruct (JsMap.get tf term) as [v|] eqn:Hv; [|reflexivity].
  assert (Hvpos : 0 < v).
  { apply get_Some_In in Hv. rewrite Forall_forall in Hpos. apply (Hpos _ Hv). }
  rewrite computeIDF_lookup by exact Hdocs.
  destruct (docCount term documents) as [|df'] eqn:Edf.
  - cbn [Nat.eqb Nat.ltb Nat.leb andb orZero]. rewrite Rmult_0_r.
    rewrite (proj2 (Rgtb_false 0 0)) by lra. reflexivity.
  - change (S df' =? 0)%nat with false. cbn [orZero].
    change (0 <? S df')%nat with true. cbn [andb].
    pose proof (ln_ratio_sign (List.length documents) (S df') ltac:(lia)) as Hs.
    destruct (S df' + 2 <=? List.length documents)%nat eqn:E.
    + apply Nat.leb_le in E. apply Hs in E.
      rewrite (proj2 (Rgtb_true _ 0)) by (apply Rmult_lt_0_compat; assumption).
      reflexivity.
    + apply Nat.leb_gt in E.
      assert (Hle : ln (INR (List.length documents) / (1 + INR (S df'))) <= 0).
      { destruct (Rle_lt_dec (ln (INR (List.length documents) / (1 + INR (S df')))) 0)
          as [Hle | Hgt]; [exact Hle|]. apply Hs in Hgt. lia. }
      rewrite (proj2 (Rgtb_false _ 0)) by nra. reflexivity.
Qed.

(** X17: against the IDF table of a corpus of N documents, the TF-IDF
    vector of a term-frequency map keeps a term of the map exactly when the
    term is in at least one and in at most N - 2 documents of the corpus,
    with the weight tf * ln(N / (1 + df)); so against a corpus of one or
    two documents every vector is empty. *)
Theorem computeTFIDF_keeps_rare_terms (documents : list (JsMap R)) (tf : JsMap R)
    (term : string) :
  Forall JsMap.wf documents -> JsMap.wf tf -> Forall (fun e => 0 < snd e) tf ->
  let N := List.length documents in
  let df := docCount term documents in
  JsMap.get (computeTFIDF tf (computeIDF documents)) term
  = match JsMap.get tf term with
    | Some v => if ((0 <? df) && (df + 2 <=? N))%nat
                then Some (v * ln (INR N / (1 + INR df)))
                else None
    | None => None
    end
  /\ ((N <= 2)%nat -> computeTFIDF tf (computeIDF documents) = []).
Proof.
  intros Hdocs Hwf Hpos N df. split; [apply computeTFIDF_rare; assumption|].
  intro HN. apply map_without_lookups. intro t.
  rewrite computeTFIDF_rare by assumption.
  destruct (JsMap.get tf t); [|reflexivity].
  destruct (0 <? docCount t documents)%nat eqn:E1; [|reflexivity].
  destruct (docCount t documents + 2 <=? List.length documents)%nat eqn:E2; [|reflexivity].
  apply Nat.ltb_lt in E1. apply Nat.leb_le in E2. fold N in E2. lia.
Qed.

Lemma computeTFIDF_keeps_rare_terms_witness :
  let documents := [ [("note", 1)]; [("note", 0.5); ("idea", 0.5)]; [("plan", 1)] ] in
  let tf := [("note", 0.5); ("idea", 0.5)] in
  let N := List.length documents in
  let df := docCount "idea" documents in
  JsMap.get (computeTFIDF tf (computeIDF documents)) "idea"
  = match JsMap.get tf "idea" with
    | Some v => if ((0 <? df) && (df + 2 <=? N))%nat
                then Some (v * ln (INR N / (1 + INR df)))
                else None
    | None => None
    end
  /\ ((N <= 2)%nat -> computeTFIDF tf (computeIDF documents) = []).
Proof.
  apply (computeTFIDF_keeps_rare_terms
           [ [("note", 1)]; [("note", 0.5); ("idea", 0.5)]; [("plan", 1)] ]
           [("note", 0.5); ("idea", 0.5)] "idea").
  - repeat constructor; cbn; intuition discriminate.
  - repeat constructor; cbn; intuition discriminate.
  - repeat constructor; cbn; lra.
Defined.

Section SmallVault.

Variable getIndexableContent : TFile -> string -> string.

#[local] Abbreviation indexVault' := (indexVault getIndexableContent).
#[local] Abbreviation fileTF' := (fileTF getIndexableContent).

Lemma set_length_le {V : Type} (m : JsMap V) k v :
  (List.length (JsMap.set m k v) <= S (List.length m))%nat.
Proof.
  induction m as [|[k0 v0] m IH]; cbn; [lia|].
  destruct (String.eqb k0 k); cbn; lia.
Qed.

Lemma files_loop_length app (files : list TFile) : forall acc : JsMap (JsMap R),
  (List.length (fold_left (fun m f => JsMap.set m (path f) (fileTF' app f)) files acc)
   <= List.length acc + List.length files)%nat.
Proof.
  induction files as [|f files IH]; intro acc; cbn [fold_left List.length]; [lia|].
  etransitivity; [apply IH|]. pose proof (set_length_le acc (path f) (fileTF' app f)). lia.
Qed.

Lemma findSimilar_empty_vectors app st f topK :
  Forall (fun e => snd e = []) (tfidfVectors st) -> findSimilar app st f topK = [].
Proof.
  intro H. unfold findSimilar. destruct (negb (indexReady st)); [reflexivity|].
  destruct (JsMap.get (tfidfVectors st) (path f)) as [sourceVector|] eqn:E; [|reflexivity].
  apply get_Some_In in E. rewrite Forall_forall in H. pose proof (H _ E) as Hsrc.
  cbn [snd] in Hsrc. subst sourceVector. cbv zeta. clear E.
  assert (Hscores : similarityScores (path f) [] (tfidfVectors st) = []).
  { rewrite similarityScores_eq.
    induction (tfidfVectors st) as [|e vectors IH]; cbn [flat_map]; [reflexivity|].
    rewrite IH by (intros e' He'; apply H; right; exact He').
    unfold scoreOf. destruct (String.eqb (fst e) (path f)); [reflexivity|].
    rewrite cosineSimilarity_empty_source.
    rewrite (proj2 (Rgtb_false 0 0.01)) by lra. reflexivity. }
  rewrite Hscores. cbn [sortDesc fold_right]. rewrite firstn_nil. reflexivity.
Qed.

(** X18: a full build over one or two files stores an empty vector for
    every file, so after it [findSimilar] returns nothing, whatever the
    file, the vault and [topK] of the query: similar notes need an index
    of at least three. *)
Theorem findSimilar_needs_three_notes (app : App) (st : EmbeddingEngine) :
  getMarkdownFiles app st <> [] ->
  (List.length (getMarkdownFiles app st) <= 2)%nat ->
  let st' := indexVault' app st in
  isReady st' = true
  /\ Forall (fun e => snd e = []) (tfidfVectors st')
  /\ forall app' f topK, findSimilar app' st' f topK = [].
Proof.
  intros Hne Hlen st'.
  assert (Hvec : Forall (fun e => snd e = []) (tfidfVectors st')).
  { subst st'. rewrite (indexVault_built_eq getIndexableContent app st Hne). cbv zeta.
    cbn [tfidfVectors].
    set (tfs := fold_left (fun m f => JsMap.set m (path f) (fileTF' app f))
                          (getMarkdownFiles app st) []).
    assert (Hwf : JsMap.wf tfs) by (apply files_loop_wf, wf_nil).
    assert (Hsmall : (List.length (JsMap.values tfs) <= 2)%nat).
    { unfold JsMap.values. rewrite length_map. subst tfs.
      etransitivity; [apply files_loop_length|]. cbn [List.length]. lia. }
    assert (Hdocs : Forall (fun e => exists f, snd e = fileTF' app f) tfs).
    { apply Forall_forall. intros [p tf] Hin. cbn [snd].
      apply (In_get_wf _ _ _ Hwf) in Hin. subst tfs.
      apply files_loop_values in Hin as [Hin | (f & _ & _ & ->)]; [discriminate Hin|].
      exists f. reflexivity. }
    rewrite rebuildVectors_entries by exact Hwf.
    apply Forall_map. apply Forall_forall. intros [p tf] Hin. cbn [snd].
    apply map_without_lookups. intro t.
    rewrite Forall_forall in Hdocs. destruct (Hdocs _ Hin) as (f & Hf). cbn [snd] in Hf.
    rewrite computeTFIDF_rare.
    - destruct (JsMap.get tf t); [|reflexivity].
      destruct (0 <? docCount t (JsMap.values tfs))%nat eqn:E1; [|reflexivity].
      destruct (docCount t (JsMap.values tfs) + 2 <=? List.length (JsMap.values tfs))%nat
        eqn:E2; [|reflexivity].
      apply Nat.ltb_lt in E1. apply Nat.leb_le in E2. lia.
    - unfold JsMap.values. apply Forall_map. apply Forall_forall. intros e He.
      destruct (Hdocs _ He) as (g & ->). apply computeTF_wf.
    - rewrite Hf. apply computeTF_wf.
    - rewrite Hf. apply computeTF_positive. }
  split; [|split; [exact Hvec|]].
  - subst st'. rewrite (indexVault_built_eq getIndexableContent app st Hne). reflexivity.
  - intros app' f topK. apply findSimilar_empty_vectors, Hvec.
Qed.

End SmallVault.

Lemma findSimilar_needs_three_notes_witness :
  let st' := indexVault plainIndexableContent (vaultOf [fileA; fileB]) (newEngine []) in
  isReady st' = true
  /\ Forall (fun e => snd e = []) (tfidfVectors st')
  /\ forall app' f topK, findSimilar app' st' f topK = [].
Proof.
  apply (findSimilar_needs_three_notes plainIndexableContent
           (vaultOf [fileA; fileB]) (newEngine [])).
  - vm_compute. discriminate.
  - vm_compute. lia.
Defined.

(* ================================================================== *)
(** ** The tokens of a text in parts *)

Lemma mapString_app (f : ascii -> ascii) (a b : string) :
  mapString f (a ++ b) = (mapString f a ++ mapString f b)%string.
Proof. induction a as [|c a IH]; cbn; [reflexivity | rewrite IH; reflexivity]. Qed.

Lemma lowerChar_idempotent (c : ascii) : lowerChar (lowerChar c) = lowerChar c.
Proof. destruct c as [[] [] [] [] [] [] [] []]; reflexivity. Qed.

Lemma toLowerCase_idempotent (s : string) : toLowerCase (toLowerCase s) = toLowerCase s.
Proof.
  unfold toLowerCase. induction s as [|c s IH]; cbn [mapString]; [reflexivity|].
  rewrite lowerChar_idempotent, IH. reflexivity.
Qed.

Lemma removeNumbersFrom_app (a b : string) (c : ascii) : forall inRun,
  isDigit c = false ->
  removeNumbersFrom inRun (a ++ String c b)
  = (removeNumbersFrom inRun a ++ String c (removeNumbersFrom false b))%string.
Proof.
  induction a as [|x a IH]; intros inRun Hc; cbn [append removeNumbersFrom].
  - rewrite Hc. reflexivity.
  - destruct (isDigit x); [destruct inRun|]; cbn [append]; rewrite IH by exact Hc;
      reflexivity.
Qed.

Lemma consHead_app c (pre rest : list string) :
  pre <> [] -> consHead c (pre ++ rest) = consHead c pre ++ rest.
Proof. destruct pre; [congruence | reflexivity]. Qed.

(** The pieces of a text with a white space in it: the pieces before, less
    an empty last one, and the pieces after. *)
Lemma splitFrom_app (a b : string) (c : ascii) :
  isSpace c = true ->
  forall inRun, exists pre,
    splitFrom inRun (a ++ String c b) = pre ++ splitFrom true b
    /\ (splitFrom inRun a = pre \/ splitFrom inRun a = pre ++ [EmptyString])
    /\ (inRun = false -> pre <> []).
Proof.
  intro Hc. induction a as [|x a IH]; intro inRun; cbn [append splitFrom].
  - rewrite Hc. destruct inRun.
    + exists []. split; [reflexivity|]. split; [right; reflexivity | discriminate].
    + exists [EmptyString]. split; [reflexivity|]. split; [left; reflexivity | discriminate].
  - destruct (isSpace x).
    + destruct (IH true) as (pre & E & Hpre & _). rewrite E. destruct inRun.
      * exists pre. split; [reflexivity|]. split; [exact Hpre | discriminate].
      * exists (EmptyString :: pre). split; [reflexivity|].
        split; [|discriminate]. destruct Hpre as [-> | ->]; [left | right]; reflexivity.
    + destruct (IH false) as (pre & E & Hpre & Hne). specialize (Hne eq_refl).
      rewrite E. exists (consHead x pre). split; [apply consHead_app, Hne|]. split.
      * destruct Hpre as [-> | ->]; [left; reflexivity|].
        right. apply consHead_app, Hne.
      * intros _. destruct pre; [congruence | discriminate].
Qed.

Lemma splitFrom_inRun (s : string) :
  filter keepToken (splitFrom true s) = filter keepToken (splitFrom false s).
Proof.
  destruct s as [|c s]; [reflexivity|]. cbn [splitFrom].
  destruct (isSpace c); reflexivity.
Qed.

Lemma keepToken_pieces (a b : string) (c : ascii) :
  isSpace c = true ->
  filter keepToken (splitWhitespace (a ++ String c b))
  = filter keepToken (splitWhitespace a) ++ filter keepToken (splitWhitespace b).
Proof.
  intro Hc. unfold splitWhitespace.
  destruct (splitFrom_app a b c Hc false) as (pre & -> & Hpre & _).
  rewrite filter_app, splitFrom_inRun. f_equal.
  destruct Hpre as [-> | ->]; [reflexivity|].
  rewrite filter_app. cbn [filter]. change (keepToken EmptyString) with false.
  rewrite app_nil_r. reflexivity.
Qed.

Lemma isWord_false (c : ascii) :
  isWord c = false ->
  isUpper c = false /\ isDigit c = false
  /\ isSpace (blankPunct c) = true /\ isDigit (blankPunct c) = false.
Proof.
  unfold blankPunct. intro H. rewrite H. unfold isWord in H.
  apply orb_false_elim in H as [H _]. apply orb_false_elim in H as [H Hd].
  apply orb_false_elim in H as [Hu _]. cbn [orb].
  destruct (isSpace c) eqn:Es; repeat split; try reflexivity; assumption.
Qed.

Lemma tokenize_app (a b : string) (sep : ascii) :
  isWord sep = false ->
  tokenize (a ++ String sep b) = tokenize a ++ tokenize b.
Proof.
  intro H. destruct (isWord_false sep H) as (Hu & Hd & Hs & Hbd).
  unfold tokenize, toLowerCase, removePunctuation, removeNumbers.
  rewrite mapString_app. cbn [mapString].
  assert (Hl : lowerChar sep = sep) by (unfold lowerChar; rewrite Hu; reflexivity).
  rewrite Hl, mapString_app. cbn [mapString].
  rewrite removeNumbersFrom_app by exact Hbd.
  rewrite keepToken_pieces by exact Hs.
  apply map_app.
Qed.

(** X19: [tokenize] does not see the case of the letters, and it reads a
    text part by part: the tokens of two texts joined by a character that
    is neither a letter, a digit nor the underscore (a space, a line feed,
    a punctuation mark) are the tokens of the first followed by the tokens
    of the second. *)
Theorem tokenize_part_by_part (a b : string) (sep : ascii) :
  isWord sep = false ->
  tokenize (a ++ String sep b) = tokenize a ++ tokenize b
  /\ tokenize (toLowerCase a) = tokenize a.
Proof.
  intro H. split; [apply tokenize_app, H|].
  unfold tokenize. rewrite toLowerCase_idempotent. reflexivity.
Qed.

Lemma tokenize_part_by_part_witness :
  tokenize ("Garden Notes" ++ String "," "planting TOMATOES")
  = tokenize "Garden Notes" ++ tokenize "planting TOMATOES"
  /\ tokenize (toLowerCase "Garden Notes") = tokenize "Garden Notes".
Proof.
  apply (tokenize_part_by_part "Garden Notes" "planting TOMATOES" ","). reflexivity.
Defined.

Lemma occurrences_app t (l1 l2 : list string) :
  occurrences t (l1 ++ l2) = (occurrences t l1 + occurrences t l2)%nat.
Proof. unfold occurrences. apply count_occ_app. Qed.

(** X20: the tokens that the index takes from a note are the tokens of its
    title three times, then the tokens of its stripped body; so a term
    counts three times for each occurrence in the title, and the title
    decides the vector of a note with an empty body. *)
Theorem title_counts_three_times (stripBody : string -> string) (f : TFile)
    (content term : string) :
  let tokens := tokenize (getIndexableContentWith stripBody f content) in
  let title := tokenize (titleOf f) in
  let body := tokenize (stripBody content) in
  tokens = title ++ title ++ title ++ body
  /\ occurrences term tokens
     = (3 * occurrences term title + occurrences term body)%nat
  /\ List.length tokens = (3 * List.length title + List.length body)%nat.
Proof.
  cbv zeta.
  assert (E : tokenize (getIndexableContentWith stripBody f content)
              = tokenize (titleOf f) ++ tokenize (titleOf f) ++ tokenize (titleOf f)
                ++ tokenize (stripBody content)).
  { unfold getIndexableContentWith.
    change (titleOf f ++ " " ++ titleOf f ++ " " ++ titleOf f ++ " " ++ stripBody content)%string
      with (titleOf f ++ String " " (titleOf f ++ String " "
              (titleOf f ++ String " " (stripBody content))))%string.
    rewrite !tokenize_app by reflexivity. reflexivity. }
  rewrite E. split; [reflexivity|]. split.
  - rewrite !occurrences_app. lia.
  - rewrite !length_app. lia.
Qed.

(* ================================================================== *)
(** ** The health report *)

Lemma push_filter {A : Type} (p : A -> bool) (l : list A) : forall acc,
  fold_left (fun acc x => if p x then acc ++ [x] else acc) l acc = acc ++ filter p l.
Proof.
  induction l as [|x l IH]; intro acc; cbn [fold_left filter].
  - rewrite app_nil_r. reflexivity.
  - rewrite IH. destruct (p x); [rewrite <- app_assoc|]; reflexivity.
Qed.

Lemma getBacklinkCount_loop (links : JsMap (JsMap nat)) p : forall n,
  fold_left (fun count '(_, targets) =>
               if JsMap.has targets p then S count else count) links n
  = (n + List.length (filter (fun e => JsMap.has (snd e) p) links))%nat.
Proof.
  induction links as [|[src targets] links IH]; intro n; cbn [fold_left filter snd].
  - cbn. lia.
  - rewrite IH. destruct (JsMap.has targets p); cbn [List.length]; lia.
Qed.

Lemma getBacklinkCount_eq app f :
  getBacklinkCount app f
  = List.length (filter (fun e => JsMap.has (snd e) (path f)) (resolvedLinks app)).
Proof. unfold getBacklinkCount. rewrite getBacklinkCount_loop. reflexivity. Qed.

Lemma findOrphanNotes_eq app files :
  Health.findOrphanNotes app files
  = filter (fun f => (getBacklinkCount app f =? 0)%nat) files.
Proof.
  exact (push_filter (fun f => (getBacklinkCount app f =? 0)%nat) files []).
Qed.

Lemma filter_length_zero {A : Type} (p : A -> bool) (l : list A) :
  List.length (filter p l) = 0%nat <-> forall x, In x l -> p x = false.
Proof.
  induction l as [|x l IH]; cbn [filter]; [cbn; tauto|].
  destruct (p x) eqn:E; cbn [List.length].
  - split; [lia|]. intro H. specialize (H x (or_introl eq_refl)). congruence.
  - rewrite IH. split.
    + intros H y [<- | Hy]; [exact E | apply H, Hy].
    + intros H y Hy. apply H. right. exact Hy.
Qed.

(** X21: the health report lists as orphans exactly the files that no
    source of [resolvedLinks] links to, in the order of the files; these
    are the files whose backlink count is 0, which are the files that the
    digest gives the full orphan boost; and a backlink count never exceeds
    the number of sources. *)
Theorem orphans_have_no_backlinks (app : App) (files : list TFile) (f : TFile) :
  Health.findOrphanNotes app files
  = filter (fun g => (getBacklinkCount app g =? 0)%nat) files
  /\ (In f (Health.findOrphanNotes app files)
      <-> In f files /\ getBacklinkCount app f = 0%nat)
  /\ (getBacklinkCount app f = 0%nat
      <-> forall source targets, In (source, targets) (resolvedLinks app) ->
            JsMap.has targets (path f) = false)
  /\ (getBacklinkCount app f = 0%nat <-> orphanBoost (getBacklinkCount app f) = 1)
  /\ (getBacklinkCount app f <= List.length (resolvedLinks app))%nat.
Proof.
  split; [apply findOrphanNotes_eq|]. split; [|split; [|split]].
  - rewrite findOrphanNotes_eq, filter_In, Nat.eqb_eq. reflexivity.
  - rewrite getBacklinkCount_eq, filter_length_zero. split.
    + intros H source targets Hin. apply (H (source, targets) Hin).
    + intros H [source targets] Hin. apply (H source targets Hin).
  - destruct (orphanBoost_cases (getBacklinkCount app f))
      as [[Hn En] | [[Hn En] | [[Hn En] | [Hn En]]]];
      rewrite En; split; intro; try lra; lia.
  - rewrite getBacklinkCount_eq. apply filter_length_le.
Qed.

(** *** The score *)

Lemma Math_round_bounds (x : R) : x - / 2 < IZR (Math_round x) <= x + / 2.
Proof.
  unfold Math_round. rewrite minus_IZR.
  destruct (archimed (x + / 2)) as [H1 H2]. lra.
Qed.

Lemma Math_round_monotone (x y : R) : x <= y -> (Math_round x <= Math_round y)%Z.
Proof.
  intro H. pose proof (Math_round_bounds x) as Hx. pose proof (Math_round_bounds y) as Hy.
  assert (Hlt : IZR (Math_round x) < IZR (Math_round y + 1)) by (rewrite plus_IZR; lra).
  apply lt_IZR in Hlt. lia.
Qed.

Lemma Math_round_between (x : R) (lo hi : Z) :
  IZR lo <= x <= IZR hi -> (lo <= Math_round x <= hi)%Z.
Proof.
  intros [Hlo Hhi]. pose proof (Math_round_bounds x) as Hx.
  assert (H1 : IZR (lo - 1) < IZR (Math_round x)) by (rewrite minus_IZR; lra).
  assert (H2 : IZR (Math_round x) < IZR (hi + 1)) by (rewrite plus_IZR; lra).
  apply lt_IZR in H1, H2. lia.
Qed.

Lemma penalty_range (count total : nat) (rate cap : R) :
  (0 < total)%nat -> 0 <= rate -> 0 <= cap ->
  0 <= Rmin (INR count / INR total * rate) cap <= cap.
Proof.
  intros Ht Hr Hc. split; [|apply Rmin_r].
  apply Rmin_glb; [|exact Hc].
  apply Rmult_le_pos; [|exact Hr].
  apply Rmult_le_pos; [apply pos_INR|].
  left. apply Rinv_0_lt_compat, lt_0_INR, Ht.
Qed.

Lemma penalty_monotone (count count' total : nat) (rate cap : R) :
  (0 < total)%nat -> 0 <= rate -> (count <= count')%nat ->
  Rmin (INR count / INR total * rate) cap <= Rmin (INR count' / INR total * rate) cap.
Proof.
  intros Ht Hr Hle. apply Rle_min_compat_r.
  apply Rmult_le_compat_r; [exact Hr|].
  apply Rmult_le_compat_r; [|apply le_INR, Hle].
  left. apply Rinv_0_lt_compat, lt_0_INR, Ht.
Qed.

Lemma calculateScore_bounds (total orphan broken empty duplicate : nat) :
  (15 <= Health.calculateScore total orphan broken empty duplicate <= 100)%Z.
Proof.
  unfold Health.calculateScore. destruct (total =? 0)%nat eqn:E; [lia|].
  apply Nat.eqb_neq in E. cbv zeta.
  pose proof (penalty_range orphan total 40 30 ltac:(lia) ltac:(lra) ltac:(lra)).
  pose proof (penalty_range broken total 50 25 ltac:(lia) ltac:(lra) ltac:(lra)).
  pose proof (penalty_range empty total 30 20 ltac:(lia) ltac:(lra) ltac:(lra)).
  pose proof (penalty_range duplicate total 20 10 ltac:(lia) ltac:(lra) ltac:(lra)).
  match goal with
  | |- (_ <= Z.max 0 (Math_round ?s) <= _)%Z =>
      pose proof (Math_round_between s 15 100 ltac:(lra))
  end.
  lia.
Qed.

(** X22: the health score is an integer between 15 and 100, whatever the
    counts: the four penalties are capped at 30, 25, 20 and 10, so the
    score never reaches the 0 that [Math.max] guards; a vault without
    notes and a vault without findings score 100; and more findings of
    any kind never raise the score. *)
Theorem calculateScore_range (total orphan broken empty duplicate : nat) :
  (15 <= Health.calculateScore total orphan broken empty duplicate <= 100)%Z
  /\ Health.calculateScore 0 orphan broken empty duplicate = 100%Z
  /\ Health.calculateScore total 0 0 0 0 = 100%Z
  /\ (forall orphan' broken' empty' duplicate',
        (orphan <= orphan')%nat -> (broken <= broken')%nat ->
        (empty <= empty')%nat -> (duplicate <= duplicate')%nat ->
        (Health.calculateScore total orphan' broken' empty' duplicate'
         <= Health.calculateScore total orphan broken empty duplicate)%Z).
Proof.
  split; [apply calculateScore_bounds|]. split; [reflexivity|]. split.
  - unfold Health.calculateScore. destruct (total =? 0)%nat eqn:E; [reflexivity|].
    apply Nat.eqb_neq in E. cbv zeta. cbn [INR].
    unfold Rdiv. rewrite !Rmult_0_l.
    rewrite !Rmin_left by lra.
    pose proof (Math_round_between (100 - 0 - 0 - 0 - 0) 100 100 ltac:(lra)). lia.
  - intros orphan' broken' empty' duplicate' Ho Hb He Hd.
    unfold Health.calculateScore. destruct (total =? 0)%nat eqn:E; [lia|].
    apply Nat.eqb_neq in E. cbv zeta.
    pose proof (penalty_monotone orphan orphan' total 40 30 ltac:(lia) ltac:(lra) Ho).
    pose proof (penalty_monotone broken broken' total 50 25 ltac:(lia) ltac:(lra) Hb).
    pose proof (penalty_monotone empty empty' total 30 20 ltac:(lia) ltac:(lra) He).
    pose proof (penalty_monotone duplicate duplicate' total 20 10 ltac:(lia) ltac:(lra) Hd).
    apply Z.max_le_compat_l. apply Math_round_monotone. lra.
Qed.

(** *** Titles that several files share *)

Section DuplicateTitles.

Variable lower : string -> string.

#[local] Abbreviation nameStep' := (nameStep lower).

Lemma nameStep_pathsAt nameMap f name :
  pathsAt (nameStep' nameMap f) name
  = pathsAt nameMap name
    ++ (if String.eqb (lower (basename f)) name then [path f] else []).
Proof.
  unfold pathsAt, nameStep. cbv zeta.
  destruct (String.eqb (lower (basename f)) name) eqn:E.
  - apply String.eqb_eq in E. subst name.
    destruct (JsMap.get nameMap (lower (basename f))); rewrite get_set_same; reflexivity.
  - apply String.eqb_neq in E. rewrite app_nil_r.
    destruct (JsMap.get nameMap (lower (basename f)));
      rewrite get_set_other by congruence; reflexivity.
Qed.

Lemma nameStep_keeps nameMap f :
  JsMap.wf nameMap -> Forall (fun e => snd e <> []) nameMap ->
  JsMap.wf (nameStep' nameMap f) /\ Forall (fun e => snd e <> []) (nameStep' nameMap f).
Proof.
  intros Hwf Hne. unfold nameStep. cbv zeta.
  destruct (JsMap.get nameMap (lower (basename f))); split;
    try (apply wf_set, Hwf);
    (apply Forall_set; [|exact Hne]); intro; cbn [snd];
    [destruct l|]; discriminate.
Qed.

Lemma nameMap_loop (files : list TFile) : forall nameMap,
  JsMap.wf nameMap -> Forall (fun e => snd e <> []) nameMap ->
  let result := fold_left nameStep' files nameMap in
  JsMap.wf result /\ Forall (fun e => snd e <> []) result
  /\ forall name, pathsAt result name = pathsAt nameMap name ++ pathsTitled lower name files.
Proof.
  induction files as [|f files IH]; intros nameMap Hwf Hne; cbn [fold_left].
  - cbv zeta. split; [exact Hwf|]. split; [exact Hne|].
    intro name. unfold pathsTitled. cbn. rewrite app_nil_r. reflexivity.
  - destruct (nameStep_keeps nameMap f Hwf Hne) as [Hwf' Hne'].
    destruct (IH (nameStep' nameMap f) Hwf' Hne') as (H1 & H2 & H3).
    split; [exact H1|]. split; [exact H2|].
    intro name. rewrite H3, nameStep_pathsAt, <- app_assoc. f_equal.
    unfold pathsTitled. cbn [filter].
    destruct (String.eqb (lower (basename f)) name); reflexivity.
Qed.

Lemma findDuplicateTitles_eq (files : list TFile) :
  Health.findDuplicateTitles lower files
  = filter (fun paths => (1 <? List.length paths)%nat)
           (JsMap.values (fold_left nameStep' files [])).
Proof.
  exact (push_filter (fun paths => (1 <? List.length paths)%nat)
           (JsMap.values (fold_left nameStep' files [])) []).
Qed.

Lemma nameMap_values (files : list TFile) (group : list string) :
  In group (JsMap.values (fold_left nameStep' files []))
  <-> exists name, group = pathsTitled lower name files /\ group <> [].
Proof.
  destruct (nameMap_loop files [] (@wf_nil _) (Forall_nil _)) as (Hwf & Hne & Hpaths).
  cbv zeta in *. set (result := fold_left nameStep' files []) in *.
  unfold JsMap.values. rewrite in_map_iff. split.
  - intros ([name l] & <- & Hin). cbn [snd]. exists name.
    rewrite Forall_forall in Hne. split; [|apply (Hne _ Hin)].
    pose proof (Hpaths name) as Hp. unfold pathsAt in Hp.
    rewrite (In_get_wf _ _ _ Hwf Hin) in Hp. exact Hp.
  - intros (name & -> & Hnonempty). exists (name, pathsTitled lower name files).
    split; [reflexivity|]. apply get_Some_In.
    pose proof (Hpaths name) as Hp. unfold pathsAt in Hp.
    cbn [JsMap.get List.app] in Hp.
    destruct (JsMap.get result name) as [l|]; [rewrite Hp; reflexivity|].
    congruence.
Qed.

End DuplicateTitles.

(** X23: the groups of duplicate titles are exactly the lists of at
    least two paths that are, for some name, the paths of all the files
    whose lower-cased basename is that name, in the order of the files;
    so a file is in a group exactly when another file shares its title up
    to case. *)
Theorem findDuplicateTitles_groups (lower : string -> string) (files : list TFile)
    (group : list string) :
  In group (Health.findDuplicateTitles lower files)
  <-> exists name, group = pathsTitled lower name files
                   /\ (2 <= List.length group)%nat.
Proof.
  rewrite findDuplicateTitles_eq, filter_In, nameMap_values, Nat.ltb_lt. split.
  - intros ((name & Hg & _) & Hlen). exists name. split; [exact Hg | lia].
  - intros (name & Hg & Hlen). split; [|lia]. exists name. split; [exact Hg|].
    intros ->. cbn in Hlen. lia.
Qed.

(** *** The report as a whole *)

Section Report.

Variable fileSize : TFile -> nat.
Variable fileLinks : TFile -> option (list string).
Variable getFirstLinkpathDest : string -> string -> option TFile.
Variable lower : string -> string.

#[local] Abbreviation brokenOf' := (brokenOf fileLinks getFirstLinkpathDest).
#[local] Abbreviation linkCount' := (linkCount fileLinks).

Lemma broken_inner_loop f (links : list string) : forall broken,
  fold_left (fun broken target =>
               match getFirstLinkpathDest target (path f) with
               | None => broken ++ [ {| Health.sourceFile := f;
                                        Health.targetPath := target |} ]
               | Some _ => broken
               end) links broken
  = broken
    ++ flat_map (fun target =>
                   match getFirstLinkpathDest target (path f) with
                   | None => [ {| Health.sourceFile := f; Health.targetPath := target |} ]
                   | Some _ => []
                   end) links.
Proof.
  induction links as [|t links IH]; intro broken; cbn [fold_left flat_map].
  - rewrite app_nil_r. reflexivity.
  - rewrite IH. destruct (getFirstLinkpathDest t (path f));
      [|rewrite <- app_assoc]; reflexivity.
Qed.

Lemma findBrokenLinks_loop (files : list TFile) : forall broken,
  fold_left (fun broken f =>
               match fileLinks f with
               | None => broken
               | Some links =>
                   fold_left (fun broken target =>
                                match getFirstLinkpathDest target (path f) with
                                | None => broken ++ [ {| Health.sourceFile := f;
                                                         Health.targetPath := target |} ]
                                | Some _ => broken
                                end)
                             links broken
               end) files broken
  = broken ++ flat_map brokenOf' files.
Proof.
  induction files as [|f files IH]; intro broken; cbn [fold_left flat_map].
  - rewrite app_nil_r. reflexivity.
  - rewrite IH. unfold brokenOf at 2. destruct (fileLinks f) as [links|].
    + rewrite broken_inner_loop, <- app_assoc. reflexivity.
    + reflexivity.
Qed.

Lemma findBrokenLinks_eq (files : list TFile) :
  Health.findBrokenLinks fileLinks getFirstLinkpathDest files = flat_map brokenOf' files.
Proof. unfold Health.findBrokenLinks. apply findBrokenLinks_loop. Qed.

Lemma list_sum_cons (a : nat) (l : list nat) : list_sum (a :: l) = (a + list_sum l)%nat.
Proof. reflexivity. Qed.

Lemma countLinks_loop (files : list TFile) : forall n,
  fold_left (fun total f =>
               match fileLinks f with
               | Some links => (total + List.length links)%nat
               | None => total
               end) files n
  = (n + list_sum (map linkCount' files))%nat.
Proof.
  induction files as [|f files IH]; intro n; cbn [fold_left map].
  - cbn. lia.
  - rewrite IH, list_sum_cons. unfold linkCount at 2. destruct (fileLinks f); lia.
Qed.

Lemma brokenOf_length f : (List.length (brokenOf' f) <= linkCount' f)%nat.
Proof.
  unfold brokenOf, linkCount. destruct (fileLinks f) as [links|]; [|cbn; lia].
  apply flat_map_length_le. intro t.
  destruct (getFirstLinkpathDest t (path f)); cbn; lia.
Qed.

Lemma broken_le_links (files : list TFile) :
  (List.length (Health.findBrokenLinks fileLinks getFirstLinkpathDest files)
   <= Health.countLinks fileLinks files)%nat.
Proof.
  rewrite findBrokenLinks_eq. unfold Health.countLinks. rewrite countLinks_loop.
  cbn [Nat.add]. induction files as [|f files IH]; cbn [flat_map map]; [cbn; lia|].
  rewrite length_app, list_sum_cons. pose proof (brokenOf_length f). lia.
Qed.

Lemma brokenOf_sound f b :
  In b (brokenOf' f) ->
  Health.sourceFile b = f
  /\ getFirstLinkpathDest (Health.targetPath b) (path f) = None
  /\ exists links, fileLinks f = Some links /\ In (Health.targetPath b) links.
Proof.
  unfold brokenOf. destruct (fileLinks f) as [links|]; [|intros []].
  intro H. apply in_flat_map in H as (t & Ht & H).
  destruct (getFirstLinkpathDest t (path f)) eqn:E; [destruct H|].
  destruct H as [<- | []]. cbn. split; [reflexivity|]. split; [exact E|].
  exists links. split; [reflexivity | exact Ht].
Qed.

Lemma health_files_sound app folders f :
  In f (Health.getMarkdownFiles app folders) ->
  In (AFile f) (vaultEntries app) /\ extension f = "md" /\ ~ inFolders folders f.
Proof.
  unfold Health.getMarkdownFiles. intro H. apply filter_In in H as [Hin Hex].
  unfold vault_getMarkdownFiles in Hin. apply in_flat_map in Hin as (e & He & Hin).
  destruct e as [g | p]; [|destruct Hin].
  destruct (String.eqb (extension g) "md") eqn:E; [|destruct Hin].
  destruct Hin as [<- | []]. apply String.eqb_eq in E.
  split; [exact He|]. split; [exact E|].
  intros (folder & Hf & Hp). apply negb_true_iff in Hex.
  assert (existsb (fun folder => prefix (folder ++ "/") (path g)) folders = true)
    by (apply existsb_exists; eauto).
  congruence.
Qed.

(** X24: in the report of [analyze], the lists of orphan and of empty
    notes are parts of the markdown files outside the excluded folders,
    in their order, the empty ones being those of fewer than 50 bytes;
    every broken link is a link of such a file that has no destination;
    there are at most as many broken links as links; [totalNotes] counts
    the files; and the score is between 15 and 100, and 100 when nothing
    is found. *)
Theorem analyze_report (app : App) (folders : list string) :
  let report := Health.analyze fileSize fileLinks getFirstLinkpathDest lower app folders in
  let files := Health.getMarkdownFiles app folders in
  Health.totalNotes report = List.length files
  /\ (forall f, In f files ->
        In (AFile f) (vaultEntries app) /\ extension f = "md" /\ ~ inFolders folders f)
  /\ Health.orphanNotes report
     = filter (fun f => (getBacklinkCount app f =? 0)%nat) files
  /\ Health.emptyNotes report = filter (fun f => (fileSize f <? 50)%nat) files
  /\ (forall b, In b (Health.brokenLinks report) ->
        In (Health.sourceFile b) files
        /\ getFirstLinkpathDest (Health.targetPath b) (path (Health.sourceFile b)) = None
        /\ exists links, fileLinks (Health.sourceFile b) = Some links
                         /\ In (Health.targetPath b) links)
  /\ (List.length (Health.brokenLinks report) <= Health.totalLinks report)%nat
  /\ (15 <= Health.score report <= 100)%Z
  /\ (Health.orphanNotes report = [] -> Health.brokenLinks report = [] ->
      Health.emptyNotes report = [] -> Health.duplicateTitles report = [] ->
      Health.score report = 100%Z).
Proof.
  cbv zeta. unfold Health.analyze.
  cbn [Health.totalNotes Health.orphanNotes Health.emptyNotes Health.brokenLinks
       Health.totalLinks Health.score Health.duplicateTitles].
  split; [reflexivity|]. split; [intros f Hf; apply (health_files_sound app folders f Hf)|].
  split; [apply findOrphanNotes_eq|].
  split; [unfold Health.findEmptyNotes;
          apply (push_filter (fun f => (fileSize f <? 50)%nat) _ [])|].
  split; [|split; [apply broken_le_links|split; [apply calculateScore_bounds|]]].
  - intros b Hb. rewrite findBrokenLinks_eq in Hb.
    apply in_flat_map in Hb as (f & Hf & Hb).
    destruct (brokenOf_sound f b Hb) as (Hsrc & Hdest & Hlinks).
    rewrite Hsrc. auto.
  - intros -> -> -> ->. cbn [List.length].
    unfold Health.calculateScore.
    destruct (List.length (Health.getMarkdownFiles app folders) =? 0)%nat; [reflexivity|].
    cbv zeta. cbn [INR]. unfold Rdiv. rewrite !Rmult_0_l. rewrite !Rmin_left by lra.
    pose proof (Math_round_between (100 - 0 - 0 - 0 - 0) 100 100 ltac:(lra)). lia.
Qed.

End Report.

(* ================================================================== *)
(** ** The index at the start of the plugin and after a change of settings *)

Section PluginFacts.

Variable getIndexableContent : TFile -> string -> string.
Variable leafNumber : json -> R.

#[local] Abbreviation indexVault' := (indexVault getIndexableContent).
#[local] Abbreviation loadIndex' := (loadIndex leafNumber).
#[local] Abbreviation initializeIndex' := (initializeIndex getIndexableContent leafNumber).
#[local] Abbreviation saveSettingsAndReindex' := (saveSettingsAndReindex getIndexableContent).

Lemma loadIndex_excludedFolders app st :
  excludedFolders (fst (loadIndex' app st)) = excludedFolders st.
Proof.
  destruct (loadIndex_cases leafNumber app st)
    as [[_ E] | [(data & tfs & _ & E) | (tfs & idfTable & _ & E)]];
    rewrite E; reflexivity.
Qed.

Lemma indexVault_forgets app st1 st2 :
  excludedFolders st1 = excludedFolders st2 ->
  getMarkdownFiles app st2 <> [] ->
  indexVault' app st1 = indexVault' app st2.
Proof.
  intros Heq Hfiles.
  pose proof (getMarkdownFiles_depends_on_folders app st1 st2 Heq) as Hsame.
  rewrite !indexVault_built_eq by (rewrite ?Hsame; exact Hfiles).
  cbv zeta. rewrite Hsame, Heq. reflexivity.
Qed.

(** X25: at the start of the plugin a restore that fails leaves no trace
    when the vault has a markdown file outside the excluded folders: the
    engine is then exactly the engine of a full build, ready, whatever
    the failed restore did to the TF maps; and a restore that succeeds is
    not followed by a build. *)
Theorem initializeIndex_repairs_failed_restore (app : App) (st : EmbeddingEngine) :
  getMarkdownFiles app st <> [] ->
  (snd (loadIndex' app st) = false ->
   initializeIndex' app st = indexVault' app st
   /\ isReady (initializeIndex' app st) = true)
  /\ (snd (loadIndex' app st) = true ->
      initializeIndex' app st = fst (loadIndex' app st)
      /\ isReady (initializeIndex' app st) = true).
Proof.
  intro Hfiles. unfold initializeIndex.
  pose proof (loadIndex_excludedFolders app st) as Hex.
  destruct (loadIndex_cases leafNumber app st)
    as [[_ E] | [(data & tfs & _ & E) | (tfs & idfTable & _ & E)]];
    rewrite E in *; cbn [fst snd] in *; (split; [intro Hl | intro Hl]);
    try discriminate Hl.
  - split; [reflexivity|]. rewrite indexVault_built_eq by exact Hfiles. reflexivity.
  - rewrite (indexVault_forgets app (withTfMaps st tfs) st Hex Hfiles).
    split; [reflexivity|]. rewrite indexVault_built_eq by exact Hfiles. reflexivity.
  - split; reflexivity.
Qed.

(** X26: after the settings are saved with new excluded folders, a ready
    engine over a vault that still has a markdown file outside them
    indexes exactly the paths of these files: every note of a newly
    excluded folder is dropped; an engine that is not ready only takes
    the folders; and when no file is left outside the folders the whole
    old index stays, the notes of the excluded folders included. *)
Theorem saveSettingsAndReindex_effect (app : App) (st : EmbeddingEngine)
    (folders : list string) :
  let st' := saveSettingsAndReindex' app st folders in
  let files := getMarkdownFiles app (setExcludedFolders st folders) in
  excludedFolders st' = folders
  /\ (isReady st = true -> files <> [] ->
      forall p, In p (getIndexedPaths st') <-> exists f, In f files /\ path f = p)
  /\ (isReady st = true -> files = [] ->
      tfMaps st' = tfMaps st /\ tfidfVectors st' = tfidfVectors st /\ idf st' = idf st)
  /\ (isReady st = false -> st' = setExcludedFolders st folders).
Proof.
  cbv zeta. unfold saveSettingsAndReindex.
  change (isReady (setExcludedFolders st folders)) with (isReady st).
  set (st1 := setExcludedFolders st folders).
  split; [|split; [|split]].
  - destruct (isReady st); [|reflexivity].
    unfold indexVault. destruct (List.length (getMarkdownFiles app st1) =? 0)%nat;
      reflexivity.
  - intros Hr Hne p. rewrite Hr.
    rewrite (indexVault_built_eq getIndexableContent app st1 Hne). cbv zeta.
    unfold getIndexedPaths. cbn [tfMaps].
    rewrite files_loop_keys. cbn [JsMap.keys map In]. rewrite in_map_iff. split.
    + intros [[] | (f & Hp & Hin)]. exists f. auto.
    + intros (f & Hin & Hp). right. exists f. auto.
  - intros Hr Hnone. rewrite Hr. unfold indexVault. rewrite Hnone.
    cbn [List.length Nat.eqb]. repeat split.
  - intros Hr. rewrite Hr. reflexivity.
Qed.

End PluginFacts.

Lemma initializeIndex_repairs_failed_restore_witness :
  let app := vaultWithBrokenIndex in
  let st := newEngine [] in
  (snd (loadIndex numberLeaf app st) = false ->
   initializeIndex plainIndexableContent numberLeaf app st
   = indexVault plainIndexableContent app st
   /\ isReady (initializeIndex plainIndexableContent numberLeaf app st) = true)
  /\ (snd (loadIndex numberLeaf app st) = true ->
      initializeIndex plainIndexableContent numberLeaf app st
      = fst (loadIndex numberLeaf app st)
      /\ isReady (initializeIndex plainIndexableContent numberLeaf app st) = true).
Proof.
  apply (initializeIndex_repairs_failed_restore plainIndexableContent numberLeaf
           vaultWithBrokenIndex (newEngine [])).
  vm_compute. discriminate.
Defined.

(* ================================================================== *)
(** ** The license and the size of the digest *)

Lemma validateWithAPI_pro later outcome status :
  License.validateWithAPI later outcome = Some status ->
  License.isPro status = true ->
  status = License.proAt later /\ confirmsPurchase outcome.
Proof.
  unfold License.validateWithAPI, confirmsPurchase.
  destruct outcome as [|code body]; [discriminate|].
  destruct (code =? 200)%nat eqn:Ecode; [|intros [= <-]; discriminate].
  apply Nat.eqb_eq in Ecode. subst code.
  destruct body as [data|]; [|discriminate].
  destruct (getProperty data "success") as [success|] eqn:Es; [|discriminate].
  cbv zeta.
  destruct (License.truthy success) eqn:E1; cbn [andb];
    [|intros [= <-]; discriminate].
  destruct (License.truthy (License.optionalProperty
              (License.optionalProperty (Some data) "purchase") "refunded")) eqn:E2;
    cbn [negb andb]; [intros [= <-]; discriminate|].
  destruct (License.truthy (License.optionalProperty
              (License.optionalProperty (Some data) "purchase") "chargebacked")) eqn:E3;
    cbn [negb]; [intros [= <-]; discriminate|].
  intros [= <-] _. split; [reflexivity|].
  exists data, success. auto.
Qed.

(** X27: [validate] grants the Pro tier only on evidence: the key is not
    blank, and either the cached status is itself a valid Pro status,
    younger than 24 hours or met by a licence server that gave no answer,
    and is returned as it is, or the server answered 200 with a success
    that is neither refunded nor charged back.  The cached status is taken
    whatever the key is. *)
Theorem validate_pro_needs_evidence (now later : R) (key : option string)
    (cachedStatus : option License.LicenseStatus) (outcome : License.ApiOutcome) :
  let status := License.validate now later key cachedStatus outcome in
  License.isPro status = true ->
  License.noKey key = false
  /\ ((cachedStatus = Some status
       /\ (now - License.lastChecked status < License.CACHE_DURATION_MS
           \/ License.validateWithAPI later outcome = None)
       /\ forall key', License.noKey key' = false ->
            License.validate now later key' cachedStatus outcome = status)
      \/ (status = License.proAt later /\ confirmsPurchase outcome)).
Proof.
  cbv zeta. unfold License.validate.
  destruct (License.noKey key) eqn:Ek; [discriminate|].
  intro Hpro. split; [reflexivity|].
  destruct cachedStatus as [c|].
  - destruct (License.valid c && Rltb (now - License.lastChecked c)
                                      License.CACHE_DURATION_MS) eqn:Efresh.
    + left. apply andb_prop in Efresh as [_ Hage]. apply Rltb_true in Hage.
      split; [reflexivity|]. split; [left; exact Hage|].
      intros key' ->. reflexivity.
    + destruct (License.validateWithAPI later outcome) as [result|] eqn:Eapi.
      * right. apply (validateWithAPI_pro later outcome result Eapi Hpro).
      * destruct (License.valid c) eqn:Ev; [|discriminate Hpro].
        left. split; [reflexivity|]. split; [right; reflexivity|].
        intros key' ->. reflexivity.
  - destruct (License.validateWithAPI later outcome) as [result|] eqn:Eapi.
    + right. apply (validateWithAPI_pro later outcome result Eapi Hpro).
    + discriminate Hpro.
Qed.

Lemma validate_pro_needs_evidence_witness :
  let status := License.validate 0 1 (Some "KEY-1") None goodAnswer in
  License.noKey (Some "KEY-1") = false
  /\ ((None = Some status
       /\ (0 - License.lastChecked status < License.CACHE_DURATION_MS
           \/ License.validateWithAPI 1 goodAnswer = None)
       /\ forall key', License.noKey key' = false ->
            License.validate 0 1 key' None goodAnswer = status)
      \/ (status = License.proAt 1 /\ confirmsPurchase goodAnswer)).
Proof.
  apply (validate_pro_needs_evidence 0 1 (Some "KEY-1") None goodAnswer).
  reflexivity.
Defined.

Lemma getDailyDigest_length (getSnippet : App -> TFile -> string) app st now minDaysOld count :
  (List.length (getDailyDigest getSnippet app st now minDaysOld count) <= count)%nat.
Proof.
  unfold getDailyDigest, getForgottenNotes.
  destruct (negb (isReady st)); [cbn; lia|].
  destruct (List.length (getRecentlyModifiedFiles app now 3) =? 0)%nat;
    apply firstn_le_length.
Qed.

(** X28: the digest that [showDailyDigest] shows has at most as many
    entries as the settings ask for, and at most three when the status is
    not a valid Pro status, whatever the settings ask for; and without a
    key, absent or blank, [validate] leaves the free tier whatever the
    cache and the licence server say. *)
Theorem digest_size_by_tier (getSnippet : App -> TFile -> string) (app : App)
    (st : EmbeddingEngine) (status : License.LicenseStatus) (clock minDaysOld : R)
    (digestCount : nat) (digest : list ResurfacedNote) :
  showDailyDigest getSnippet app st status clock minDaysOld digestCount = Some digest ->
  (List.length digest <= digestCount)%nat
  /\ (License.isPro status = false -> (List.length digest <= 3)%nat)
  /\ (forall now later key cachedStatus outcome,
        License.noKey key = true ->
        License.validate now later key cachedStatus outcome = License.freeAt now
        /\ License.isPro (License.validate now later key cachedStatus outcome) = false).
Proof.
  intro Hshow. unfold showDailyDigest in Hshow.
  destruct (negb (isReady st)); [discriminate|]. injection Hshow as <-.
  pose proof (getDailyDigest_length getSnippet app st clock minDaysOld
                (getEffectiveDigestCount status digestCount)) as Hlen.
  unfold getEffectiveDigestCount in Hlen at 2. unfold License.maxDigestCount in Hlen.
  split; [|split].
  - destruct (License.isPro status); lia.
  - intros Hfree. rewrite Hfree in Hlen. lia.
  - intros now later key cachedStatus outcome Hkey.
    unfold License.validate. rewrite Hkey. split; reflexivity.
Qed.

Lemma digest_size_by_tier_witness :
  let status := License.validate 0 1 (Some "  ") None goodAnswer in
  let digest := getDailyDigest (fun _ _ => "") workVault restored tenDays 7
                  (getEffectiveDigestCount status 5) in
  (List.length digest <= 5)%nat
  /\ (License.isPro status = false -> (List.length digest <= 3)%nat)
  /\ (forall now later key cachedStatus outcome,
        License.noKey key = true ->
        License.validate now later key cachedStatus outcome = License.freeAt now
        /\ License.isPro (License.validate now later key cachedStatus outcome) = false).
Proof.
  apply (digest_size_by_tier (fun _ _ => "") workVault restored
           (License.validate 0 1 (Some "  ") None goodAnswer) tenDays 7 5).
  unfold showDailyDigest. rewrite restored_state. reflexivity.
Defined.

(* ================================================================== *)
(** ** The entries of the daily digest *)

Lemma bestMatch_more now minDaysOld seen s p c :
  bestMatch now minDaysOld seen p c ->
  (path (file s) = p -> minDaysOld <= getDaysSinceModified now (file s) ->
   similarity s <= maxSimilarity c) ->
  bestMatch now minDaysOld (seen ++ [s]) p c.
Proof.
  intros (Hp & Hage & (s0 & Hs0 & Hf & Hsim) & Hmax) Hs.
  split; [exact Hp|]. split; [exact Hage|]. split.
  - exists s0. split; [apply in_or_app; left; exact Hs0 | auto].
  - intros s' Hin. apply in_app_or in Hin as [Hin | [<- | []]];
      [apply Hmax, Hin | exact Hs].
Qed.

Lemma candidate_step now minDaysOld seen cm s :
  candidatesOf now minDaysOld seen cm ->
  candidatesOf now minDaysOld (seen ++ [s]) (addCandidates now minDaysOld [s] cm).
Proof.
  intros (Hwf & Hbest & Hcover). unfold addCandidates. cbn [fold_left].
  destruct (Rltb (getDaysSinceModified now (file s)) minDaysOld) eqn:Eage.
  - apply Rltb_true in Eage. split; [exact Hwf|]. split.
    + intros p c Hget. apply bestMatch_more; [apply Hbest, Hget|]. intros _ H. lra.
    + intros s' Hin Hold. apply in_app_or in Hin as [Hin | [<- | []]];
        [apply Hcover; assumption | lra].
  - apply Rltb_false in Eage.
    destruct (JsMap.get cm (path (file s))) as [existing|] eqn:Eget.
    + destruct (Rgtb (similarity s) (maxSimilarity existing)) eqn:Esim.
      * apply Rgtb_true in Esim. split; [apply wf_set, Hwf|]. split.
        -- intros p c Hget. destruct (string_dec p (path (file s))) as [-> | Hne].
           ++ rewrite get_set_same in Hget. injection Hget as <-.
              destruct (Hbest _ _ Eget) as (_ & _ & _ & Hmax).
              split; [reflexivity|]. split; [exact Eage|]. split.
              ** exists s. split; [apply in_or_app; right; left; reflexivity | auto].
              ** intros s' Hin Hp Hold. cbn [maxSimilarity].
                 apply in_app_or in Hin as [Hin | [<- | []]]; [|lra].
                 specialize (Hmax s' Hin Hp Hold). lra.
           ++ rewrite get_set_other in Hget by exact Hne.
              apply bestMatch_more; [apply Hbest, Hget|]. intros Hp. congruence.
        -- intros s' Hin Hold. apply in_app_or in Hin as [Hin | [<- | []]].
           ++ destruct (string_dec (path (file s')) (path (file s))) as [-> | Hne];
                [rewrite get_set_same; discriminate|].
              rewrite get_set_other by exact Hne. apply Hcover; assumption.
           ++ rewrite get_set_same. discriminate.
      * apply Rgtb_false in Esim. split; [exact Hwf|]. split.
        -- intros p c Hget. apply bestMatch_more; [apply Hbest, Hget|].
           intros Hp _. rewrite <- Hp, Eget in Hget. injection Hget as <-. exact Esim.
        -- intros s' Hin Hold. apply in_app_or in Hin as [Hin | [<- | []]];
             [apply Hcover; assumption | rewrite Eget; discriminate].
    + split; [apply wf_set, Hwf|]. split.
      * intros p c Hget. destruct (string_dec p (path (file s))) as [-> | Hne].
        -- rewrite get_set_same in Hget. injection Hget as <-.
           split; [reflexivity|]. split; [exact Eage|]. split.
           ++ exists s. split; [apply in_or_app; right; left; reflexivity | auto].
           ++ intros s' Hin Hp Hold. cbn [maxSimilarity].
              apply in_app_or in Hin as [Hin | [<- | []]]; [|lra].
              exfalso. apply (Hcover s' Hin Hold). rewrite Hp. exact Eget.
        -- rewrite get_set_other in Hget by exact Hne.
           apply bestMatch_more; [apply Hbest, Hget|]. intros Hp. congruence.
      * intros s' Hin Hold. apply in_app_or in Hin as [Hin | [<- | []]].
        -- destruct (string_dec (path (file s')) (path (file s))) as [-> | Hne];
             [rewrite get_set_same; discriminate|].
           rewrite get_set_other by exact Hne. apply Hcover; assumption.
        -- rewrite get_set_same. discriminate.
Qed.

Lemma addCandidates_app now minDaysOld (l1 l2 : list SimilarNote) cm :
  addCandidates now minDaysOld (l1 ++ l2) cm
  = addCandidates now minDaysOld l2 (addCandidates now minDaysOld l1 cm).
Proof. unfold addCandidates. apply fold_left_app. Qed.

Lemma candidates_loop now minDaysOld (similar : list SimilarNote) : forall seen cm,
  candidatesOf now minDaysOld seen cm ->
  candidatesOf now minDaysOld (seen ++ similar) (addCandidates now minDaysOld similar cm).
Proof.
  induction similar as [|s similar IH]; intros seen cm H.
  - rewrite app_nil_r. exact H.
  - change (s :: similar) with ([s] ++ similar).
    rewrite addCandidates_app, app_assoc. apply IH, candidate_step, H.
Qed.

Lemma anchors_loop app st now minDaysOld (anchors : list TFile) : forall cm,
  fold_left (fun cm recentFile =>
               addCandidates now minDaysOld (findSimilar app st recentFile 20) cm)
            anchors cm
  = addCandidates now minDaysOld (anchorMatches app st anchors) cm.
Proof.
  unfold anchorMatches.
  induction anchors as [|a anchors IH]; intro cm; cbn [fold_left flat_map]; [reflexivity|].
  rewrite IH, addCandidates_app. reflexivity.
Qed.

Lemma candidates_of_anchors app st now minDaysOld (anchors : list TFile) :
  candidatesOf now minDaysOld (anchorMatches app st anchors)
    (addCandidates now minDaysOld (anchorMatches app st anchors) []).
Proof.
  apply (candidates_loop now minDaysOld (anchorMatches app st anchors) [] []).
  split; [apply wf_nil|]. split; [discriminate|]. intros s [].
Qed.

Lemma NoDup_firstn {A : Type} n (l : list A) : NoDup l -> NoDup (firstn n l).
Proof.
  intro H. rewrite <- (firstn_skipn n l) in H. apply NoDup_app_remove_r in H. exact H.
Qed.

Lemma old_note_not_future now minDaysOld f :
  0 <= minDaysOld -> minDaysOld <= getDaysSinceModified now f -> mtime f <= now.
Proof.
  unfold getDaysSinceModified. intros H0 H.
  assert (Hd : 0 <= (now - mtime f) / msPerDay) by lra.
  pose proof msPerDay_positive as Hm.
  apply (Rmult_le_compat_r msPerDay) in Hd; [|lra].
  unfold Rdiv in Hd. rewrite Rmult_assoc, Rinv_l in Hd by lra. lra.
Qed.

Lemma compositeScore_below_one rel decay orphan :
  0 <= rel <= 1 -> 0 <= decay < 1 -> 0 <= orphan <= 1 ->
  0 <= compositeScore rel decay orphan < 1.
Proof. intros. rewrite compositeScore_eq. lra. Qed.

Section DigestEntries.

Variable getSnippet : App -> TFile -> string.

#[local] Abbreviation getDailyDigest' := (getDailyDigest getSnippet).
#[local] Abbreviation scoreCandidate' := (scoreCandidate getSnippet).
#[local] Abbreviation scoreForgotten' := (scoreForgotten getSnippet).

Lemma digest_fallback app st now minDaysOld count :
  isReady st = true -> getRecentlyModifiedFiles app now 3 = [] ->
  getDailyDigest' app st now minDaysOld count
  = firstn count
      (sortDesc score
         (map (scoreForgotten' app now)
            (filter (fun f => negb (Rltb (getDaysSinceModified now f) minDaysOld))
                    (vault_getMarkdownFiles app)))).
Proof. intros Hr Hnone. unfold getDailyDigest. rewrite Hr, Hnone. reflexivity. Qed.

Lemma digest_anchored app st now minDaysOld count :
  isReady st = true -> getRecentlyModifiedFiles app now 3 <> [] ->
  getDailyDigest' app st now minDaysOld count
  = firstn count
      (sortDesc score
         (map (scoreCandidate' app now)
            (JsMap.values
               (addCandidates now minDaysOld
                  (anchorMatches app st (getRecentlyModifiedFiles app now 3)) [])))).
Proof.
  intros Hr Hsome. unfold getDailyDigest. rewrite Hr. cbn [negb].
  destruct (getRecentlyModifiedFiles app now 3) as [|a anchors] eqn:E; [congruence|].
  cbn [List.length Nat.eqb]. cbv zeta. rewrite anchors_loop. reflexivity.
Qed.


End DigestEntries.

Lemma digest_of_restored :
  getDailyDigest (fun _ _ => "") workVault restored tenDays 7 5
  = [ scoreCandidate (fun _ _ => "") workVault tenDays
        {| c_file := oldNote; maxSimilarity := 1 |} ].
Proof.
  assert (Hrecent : getRecentlyModifiedFiles workVault tenDays 3 = [todayNote]).
  { unfold getRecentlyModifiedFiles.
    change (vault_getMarkdownFiles workVault) with [todayNote; oldNote; otherNote].
    cbn [filter mtime todayNote oldNote otherNote].
    rewrite (proj2 (Rgtb_true tenDays _)) by (unfold tenDays, msPerDay; lra).
    rewrite !(proj2 (Rgtb_false 0 _)) by (unfold tenDays, msPerDay; lra).
    reflexivity. }
  unfold getDailyDigest.
  replace (isReady restored) with true by (rewrite restored_state; reflexivity).
  rewrite Hrecent. cbn [negb List.length Nat.eqb fold_left].
  rewrite findSimilar_restored. unfold addCandidates.
  cbn [fold_left file similarity]. rewrite linkedVault_days.
  rewrite (proj2 (Rltb_false 10 7)) by lra.
  cbn [JsMap.get JsMap.set JsMap.values map snd sortDesc fold_right insertDesc firstn].
  reflexivity.
Qed.


(* ================================================================== *)
(** ** Writing the index and reading it back *)

Lemma filter_all {A : Type} (p : A -> bool) (l : list A) :
  forallb p l = true -> filter p l = l.
Proof.
  induction l as [|x l IH]; cbn [forallb filter]; [reflexivity|].
  intro H. apply andb_prop in H as [Hx Hl]. rewrite Hx, IH by exact Hl. reflexivity.
Qed.

Lemma filter_none {A : Type} (p : A -> bool) (l : list A) :
  forallb (fun x => negb (p x)) l = true -> filter p l = [].
Proof.
  induction l as [|x l IH]; cbn [forallb filter]; [reflexivity|].
  intro H. apply andb_prop in H as [Hx Hl]. apply negb_true_iff in Hx.
  rewrite Hx. apply IH, Hl.
Qed.

Lemma forallb_mapped {A B : Type} (p : B -> bool) (f : A -> B) (l : list A) :
  forallb p (map f l) = forallb (fun x => p (f x)) l.
Proof. induction l as [|x l IH]; cbn; [reflexivity | rewrite IH; reflexivity]. Qed.

Lemma Object_fromEntries_plain {V : Type} (m : JsMap V) :
  JsMap.wf m -> plainKeys m = true -> Object_fromEntries m = m.
Proof.
  intros Hwf Hplain. unfold Object_fromEntries. cbv zeta.
  rewrite newMap_wf_entries by exact Hwf.
  unfold plainKeys, JsMap.keys in Hplain. rewrite forallb_mapped in Hplain.
  rewrite (filter_none (fun e => isArrayIndex (fst e)) m Hplain).
  rewrite (filter_all (fun e => negb (isArrayIndex (fst e))) m Hplain).
  reflexivity.
Qed.

Lemma numbersObject_plain (m : JsMap R) :
  JsMap.wf m -> plainKeys m = true ->
  numbersObject m = JObject (map (fun '(term, x) => (term, JNumber x)) m).
Proof.
  intros Hwf Hplain. unfold numbersObject. f_equal.
  apply Object_fromEntries_plain.
  - unfold JsMap.wf. rewrite (keys_map_values (fun _ x => JNumber x)). exact Hwf.
  - unfold plainKeys. rewrite (keys_map_values (fun _ x => JNumber x)). exact Hplain.
Qed.

Lemma numbers_read_back (m : JsMap R) :
  JsMap.wf m ->
  newMap (map (fun '(term, v) => (term, numberLeaf v))
              (map (fun '(term, x) => (term, JNumber x)) m)) = m.
Proof.
  intro Hwf. rewrite map_map.
  assert (E : map (fun x : string * R =>
                     let '(term, v) := let '(term, x0) := x in (term, JNumber x0) in
                     (term, numberLeaf v)) m = m).
  { rewrite <- (map_id m) at 2. apply map_ext. intros [t x]. reflexivity. }
  rewrite E. apply newMap_wf_entries, Hwf.
Qed.

Lemma restoreTfMaps_written (m : JsMap (JsMap R)) : forall acc,
  Forall (fun e => JsMap.wf (snd e)) m ->
  restoreTfMaps numberLeaf
    (map (fun '(k, v) => (k, JObject (map (fun '(term, x) => (term, JNumber x)) v))) m)
    acc
  = (fold_left (fun acc '(k, v) => JsMap.set acc k v) m acc, true).
Proof.
  induction m as [|[k v] m IH]; intros acc Hwf; cbn [map restoreTfMaps fold_left];
    [reflexivity|].
  inversion Hwf as [|? ? Hv Hm]; subst. cbn [snd] in Hv.
  cbn [Object_entries]. rewrite numbers_read_back by exact Hv. apply IH, Hm.
Qed.

Lemma written_tfMaps (m : JsMap (JsMap R)) :
  JsMap.wf m -> plainKeys m = true ->
  Forall (fun e => JsMap.wf (snd e)) m ->
  forallb plainKeys (JsMap.values m) = true ->
  Object_fromEntries (map (fun '(k, v) => (k, numbersObject v)) m)
  = map (fun '(k, v) => (k, JObject (map (fun '(term, x) => (term, JNumber x)) v))) m.
Proof.
  intros Hwf Hplain Hvals Hterms.
  rewrite Object_fromEntries_plain.
  - apply map_ext_in. intros [k v] Hin. f_equal.
    apply numbersObject_plain.
    + rewrite Forall_forall in Hvals. apply (Hvals _ Hin).
    + rewrite forallb_forall in Hterms. apply Hterms.
      unfold JsMap.values. apply in_map_iff. exists (k, v). auto.
  - unfold JsMap.wf. rewrite (keys_map_values (fun _ v => numbersObject v)). exact Hwf.
  - unfold plainKeys. rewrite (keys_map_values (fun _ v => numbersObject v)). exact Hplain.
Qed.

Lemma loadIndex_written (app : App) (st st0 : EmbeddingEngine) (now : R) :
  savable st ->
  indexFile app = Parsed (saveIndex st now) ->
  loadIndex numberLeaf app st0
  = ({| tfMaps := tfMaps st;
        idf := idf st;
        tfidfVectors := rebuildVectors (tfMaps st) (idf st);
        indexReady := true;
        excludedFolders := excludedFolders st0 |}, true).
Proof.
  intros (Hwf & Hidf & Hvals & Hplain & Hplainidf & Hterms) Hfile.
  unfold loadIndex. rewrite Hfile. unfold saveIndex.
  rewrite written_tfMaps by assumption.
  rewrite numbersObject_plain by assumption.
  cbn [getProperty JsMap.get String.eqb Ascii.eqb Bool.eqb Object_entries].
  rewrite restoreTfMaps_written by exact Hvals.
  fold (newMap (tfMaps st)). rewrite newMap_wf_entries by exact Hwf.
  cbn [negb]. rewrite numbers_read_back by exact Hidf. reflexivity.
Qed.

(** X30: an index that is saved and loaded comes back: when no path and no
    term is an array index, [loadIndex] on the file that [saveIndex]
    wrote returns true and restores the TF maps and the IDF table as they
    were, in their order; the vectors are computed anew from them, so
    they are the stored vectors exactly when those were up to date with
    the table; the engine is ready, and the excluded folders of the
    loading engine stay. *)
Theorem saveIndex_then_loadIndex (app : App) (st st0 : EmbeddingEngine) (now : R) :
  savable st ->
  let '(st', loaded) := loadIndex numberLeaf (hostAfterSave app st now) st0 in
  loaded = true
  /\ tfMaps st' = tfMaps st /\ idf st' = idf st
  /\ tfidfVectors st' = rebuildVectors (tfMaps st) (idf st)
  /\ isReady st' = true
  /\ excludedFolders st' = excludedFolders st0
  /\ (tfidfVectors st = rebuildVectors (tfMaps st) (idf st) -> isReady st = true ->
      forall app' f topK, findSimilar app' st' f topK = findSimilar app' st f topK).
Proof.
  intro Hs.
  rewrite (loadIndex_written (hostAfterSave app st now) st st0 now Hs eq_refl).
  repeat split. intros Hvec Hready app' f topK. unfold findSimilar.
  unfold isReady in Hready. rewrite Hready. cbn [indexReady tfidfVectors].
  rewrite <- Hvec. reflexivity.
Qed.

Lemma saveIndex_then_loadIndex_witness :
  let '(st', loaded) :=
    loadIndex numberLeaf (hostAfterSave workVault restored 0) (newEngine ["drafts"]) in
  loaded = true
  /\ tfMaps st' = tfMaps restored /\ idf st' = idf restored
  /\ tfidfVectors st' = rebuildVectors (tfMaps restored) (idf restored)
  /\ isReady st' = true
  /\ excludedFolders st' = excludedFolders (newEngine ["drafts"])
  /\ (tfidfVectors restored = rebuildVectors (tfMaps restored) (idf restored) ->
      isReady restored = true ->
      forall app' f topK, findSimilar app' st' f topK = findSimilar app' restored f topK).
Proof.
  apply (saveIndex_then_loadIndex workVault restored (newEngine ["drafts"]) 0).
  rewrite restored_state. unfold savable. cbn [tfMaps idf].
  repeat split; try reflexivity;
    repeat constructor; cbn; intuition discriminate.
Defined.

(* ================================================================== *)
(** ** The notes that wait for the index *)

Lemma setAdd_NoDup (s : list string) p : NoDup s -> NoDup (setAdd s p).
Proof.
  intro H. unfold setAdd. destruct (existsb (String.eqb p) s) eqn:E; [exact H|].
  apply NoDup_app; [exact H | repeat constructor; cbn; tauto|].
  intros x Hx [Hpx | []]. subst x.
  assert (existsb (String.eqb p) s = true)
    by (apply existsb_exists; exists p; split; [exact Hx | apply String.eqb_refl]).
  congruence.
Qed.

Lemma setAdd_In (s : list string) p : In p (setAdd s p).
Proof.
  unfold setAdd. destruct (existsb (String.eqb p) s) eqn:E.
  - apply existsb_exists in E as (x & Hx & Hpx). apply String.eqb_eq in Hpx.
    subst x. exact Hx.
  - apply in_or_app. right. left. reflexivity.
Qed.

Section DebounceFacts.

Variable getIndexableContent : TFile -> string -> string.

#[local] Abbreviation indexNote' := (indexNote getIndexableContent).
#[local] Abbreviation fileTF' := (fileTF getIndexableContent).
#[local] Abbreviation flushPending' := (flushPending getIndexableContent).
#[local] Abbreviation pluginStep' := (pluginStep getIndexableContent).
#[local] Abbreviation runPlugin' := (runPlugin getIndexableContent).

(** No pending path twice, and no pending path without a timer. *)
Lemma pluginStep_pending pl ev :
  NoDup (pendingIndexFiles pl) ->
  (indexDebounceTimer pl = false -> pendingIndexFiles pl = []) ->
  NoDup (pendingIndexFiles (pluginStep' pl ev))
  /\ (indexDebounceTimer (pluginStep' pl ev) = false ->
      pendingIndexFiles (pluginStep' pl ev) = []).
Proof.
  intros Hnd Htimer. destruct ev as [e | e | e oldPath | app]; cbn [pluginStep].
  - destruct e as [f | p]; cbn [onModify]; [|auto].
    destruct (String.eqb (extension f) "md"); [|auto].
    cbn [debouncedIndexNote pendingIndexFiles indexDebounceTimer].
    split; [apply setAdd_NoDup, Hnd | discriminate].
  - destruct e as [f | p]; cbn [onDelete withEngine pendingIndexFiles indexDebounceTimer]; auto.
  - destruct e as [f | p]; cbn [onRename]; [|auto].
    destruct (String.eqb (extension f) "md"); [|auto].
    cbn [debouncedIndexNote withEngine pendingIndexFiles indexDebounceTimer].
    split; [apply setAdd_NoDup, Hnd | discriminate].
  - destruct (indexDebounceTimer pl); [|auto].
    cbn [flushPending pendingIndexFiles]. split; [constructor | reflexivity].
Qed.

Lemma runPlugin_pending events : forall pl,
  NoDup (pendingIndexFiles pl) ->
  (indexDebounceTimer pl = false -> pendingIndexFiles pl = []) ->
  NoDup (pendingIndexFiles (runPlugin' events pl))
  /\ (indexDebounceTimer (runPlugin' events pl) = false ->
      pendingIndexFiles (runPlugin' events pl) = []).
Proof.
  unfold runPlugin. induction events as [|ev events IH]; intros pl Hnd Htimer;
    cbn [fold_left]; [auto|].
  destruct (pluginStep_pending pl ev Hnd Htimer) as [Hnd' Htimer'].
  apply IH; assumption.
Qed.

Lemma flush_loop_keys app (paths : list string) : forall st p,
  In p (getIndexedPaths
          (fold_left (fun st q =>
                        match vault_getAbstractFileByPath app q with
                        | Some (AFile f) => indexNote' app st f
                        | _ => st
                        end) paths st)) ->
  In p (getIndexedPaths st)
  \/ (In p paths /\ exists f, vault_getAbstractFileByPath app p = Some (AFile f)).
Proof.
  induction paths as [|q paths IH]; intros st p H; cbn [fold_left] in H; [left; exact H|].
  apply IH in H as [H | [Hin Hf]]; [|right; split; [right; exact Hin | exact Hf]].
  destruct (vault_getAbstractFileByPath app q) as [[f | d]|] eqn:E;
    [|left; exact H|left; exact H].
  unfold indexNote in H. destruct (negb (indexReady st)); [left; exact H|].
  unfold getIndexedPaths in H. cbn [tfMaps] in H.
  apply in_keys_set in H as [-> | H]; [|left; exact H].
  pose proof (vault_getAbstractFileByPath_path app q _ E) as Hq. cbn [abstractPath] in Hq.
  right. split; [left; symmetry; exact Hq|]. exists f. rewrite Hq. exact E.
Qed.

Lemma flush_loop_ready app (paths : list string) : forall st,
  indexReady st = true ->
  indexReady (fold_left (fun st q =>
                           match vault_getAbstractFileByPath app q with
                           | Some (AFile f) => indexNote' app st f
                           | _ => st
                           end) paths st) = true.
Proof.
  induction paths as [|q paths IH]; intros st H; cbn [fold_left]; [exact H|].
  apply IH. destruct (vault_getAbstractFileByPath app q) as [[f | d]|]; try exact H.
  rewrite indexNote_ready_eq by exact H. reflexivity.
Qed.

Lemma flush_loop_frame app (paths : list string) p : forall st,
  ~ In p paths ->
  JsMap.get (tfMaps (fold_left (fun st q =>
                                  match vault_getAbstractFileByPath app q with
                                  | Some (AFile f) => indexNote' app st f
                                  | _ => st
                                  end) paths st)) p
  = JsMap.get (tfMaps st) p.
Proof.
  induction paths as [|q paths IH]; intros st Hp; cbn [fold_left]; [reflexivity|].
  rewrite IH by (intro H; apply Hp; right; exact H).
  destruct (vault_getAbstractFileByPath app q) as [[f | d]|] eqn:E; try reflexivity.
  pose proof (vault_getAbstractFileByPath_path app q _ E) as Hq. cbn [abstractPath] in Hq.
  unfold indexNote. destruct (negb (indexReady st)); [reflexivity|].
  cbn [tfMaps]. apply get_set_other. intros ->. apply Hp. left. symmetry. exact Hq.
Qed.

Lemma flush_loop_indexes app (paths : list string) : forall st p f,
  indexReady st = true -> NoDup paths -> In p paths ->
  vault_getAbstractFileByPath app p = Some (AFile f) ->
  JsMap.get (tfMaps (fold_left (fun st q =>
                                  match vault_getAbstractFileByPath app q with
                                  | Some (AFile g) => indexNote' app st g
                                  | _ => st
                                  end) paths st)) p
  = Some (fileTF' app f).
Proof.
  induction paths as [|q paths IH]; intros st p f Hr Hnd Hin Hf; [destruct Hin|].
  inversion Hnd as [|? ? Hq Hnd']; subst. cbn [fold_left].
  destruct Hin as [-> | Hin].
  - rewrite flush_loop_frame by exact Hq. rewrite Hf.
    rewrite indexNote_ready_eq by exact Hr. cbn [tfMaps].
    pose proof (vault_getAbstractFileByPath_path app p _ Hf) as Hp. cbn [abstractPath] in Hp.
    rewrite Hp. apply get_set_same.
  - apply IH; try assumption.
    destruct (vault_getAbstractFileByPath app q) as [[g | d]|]; try exact Hr.
    rewrite indexNote_ready_eq by exact Hr. reflexivity.
Qed.


End DebounceFacts.
